(** * Archer: the project graph model and the Gradle report parsers

  A shallow embedding of the Go packages [archer] (the project
  registry, dependency edges, size records, naming and ordering),
  [gradle] (the parsers of the [projects] and [dependencies] reports)
  and [mysql] (the loops of the importer of tables and foreign keys),
  followed by the properties the design document states about them
  and by further properties of the code.

  Go values are modelled as follows.
  - [string]: a sequence of bytes, Rocq's [string]; [len] is [String.length].
  - [int]: a 64-bit two's complement integer, a [Z] normalised by [wrap].
  - [map[K]V]: stdpp's [gmap]. The maps of [Project], [Dependency] and
    [Projects] are made by [NewProject], [AddDependency] and
    [NewProjects] and are never [nil]; [Size.Other] is set by whoever
    writes the [Size] literal and may be [nil]: it is an
    [option (gmap string Z)].
  - [*Project], [*Dependency]: addresses into a store ([Heap]); two
    pointers are the same node exactly when the addresses are equal.
  - a [panic]: the [Panic] outcome of a call. *)

From Stdlib Require Import ZArith Ascii String List.
From stdpp Require Import gmap strings list fin_maps sorting.


(* ===================================================================== *)
(** * Go's [strings] package and string operators *)
(* ===================================================================== *)

Module strings.

(** The one-byte string ["\n"]. *)
Definition nl : string := String "010"%char "".

Definition len (s : string) : nat := String.length s.

(** [strings.HasPrefix(s, prefix)]. *)
Fixpoint HasPrefix (s prefix : string) : bool :=
  match prefix, s with
  | EmptyString, _ => true
  | String _ _, EmptyString => false
  | String a p', String b s' => if Ascii.eqb a b then HasPrefix s' p' else false
  end.

(** Whether byte [c] occurs in [cutset]. *)
Fixpoint contains_byte (cutset : string) (c : ascii) : bool :=
  match cutset with
  | EmptyString => false
  | String a r => if Ascii.eqb a c then true else contains_byte r c
  end.

(** [strings.TrimLeft(s, cutset)]: drop the leading bytes found in [cutset]. *)
Fixpoint TrimLeft (s cutset : string) : string :=
  match s with
  | EmptyString => EmptyString
  | String c s' => if contains_byte cutset c then TrimLeft s' cutset else s
  end.

(** [strings.Join(elems, sep)]. *)
Fixpoint Join (elems : list string) (sep : string) : string :=
  match elems with
  | [] => ""
  | [e] => e
  | e :: rest => e +:+ sep +:+ Join rest sep
  end.

(** [strings.Split(s, sep)] for a one-byte separator: the pieces between
    the occurrences of [sep]; there is always at least one piece. *)
Fixpoint Split (s : string) (sep : ascii) : list string :=
  match s with
  | EmptyString => [""]
  | String c s' =>
      if Ascii.eqb c sep then "" :: Split s' sep
      else match Split s' sep with
           | h :: t => String c h :: t
           | [] => [String c ""]
           end
  end.

(** The operator [<] on strings: bytewise lexicographic order. *)
Definition lt (a b : string) : bool := String.ltb a b.

(** [s[n:]] and [s[:n]] on bytes. *)
Fixpoint drop (n : nat) (s : string) : string :=
  match n, s with
  | O, _ => s
  | S _, EmptyString => EmptyString
  | S m, String _ s' => drop m s'
  end.

Fixpoint take (n : nat) (s : string) : string :=
  match n, s with
  | O, _ => EmptyString
  | S _, EmptyString => EmptyString
  | S m, String c s' => String c (take m s')
  end.

End strings.

(* ===================================================================== *)
(** * Go's [regexp] package, for the patterns the parsers compile *)
(* ===================================================================== *)

Module regexp.

(** The syntax the four patterns of package [gradle] are written in.
    Matching is leftmost-first: alternatives are tried left to right,
    [+] and [?] are greedy and give back what a later part needs. *)
Inductive regex : Type :=
| Bot                              (* ^ : start of the text *)
| Eot                              (* $ : end of the text *)
| Lit (s : string)                 (* literal bytes *)
| Plus (cls : ascii → bool)        (* [cls]+ *)
| Opt (r : regex)                  (* (?:r)? *)
| Alt (r1 r2 : regex)              (* r1|r2 *)
| Cat (r1 r2 : regex)              (* r1 r2 *)
| Cap (r : regex).                 (* (r), a capturing group *)

(** Length of the longest prefix of [s] made of bytes of the class. *)
Fixpoint run_len (cls : ascii → bool) (s : string) : nat :=
  match s with
  | EmptyString => 0
  | String c s' => if cls c then S (run_len cls s') else 0
  end.

(** First success of [f i], [f (i-1)], ..., [f 1]. *)
Fixpoint first_down {A} (i : nat) (f : nat → option A) : option A :=
  match i with
  | O => None
  | S j => match f i with
           | Some x => Some x
           | None => first_down j f
           end
  end.

(** [run r pos s cs k]: match [r] against [s], the text from offset
    [pos] on, with the groups closed so far in [cs]; [k] matches what
    follows [r]. Groups are recorded in the order they close, which is
    their number in patterns whose groups are neither nested nor
    optional. *)
Fixpoint run (r : regex) (pos : nat) (s : string) (cs : list string)
    (k : nat → string → list string → option (list string)) : option (list string) :=
  match r with
  | Bot => if decide (pos = 0) then k pos s cs else None
  | Eot => match s with EmptyString => k pos s cs | _ => None end
  | Lit l =>
      if strings.HasPrefix s l
      then k (pos + String.length l) (strings.drop (String.length l) s) cs
      else None
  | Plus cls =>
      first_down (run_len cls s) (λ i, k (pos + i) (strings.drop i s) cs)
  | Opt r1 =>
      match run r1 pos s cs k with
      | Some m => Some m
      | None => k pos s cs
      end
  | Alt r1 r2 =>
      match run r1 pos s cs k with
      | Some m => Some m
      | None => run r2 pos s cs k
      end
  | Cat r1 r2 => run r1 pos s cs (λ pos' s' cs', run r2 pos' s' cs' k)
  | Cap r1 =>
      run r1 pos s cs (λ pos' s' cs', k pos' s' (cs' ++ [strings.take (pos' - pos) s]))
  end.

(** A match of [r] starting at offset [pos]: the matched text, then the groups. *)
Definition match_at (r : regex) (pos : nat) (s : string) : option (list string) :=
  run r pos s [] (λ pos' _ cs, Some (strings.take (pos' - pos) s :: cs)).

(** The leftmost match: offsets [pos], [pos+1], ... up to the end of the text. *)
Fixpoint search (r : regex) (pos : nat) (s : string) : option (list string) :=
  match match_at r pos s with
  | Some m => Some m
  | None => match s with
            | EmptyString => None
            | String _ s' => search r (S pos) s'
            end
  end.

(** [re.FindStringSubmatch(s)]: [None] is Go's [nil]. *)
Definition FindStringSubmatch (r : regex) (s : string) : option (list string) :=
  search r 0 s.

(** [m[i]] for a match [m]. *)
Definition group (m : list string) (i : nat) : string := nth i m "".

Declare Scope regex_scope.
Delimit Scope regex_scope with re.
Infix "·" := Cat (at level 40, left associativity) : regex_scope.

End regexp.

(* ===================================================================== *)
(** * Package [archer]: sizes, projects, dependencies and the registry *)
(* ===================================================================== *)

Module archer.

(** A call either returns or panics with a message. *)
Inductive outcome (A : Type) : Type :=
| Ok (a : A)
| Panic (msg : string).
Arguments Ok {A} a.
Arguments Panic {A} msg.

#[global] Instance outcome_ret : MRet outcome := λ A a, Ok a.

#[global] Instance outcome_bind : MBind outcome := λ A B f x,
  match x with
  | Ok a => f a
  | Panic msg => Panic msg
  end.

(** Go's [int] on the 64-bit targets: sums wrap around. *)
Definition wrap (z : Z) : Z := ((z + 2 ^ 63) mod 2 ^ 64 - 2 ^ 63)%Z.

Definition is_int (z : Z) : Prop := (- 2 ^ 63 ≤ z < 2 ^ 63)%Z.

Inductive FilterType : Type := FilterAll | FilterExcludeExternal.

Inductive ProjectType : Type := ExternalDependencyType | CodeType | DatabaseType.

#[global] Instance FilterType_eq_dec : EqDecision FilterType.
Proof. solve_decision. Defined.

#[global] Instance ProjectType_eq_dec : EqDecision ProjectType.
Proof. solve_decision. Defined.

(** ** Size *)

(** [Other] is a Go map: [None] is the [nil] map of a zero-valued
    [Size{}], which can be read and ranged over but not assigned to. *)
Record Size : Type := mkSize {
  Lines : Z;
  Files : Z;
  Bytes : Z;
  Other : option (gmap string Z)
}.

(** [m[k]] read with the comma-ok form and the flag dropped: the zero
    value when [k] is absent or the map is [nil]. *)
Definition map_get (m : option (gmap string Z)) (k : string) : Z :=
  match m with
  | Some g => default 0%Z (g !! k)
  | None => 0%Z
  end.

(** One round of the loop of [Size.Add]:
    [o, _ := l.Other[k]; l.Other[k] = o + v]. Assigning to an entry of
    a [nil] map panics. *)
Definition Add_entry (k : string) (v : Z) (acc : outcome (option (gmap string Z)))
    : outcome (option (gmap string Z)) :=
  lo ← acc;
  match lo with
  | Some g => Ok (Some (<[k := wrap (map_get lo k + v)]> g))
  | None => Panic "assignment to entry in nil map"
  end.

(** [func (l *Size) Add(other Size)]: the value [*l] holds after the
    call. The loop ranges over the entries of [other.Other] (none when
    it is [nil]); each key is visited once, in an order Go leaves open. *)
Definition Size_Add (l other : Size) : outcome Size :=
  o ← map_fold Add_entry (Ok (Other l)) (default ∅ (Other other));
  Ok {| Lines := wrap (Lines l + Lines other);
        Files := wrap (Files l + Files other);
        Bytes := wrap (Bytes l + Bytes other);
        Other := o |}.

(** ** Project and Dependency *)

(** Addresses of [Project] and of [Dependency] objects ([None] is [nil]
    where a pointer may be [nil]). *)
Abbreviation ptr := nat (only parsing).
Abbreviation dptr := nat (only parsing).

Record Project : Type := mkProject {
  Root : string;
  Name : string;
  NameParts : list string;
  Type_ : ProjectType;
  RootDir : string;
  Dir : string;
  ProjectFile : string;
  dependencies : gmap string dptr;
  size : gmap string Size;
  config : gmap string string;
  dataDir : string
}.

Record Dependency : Type := mkDependency {
  Source : ptr;
  Target : ptr;
  dconfig : gmap string string
}.

(** The objects allocated so far; an address is an index. *)
Record Heap : Type := mkHeap {
  projs : list Project;
  deps : list Dependency
}.

Definition empty_heap : Heap := {| projs := []; deps := [] |}.

Definition set_dependencies (p : Project) (d : gmap string dptr) : Project :=
  mkProject (Root p) (Name p) (NameParts p) (Type_ p) (RootDir p) (Dir p)
    (ProjectFile p) d (size p) (config p) (dataDir p).

Definition set_config (p : Project) (c : gmap string string) : Project :=
  mkProject (Root p) (Name p) (NameParts p) (Type_ p) (RootDir p) (Dir p)
    (ProjectFile p) (dependencies p) (size p) c (dataDir p).

Definition set_size (p : Project) (s : gmap string Size) : Project :=
  mkProject (Root p) (Name p) (NameParts p) (Type_ p) (RootDir p) (Dir p)
    (ProjectFile p) (dependencies p) s (config p) (dataDir p).

Definition set_dconfig (d : Dependency) (c : gmap string string) : Dependency :=
  mkDependency (Source d) (Target d) c.

(** [NewProject(root, name)]: the fields not named are zero values. *)
Definition NewProject (root name : string) : Project :=
  {| Root := root; Name := name; NameParts := [];
     Type_ := ExternalDependencyType;
     RootDir := ""; Dir := ""; ProjectFile := "";
     dependencies := ∅; size := ∅; config := ∅; dataDir := "" |}.

(** [func (p *Project) AddDependency(d *Project) *Dependency], on the
    addresses [p] and [d]: a new edge object is allocated and stored in
    [p.dependencies] under [d.Name]. *)
Definition AddDependency (p d : ptr) (h : Heap) : outcome (dptr * Heap) :=
  match projs h !! p, projs h !! d with
  | Some P, Some D =>
      let result := length (deps h) in
      let edge := {| Source := p; Target := d; dconfig := ∅ |} in
      Ok (result,
          {| projs := <[p := set_dependencies P (<[Name D := result]> (dependencies P))]> (projs h);
             deps := deps h ++ [edge] |})
  | _, _ => Panic "nil pointer dereference"
  end.

(** [AddSize], [GetSize], [GetSizeOf], on the value of the receiver. *)
Definition AddSize (p : Project) (name : string) (s : Size) : Project :=
  set_size p (<[name := s]> (size p)).

Definition GetSize (p : Project) : outcome Size :=
  map_fold (λ _ v (acc : outcome Size), result ← acc; Size_Add result v)
    (Ok {| Lines := 0; Files := 0; Bytes := 0; Other := Some ∅ |}) (size p).

Definition GetSizeOf (p : Project) (name : string) : Size :=
  match size p !! name with
  | Some result => result
  | None => {| Lines := 0; Files := 0; Bytes := 0; Other := Some ∅ |}
  end.

Definition FullName (p : Project) : string := Root p +:+ ":" +:+ Name p.

(** Modelled from the spec: [utils.Take], which is not among the sources
    ("truncate to the first [level] parts"). *)
Definition utils_Take (parts : list string) (level : Z) : list string :=
  take (Z.to_nat level) parts.

(** The loop of [simplifyPrefixes]: [parts = parts[1:]] while there are
    two parts and the second starts with the first. *)
Fixpoint simplifyPrefixes (parts : list string) : list string :=
  match parts with
  | p0 :: (p1 :: _) as rest =>
      if strings.HasPrefix p1 p0 then simplifyPrefixes rest else parts
  | _ => parts
  end.

Definition LevelSimpleName (p : Project) (level : Z) : string :=
  if decide (length (NameParts p) = 0) then Name p
  else
    let parts := NameParts p in
    let parts := if decide (level > 0)%Z then utils_Take parts level else parts in
    let parts := simplifyPrefixes parts in
    let result := strings.Join parts ":" in
    if decide (strings.len (Name p) ≤ strings.len result)%nat then Name p else result.

Definition SimpleName (p : Project) : string := LevelSimpleName p 0.

Definition IsCode (p : Project) : bool := bool_decide (Type_ p = CodeType).

Definition IsExternalDependency (p : Project) : bool :=
  bool_decide (Type_ p = ExternalDependencyType).

(** ** Configuration stores *)

Definition Project_GetConfig (p : Project) (key : string) : string :=
  default "" (config p !! key).

Definition Project_SetConfig (p : Project) (key value : string) : bool * Project :=
  if decide (Project_GetConfig p key = value) then (false, p)
  else if decide (value = "") then (true, set_config p (delete key (config p)))
  else (true, set_config p (<[key := value]> (config p))).

Definition Dependency_GetConfig (d : Dependency) (key : string) : string :=
  default "" (dconfig d !! key).

Definition Dependency_SetConfig (d : Dependency) (key value : string) : bool * Dependency :=
  if decide (Dependency_GetConfig d key = value) then (false, d)
  else if decide (value = "") then (true, set_dconfig d (delete key (dconfig d)))
  else (true, set_dconfig d (<[key := value]> (dconfig d))).

(** ** Deterministic ordering *)

(** [sort.Slice(x, less)] belongs to Go's library, which promises an
    arrangement of [x] that has no inversion when [less] is a consistent
    ordering, and no more: the algorithm is the library's choice and the
    sort is not stable. The functions that call it take it as an
    interface. *)
Class Sorter : Type :=
  sort_Slice : ∀ {A : Type}, (A → A → bool) → list A → list A.

(** The algorithm the library runs on slices of at most 12 elements, an
    insertion sort: each element in turn is swapped towards the front
    while it is [less] than the one before it. The sorted part is kept
    last element first. *)
Fixpoint insert_back {A} (less : A → A → bool) (x : A) (sorted_rev : list A) : list A :=
  match sorted_rev with
  | [] => [x]
  | y :: r => if less x y then y :: insert_back less x r else x :: sorted_rev
  end.

Definition insertion_sort {A} (less : A → A → bool) (x : list A) : list A :=
  reverse (fold_left (λ acc e, insert_back less e acc) x []).

Definition insertion_Sorter : Sorter := @insertion_sort.

(** The three tests that end both comparison closures. *)
Definition less_Project (pi pj : Project) : bool :=
  if IsCode pi && IsExternalDependency pj then true
  else if IsExternalDependency pi && IsCode pj then false
  else strings.lt (strings.TrimLeft (Name pi) ":") (strings.TrimLeft (Name pj) ":").

(** A [*Project] together with the object it points to. *)
Abbreviation pnode := (nat * Project)%type (only parsing).

(** A [*Dependency] together with the objects its [Source] and [Target]
    point to. *)
Record dnode : Type := mkDnode {
  edge : dptr;
  source : Project;
  target : Project
}.

Definition sortProjects `{Sorter} (result : list pnode) : list pnode :=
  sort_Slice (λ ri rj, less_Project ri.2 rj.2) result.

Definition less_Dependency (ri rj : dnode) : bool :=
  let pi := source ri in
  let pj := source rj in
  if decide (Name pi = Name pj)
  then less_Project (target ri) (target rj)
  else less_Project pi pj.

Definition sortDependencies `{Sorter} (result : list dnode) : list dnode :=
  sort_Slice less_Dependency result.

Definition load_project (h : Heap) (p : ptr) : outcome pnode :=
  match projs h !! p with
  | Some P => Ok (p, P)
  | None => Panic "nil pointer dereference"
  end.

Definition load_dependency (h : Heap) (d : dptr) : outcome dnode :=
  match deps h !! d with
  | Some D =>
      '(_, src) ← load_project h (Source D);
      '(_, tgt) ← load_project h (Target D);
      Ok (mkDnode d src tgt)
  | None => Panic "nil pointer dereference"
  end.

(** [ListDependencies] of the project at [p]. Go leaves the order in
    which [range] visits a map open, so the order of the values is an
    argument: any arrangement of the values of [p.dependencies]. The
    filter and the comparison closure follow the pointers of the
    entries; the objects are loaded beforehand, which panics on a
    pointer that is not allocated. *)
Definition ListDependencies_in `{Sorter} (order : list dptr) (filter : FilterType)
    (h : Heap) : outcome (list dptr) :=
  vs ← mapM (load_dependency h) order;
  let result :=
    List.filter (λ v, negb (bool_decide (filter = FilterExcludeExternal)
                            && IsExternalDependency (target v))) vs in
  Ok (edge <$> sortDependencies result).

Definition ListDependencies `{Sorter} (p : ptr) (filter : FilterType) (h : Heap)
    : outcome (list dptr) :=
  '(_, P) ← load_project h p;
  ListDependencies_in (map_to_list (dependencies P)).*2 filter h.

(** ** The registry *)

Record Projects : Type := mkProjects {
  all : gmap string ptr
}.

Definition NewProjects : Projects := {| all := ∅ |}.

(** [GetOrNil]: [Ok None] is the [nil] result. *)
Definition GetOrNil (ps : Projects) (name : string) : outcome (option ptr) :=
  if decide (strings.len name = 0) then Panic "empty name not supported"
  else Ok (all ps !! name).

Definition Get (ps : Projects) (root name : string) (h : Heap)
    : outcome (ptr * Projects * Heap) :=
  if decide (strings.len root = 0) then Panic "empty root not supported"
  else if decide (strings.len name = 0) then Panic "empty name not supported"
  else
    let key := root +:+ strings.nl +:+ name in
    match all ps !! key with
    | Some result => Ok (result, ps, h)
    | None =>
        let result := length (projs h) in
        Ok (result,
            {| all := <[key := result]> (all ps) |},
            {| projs := projs h ++ [NewProject root name]; deps := deps h |})
    end.

Definition ListProjects_in `{Sorter} (order : list ptr) (filter : FilterType) (h : Heap)
    : outcome (list ptr) :=
  vs ← mapM (load_project h) order;
  let result :=
    List.filter (λ v : pnode, negb (bool_decide (filter = FilterExcludeExternal)
                                    && IsExternalDependency v.2)) vs in
  Ok (sortProjects result).*1.

Definition ListProjects `{Sorter} (ps : Projects) (filter : FilterType) (h : Heap)
    : outcome (list ptr) :=
  ListProjects_in (map_to_list (all ps)).*2 filter h.

(** The assignment [p.Type = t] importers make on a node they got from
    the registry. *)
Definition set_Type (p : ptr) (t : ProjectType) (h : Heap) : Heap :=
  match projs h !! p with
  | Some P =>
      {| projs := <[p := mkProject (Root P) (Name P) (NameParts P) t (RootDir P)
                           (Dir P) (ProjectFile P) (dependencies P) (size P)
                           (config P) (dataDir P)]> (projs h);
         deps := deps h |}
  | None => h
  end.

End archer.

(* ===================================================================== *)
(** * Package [gradle]: the report parsers *)
(* ===================================================================== *)

Module gradle.
Import regexp archer.
Local Open Scope regex_scope.

(** The character classes of the patterns. *)
Definition tree_char (c : ascii) : bool :=                 (* [-+\\| ] *)
  strings.contains_byte "-+\| " c.

Definition not_quote (c : ascii) : bool :=                 (* [^'] *)
  negb (Ascii.eqb c "'"%char).

Definition between (lo hi c : ascii) : bool :=
  (nat_of_ascii lo <=? nat_of_ascii c)%nat && (nat_of_ascii c <=? nat_of_ascii hi)%nat.

Definition id_char (c : ascii) : bool :=                   (* [a-zA-Z0-9:._-] *)
  between "a" "z" c || between "A" "Z" c || between "0" "9" c
  || strings.contains_byte ":._-" c.

(** [^Root project '([^']+)'$] *)
Definition rootRE : regex :=
  Bot · Lit "Root project '" · Cap (Plus not_quote) · Lit "'" · Eot.

(** [^[-+\\| ]+Project '([^']+)'$] *)
Definition projRE : regex :=
  Bot · Plus tree_char · Lit "Project '" · Cap (Plus not_quote) · Lit "'" · Eot.

(** [^(?:Root project|Project) '([^']+)'$] *)
Definition rootProjRE : regex :=
  Bot · Alt (Lit "Root project") (Lit "Project") · Lit " '"
      · Cap (Plus not_quote) · Lit "'" · Eot.

(** [^([-+\\| ]+)(?:project )?([a-zA-Z0-9:._-]+)] *)
Definition depRE : regex :=
  Bot · Cap (Plus tree_char) · Opt (Lit "project ") · Cap (Plus id_char).

(** ** [parseProjects] *)

(** The body of the loop over the lines; the state is [result] and
    [rootAdded]. *)
Definition parseProjects_line (st : list string * bool) (l : string)
    : list string * bool :=
  let '(result, rootAdded) := st in
  let '(result, rootAdded) :=
    if negb rootAdded then
      match FindStringSubmatch rootRE l with
      | Some m => (result ++ [group m 1], true)
      | None => (result, rootAdded)
      end
    else (result, rootAdded) in
  match FindStringSubmatch projRE l with
  | Some m => (result ++ [group m 1], rootAdded)
  | None => (result, rootAdded)
  end.

(** The second component is the [error], always [nil]. *)
Definition parseProjects (content : string) : list string * option string :=
  let lines := strings.Split content "010"%char in
  ((fold_left parseProjects_line lines ([], false)).1, None).

(** ** [parseDeps] *)

Inductive parseState : Type := waitingRoot | waitingDeps | parsingDeps.

#[global] Instance parseState_eq_dec : EqDecision parseState.
Proof. solve_decision. Defined.

(** [depth] holds a [len], never negative. *)
Record pd : Type := mkPd {
  proj : ptr;
  depth : nat
}.

(** Modelled from the spec: [utils.Last] and [utils.RemoveLast], which
    are not among the sources; the design document calls the last entry
    "the stack's top entry" and removing it "pop". On an empty slice both
    index out of range. The slice [stack] is kept with its last element
    first: [append(stack, x)] is [x :: stack]. *)
Definition utils_Last (stack : list pd) : outcome pd :=
  match stack with
  | lp :: _ => Ok lp
  | [] => Panic "index out of range"
  end.

Definition utils_RemoveLast (stack : list pd) : outcome (list pd) :=
  match stack with
  | _ :: rest => Ok rest
  | [] => Panic "slice bounds out of range"
  end.

(** [for depth <= lp.depth { stack = RemoveLast(stack); lp = Last(stack) }],
    with [new_depth] for the local [depth]; the two calls are written
    out, which makes the recursion structural (see [unwind_unfold]). *)
Fixpoint unwind (new_depth : nat) (stack : list pd) (lp : pd)
    : outcome (list pd * pd) :=
  if decide (new_depth ≤ depth lp)%nat then
    match stack with
    | _ :: rest =>
        match rest with
        | lp' :: _ => unwind new_depth rest lp'
        | [] => Panic "index out of range"
        end
    | [] => Panic "slice bounds out of range"
    end
  else Ok (stack, lp).

(** The variables the loop of [parseDeps] updates, and the objects. *)
Record vars : Type := mkVars {
  projects : Projects;
  heap : Heap;
  state : parseState;
  stack : list pd
}.

(** How one round of the loop ends. *)
Inductive round : Type :=
| Continue (v : vars)                 (* on to the next line *)
| Break (v : vars)                    (* [break] *)
| Return (err : string) (v : vars).   (* [return errors.Errorf(...)] *)

(** The body of the loop over the lines. *)
Definition parseDeps_line (rootProj : string) (l : string) (v : vars) : outcome round :=
  if decide (state v = waitingRoot) then
    match FindStringSubmatch rootProjRE l with
    | Some rootMatches =>
        '(p, ps, h) ← Get (projects v) rootProj (group rootMatches 1) (heap v);
        Ok (Continue (mkVars ps h waitingDeps (mkPd p 0 :: stack v)))
    | None => Ok (Continue v)
    end
  else
    let st :=
      if decide (state v = waitingDeps) then
        if strings.HasPrefix l "\---" || strings.HasPrefix l "+---"
        then parsingDeps else state v
      else state v in
    if decide (st = parsingDeps) then
      if decide (strings.len l = 0) then Ok (Break (mkVars (projects v) (heap v) st (stack v)))
      else
        match FindStringSubmatch depRE l with
        | None =>
            Ok (Return ("invalid dependency line: " +:+ l)
                       (mkVars (projects v) (heap v) st (stack v)))
        | Some depMatches =>
            let new_depth := strings.len (group depMatches 1) in
            '(p, ps, h) ← Get (projects v) rootProj (group depMatches 2) (heap v);
            lp ← utils_Last (stack v);
            '(stk, lp) ← unwind new_depth (stack v) lp;
            '(_, h) ← AddDependency (proj lp) p h;
            Ok (Continue (mkVars ps h st (mkPd p new_depth :: stk)))
        end
    else Ok (Continue (mkVars (projects v) (heap v) st (stack v))).

Fixpoint parseDeps_loop (rootProj : string) (lines : list string) (v : vars)
    : outcome (option string * vars) :=
  match lines with
  | [] => Ok (None, v)
  | l :: rest =>
      r ← parseDeps_line rootProj l v;
      match r with
      | Continue v' => parseDeps_loop rootProj rest v'
      | Break v' => Ok (None, v')
      | Return err v' => Ok (Some err, v')
      end
  end.

(** [parseDeps(projects, content, rootProj)]: the [error] ([None] is
    [nil]) with the registry and the objects as the call leaves them. *)
Definition parseDeps (ps : Projects) (content : string) (rootProj : string) (h : Heap)
    : outcome (option string * Projects * Heap) :=
  let lines := strings.Split content "010"%char in
  '(err, v) ← parseDeps_loop rootProj lines (mkVars ps h waitingRoot []);
  Ok (err, projects v, heap v).

End gradle.

(* ===================================================================== *)
(** * Package [mysql]: the importer of tables and foreign keys *)
(* ===================================================================== *)

Module mysql.
Import archer.

(** An [error] is modelled by its message; [errors.Wrap(err, msg)] is
    the error whose message is [msg], [": "], then the message of [err]. *)
Definition errors_Wrap (err msg : string) : string := msg +:+ ": " +:+ err.

(** What the database hands over. [db.Query] gives an error or a result
    set; [results.Next] steps through its rows, and [results.Scan] gives
    for each row its columns or an error. The rows after one whose
    [Scan] fails are never read. *)
Inductive scanned (R : Type) : Type :=
| Row (r : R)
| ScanError (err : string).
Arguments Row {R} r.
Arguments ScanError {R} err.

Inductive queried (R : Type) : Type :=
| Rows (rs : list (scanned R))
| QueryError (err : string).
Arguments Rows {R} rs.
Arguments QueryError {R} err.

(** The local struct [tableInfo] of [importTables]. *)
Record tableInfo : Type := mkTableInfo {
  schemaName : string;
  tableName : string;
  rows : Z;
  dataSize : Z;
  indexSize : Z
}.

(** The local struct [fkInfo] of [importFKs]; its first two fields are
    [schemaName] and [tableName] in the source. *)
Record fkInfo : Type := mkFkInfo {
  fk_schemaName : string;
  fk_tableName : string;
  referencedTableName : string
}.

(** [proj.AddSize(name, size)] through the pointer [proj]. *)
Definition AddSize_at (proj : ptr) (name : string) (s : Size) (h : Heap) : outcome Heap :=
  match projs h !! proj with
  | Some P => Ok {| projs := <[proj := AddSize P name s]> (projs h); deps := deps h |}
  | None => Panic "nil pointer dereference"
  end.

(** The [Size] literal [importTables] builds for a row. *)
Definition table_size (table : tableInfo) : Size :=
  {| Lines := rows table;
     Files := 0;
     Bytes := wrap (dataSize table + indexSize table);
     Other := Some {[ "data" := dataSize table; "indexes" := indexSize table ]} |}.

(** The body of the loop of [importTables] over the result set, after a
    successful [Scan]; the state is the registry, the objects and
    [changedProjs]. The line printed to the standard output is left out. *)
Definition importTables_row (table : tableInfo) (st : Projects * Heap * list ptr)
    : outcome (Projects * Heap * list ptr) :=
  let '(ps, h, changedProjs) := st in
  '(proj, ps, h) ← Get ps (schemaName table) (tableName table) h;
  let h := set_Type proj DatabaseType h in
  h ← AddSize_at proj "table" (table_size table) h;
  Ok (ps, h, changedProjs ++ [proj]).

(** The loop of [importTables] over the result set: the error it
    returns from within the loop ([None] when the loop ends) and the
    state it leaves. What follows the loop, [common.CreateTableNameParts]
    and the writes to the storage, is not among the sources. *)
Fixpoint importTables_rows (rs : list (scanned tableInfo)) (st : Projects * Heap * list ptr)
    : outcome (option string * (Projects * Heap * list ptr)) :=
  match rs with
  | [] => Ok (None, st)
  | ScanError err :: _ => Ok (Some (errors_Wrap err "error querying database tables"), st)
  | Row table :: rest =>
      st' ← importTables_row table st;
      importTables_rows rest st'
  end.

(** The body of the first loop of [importFKs], after a successful
    [Scan]; [toSave] is a map to [true] only, a set of (root, name). *)
Definition importFKs_row (fk : fkInfo) (st : Projects * Heap * gset (string * string))
    : outcome (Projects * Heap * gset (string * string)) :=
  let '(ps, h, toSave) := st in
  '(proj, ps, h) ← Get ps (fk_schemaName fk) (fk_tableName fk) h;
  '(dep, ps, h) ← Get ps (fk_schemaName fk) (referencedTableName fk) h;
  '(_, h) ← AddDependency proj dep h;
  Ok (ps, h, {[ (fk_schemaName fk, fk_tableName fk) ]} ∪ toSave).

Fixpoint importFKs_rows (rs : list (scanned fkInfo))
    (st : Projects * Heap * gset (string * string))
    : outcome (option string * (Projects * Heap * gset (string * string))) :=
  match rs with
  | [] => Ok (None, st)
  | ScanError err :: _ => Ok (Some (errors_Wrap err "error querying database FKs"), st)
  | Row fk :: rest =>
      st' ← importFKs_row fk st;
      importFKs_rows rest st'
  end.

Section storage.

(** Modelled from the spec: the storage collaborator, which is not
    among the sources ("a collaborator is responsible for serializing
    ... its dependency list to durable storage, one write operation per
    concern"). [WriteDepsFile] of the project at an address, the objects
    being as they are, returns an error or [None]; it does not change
    the objects. *)
Context (WriteDepsFile : ptr → Heap → option string).

(** The second loop of [importFKs], over the keys of [toSave] in the
    order [order]; [written] lists the projects handed to
    [WriteDepsFile] so far. *)
Fixpoint importFKs_save (order : list (string * string)) (ps : Projects) (h : Heap)
    (written : list ptr) : outcome (option string * Projects * Heap * list ptr) :=
  match order with
  | [] => Ok (None, ps, h, written)
  | k :: rest =>
      '(proj, ps, h) ← Get ps k.1 k.2 h;
      match WriteDepsFile proj h with
      | Some err => Ok (Some err, ps, h, written ++ [proj])
      | None => importFKs_save rest ps h (written ++ [proj])
      end
  end.

(** [importFKs]: the [error] ([None] is [nil]), the registry and the
    objects as the call leaves them, and the projects handed to the
    storage. Go leaves the order in which [range] visits [toSave] open:
    [order] gives the arrangement of the keys of a set. *)
Definition importFKs_in (order : gset (string * string) → list (string * string))
    (db : queried fkInfo) (ps : Projects) (h : Heap)
    : outcome (option string * Projects * Heap * list ptr) :=
  match db with
  | QueryError err => Ok (Some (errors_Wrap err "error querying database FKs"), ps, h, [])
  | Rows rs =>
      '(err, (ps, h, toSave)) ← importFKs_rows rs (ps, h, ∅);
      match err with
      | Some e => Ok (Some e, ps, h, [])
      | None => importFKs_save (order toSave) ps h []
      end
  end.

Definition importFKs (db : queried fkInfo) (ps : Projects) (h : Heap)
    : outcome (option string * Projects * Heap * list ptr) :=
  importFKs_in elements db ps h.

End storage.

End mysql.

(* ===================================================================== *)
(** * Notions the properties are stated with *)
(* ===================================================================== *)

Module spec.
Import archer.

(** A sequence of [Get(root, name)] calls on a registry. *)
Fixpoint populate (calls : list (string * string)) (ps : Projects) (h : Heap)
    : outcome (Projects * Heap) :=
  match calls with
  | [] => Ok (ps, h)
  | (root, name) :: rest =>
      '(_, ps', h') ← Get ps root name h;
      populate rest ps' h'
  end.

(** No inversion: no later element is [less] than an earlier one. *)
Fixpoint ordered {A} (less : A → A → bool) (l : list A) : bool :=
  match l with
  | [] => true
  | x :: r => forallb (λ y, negb (less y x)) r && ordered less r
  end.

(** The contract of a configuration store with state [S]: [get] reads
    it, [set] writes it, [cfg] is the underlying map. *)
Record config_store {S : Type} (cfg : S → gmap string string)
    (get : S → string → string) (set : S → string → string → bool * S) : Prop := {
  get_stored : ∀ s k v, cfg s !! k = Some v → get s k = v;
  get_absent : ∀ s k, cfg s !! k = None → get s k = "";
  set_same : ∀ s k v, get s k = v → set s k v = (false, s);
  set_empty : ∀ s k, get s k ≠ "" →
    (set s k "").1 = true ∧ cfg (set s k "").2 = delete k (cfg s);
  set_value : ∀ s k v, get s k ≠ v → v ≠ "" →
    (set s k v).1 = true ∧ cfg (set s k v).2 = <[k := v]> (cfg s);
  set_empty_get : ∀ s k, get (set s k "").2 k = "";
  set_empty_as_unset : ∀ s k k',
    get (set s k "").2 k' = default "" (delete k (cfg s) !! k')
}.

(** Prefix collapsing as the design document words it: while there are
    at least two parts and the second begins with the first, the first
    is dropped. [collapses parts out]: the loop started on [parts] ends
    with [out]. *)
Inductive collapses : list string → list string → Prop :=
| collapses_short parts :
    (length parts < 2)%nat → collapses parts parts
| collapses_stop p0 p1 rest :
    (¬ ∃ t, p1 = p0 +:+ t) → collapses (p0 :: p1 :: rest) (p0 :: p1 :: rest)
| collapses_drop p0 p1 rest out :
    (∃ t, p1 = p0 +:+ t) → collapses (p1 :: rest) out →
    collapses (p0 :: p1 :: rest) out.

(** The key [Get] files a project under. *)
Definition key (root name : string) : string := root +:+ strings.nl +:+ name.

(** What holds of a registry and the objects at every point of a run:
    the registry stores allocated addresses, and no address twice. *)
Definition registry_wf (ps : Projects) (h : Heap) : Prop :=
  (∀ k p, all ps !! k = Some p → (p < length (projs h))%nat)
  ∧ (∀ k1 k2 p, all ps !! k1 = Some p → all ps !! k2 = Some p → k1 = k2).

(** What holds of the objects at every point of a run: an edge stored by
    the project at [p] under [k] is allocated, has [p] as its source and
    a target named [k]. *)
Definition heap_wf (h : Heap) : Prop :=
  ∀ p P k e, projs h !! p = Some P → dependencies P !! k = Some e →
    ∃ D T, deps h !! e = Some D ∧ Source D = p
           ∧ projs h !! Target D = Some T ∧ Name T = k.

(** The string has no ["\n"] byte. *)
Definition no_newline (s : string) : Prop :=
  strings.contains_byte s "010"%char = false.

(** The merged counters: the keys of [theirs] are summed into [ours],
    an absent key counting as zero; the other keys of [ours] stay. *)
Definition merge_counts (ours theirs : gmap string Z) : gmap string Z :=
  merge (λ a b, match b with
                | Some v => Some (wrap (default 0%Z a + v))
                | None => a
                end) ours theirs.

(** A [Size] whose counters are values of Go's [int]. *)
Definition Size_ok (s : Size) : Prop :=
  is_int (Lines s) ∧ is_int (Files s) ∧ is_int (Bytes s)
  ∧ ∀ g k v, Other s = Some g → g !! k = Some v → is_int v.

(** The zero-valued [Size{}]. *)
Definition Size_zero : Size := {| Lines := 0; Files := 0; Bytes := 0; Other := None |}.

(** Every byte of the string is in the class. *)
Fixpoint all_bytes (cls : ascii → bool) (s : string) : bool :=
  match s with
  | EmptyString => true
  | String c s' => cls c && all_bytes cls s'
  end.

(** What a pattern means, apart from the order in which the matcher
    tries things. [matches r pos s s' c]: on the text [s], which starts
    at offset [pos], [r] can match a prefix leaving [s'], its groups
    capturing [c]. *)
Inductive matches : regexp.regex → nat → string → string → list string → Prop :=
| matches_Bot s : matches regexp.Bot 0 s s []
| matches_Eot pos : matches regexp.Eot pos "" "" []
| matches_Lit l pos s : matches (regexp.Lit l) pos (l +:+ s) s []
| matches_Plus cls pos a s :
    a ≠ "" → all_bytes cls a = true → matches (regexp.Plus cls) pos (a +:+ s) s []
| matches_Opt_some r pos s s' c :
    matches r pos s s' c → matches (regexp.Opt r) pos s s' c
| matches_Opt_none r pos s : matches (regexp.Opt r) pos s s []
| matches_Alt_l r1 r2 pos s s' c :
    matches r1 pos s s' c → matches (regexp.Alt r1 r2) pos s s' c
| matches_Alt_r r1 r2 pos s s' c :
    matches r2 pos s s' c → matches (regexp.Alt r1 r2) pos s s' c
| matches_Cat r1 r2 pos s s1 s2 c1 c2 :
    matches r1 pos s s1 c1 →
    matches r2 (pos + (String.length s - String.length s1)) s1 s2 c2 →
    matches (regexp.Cat r1 r2) pos s s2 (c1 ++ c2)
| matches_Cap r pos s s' c :
    matches r pos s s' c →
    matches (regexp.Cap r) pos s s'
      (c ++ [strings.take (String.length s - String.length s') s]).

(** The pattern can only match at the start of the text. *)
Fixpoint anchored (r : regexp.regex) : bool :=
  match r with
  | regexp.Bot => true
  | regexp.Cat r1 _ => anchored r1
  | regexp.Cap r1 => anchored r1
  | regexp.Alt r1 r2 => anchored r1 && anchored r2
  | _ => false
  end.

(** The two line forms of the [projects] report, as the design
    document words them. *)
Definition root_line (l name : string) : Prop :=
  l = "Root project '" +:+ name +:+ "'"
  ∧ name ≠ "" ∧ all_bytes gradle.not_quote name = true.

Definition proj_line (l name : string) : Prop :=
  ∃ pre, l = pre +:+ "Project '" +:+ name +:+ "'"
         ∧ pre ≠ "" ∧ all_bytes gradle.tree_char pre = true
         ∧ name ≠ "" ∧ all_bytes gradle.not_quote name = true.

(** [lists seen lines names]: the names listed for [lines], [seen]
    telling whether a root line came earlier. The first root line gives
    its name, every project line gives its name, in the order of the
    lines; every other line is skipped. *)
Inductive lists : bool → list string → list string → Prop :=
| lists_nil seen : lists seen [] []
| lists_root l name rest names :
    root_line l name → lists true rest names →
    lists false (l :: rest) (name :: names)
| lists_proj seen l name rest names :
    proj_line l name → lists seen rest names →
    lists seen (l :: rest) (name :: names)
| lists_skip seen l rest names :
    (seen = true ∨ ∀ name, ¬ root_line l name) → (∀ name, ¬ proj_line l name) →
    lists seen rest names → lists seen (l :: rest) names.

(** A dependency line, as the design document words it: a run of
    tree-drawing characters, then (after an optional [project ], whose
    first letter is itself an identifier character) an identifier
    character. *)
Definition dep_line (l : string) : Prop :=
  ∃ pre c rest, l = pre +:+ String c rest
                ∧ pre ≠ "" ∧ all_bytes gradle.tree_char pre = true
                ∧ gradle.id_char c = true.

(** [after_lines rootProj lines v v']: the loop of [parseDeps] goes
    through [lines] from [v] without leaving, and reaches [v']. *)
Inductive after_lines (rootProj : string) : list string → gradle.vars → gradle.vars → Prop :=
| after_nil v : after_lines rootProj [] v v
| after_cons l rest v v1 v2 :
    gradle.parseDeps_line rootProj l v = Ok (gradle.Continue v1) →
    after_lines rootProj rest v1 v2 →
    after_lines rootProj (l :: rest) v v2.

(** Popping "while the new depth is ≤ the depth of the stack's top
    entry"; the top entry is the head of the list. *)
Fixpoint pop_while (new_depth : nat) (stack : list gradle.pd) : list gradle.pd :=
  match stack with
  | x :: rest =>
      if decide (new_depth ≤ gradle.depth x)%nat then pop_while new_depth rest else stack
  | [] => []
  end.

(** What holds of the variables of [parseDeps] once the root line has
    been read: the registry and the objects are well-formed, the stack
    holds allocated projects and its bottom entry has depth 0. *)
Definition vars_wf (v : gradle.vars) : Prop :=
  registry_wf (gradle.projects v) (gradle.heap v)
  ∧ heap_wf (gradle.heap v)
  ∧ (∀ x, x ∈ gradle.stack v → (gradle.proj x < length (projs (gradle.heap v)))%nat)
  ∧ ∃ above root, gradle.stack v = above ++ [root] ∧ gradle.depth root = 0%nat.

(** The line is handled as a dependency line: the state is
    [parsingDeps], or it is [waitingDeps] and the line starts with a
    branch marker. *)
Definition parsing (v : gradle.vars) (l : string) : Prop :=
  gradle.state v = gradle.parsingDeps
  ∨ (gradle.state v = gradle.waitingDeps
     ∧ (strings.HasPrefix l "\---" || strings.HasPrefix l "+---") = true).

(** The edges the projects hold, as (source name, target name). *)
Definition edges_of (h : Heap) : list (string * string) :=
  flat_map (λ P : Project,
      omap (λ e, D ← deps h !! e;
                 S ← projs h !! Source D;
                 T ← projs h !! Target D;
                 Some (Name S, Name T))
           (map_to_list (dependencies P)).*2)
    (projs h).

(** The projects are not of all three types at once. *)
Definition no_type_mix (l : list Project) : Prop :=
  (∀ x, x ∈ l → Type_ x ≠ DatabaseType)
  ∨ (∀ x, x ∈ l → Type_ x ≠ CodeType)
  ∨ (∀ x, x ∈ l → Type_ x ≠ ExternalDependencyType).

(** The test of the loops of [ListProjects] and [ListDependencies]:
    whether a project passes the filter. *)
Definition passes (filter : FilterType) (P : Project) : bool :=
  negb (bool_decide (filter = FilterExcludeExternal) && IsExternalDependency P).

(** The three nodes on which the ordering rule goes round in a circle:
    a Code node ["b"], an ExternalDependency node ["a"] and a Database
    node ["a1"], as [Get] and the importers' [p.Type = ...] leave them. *)
Definition mixed_heap : Heap :=
  set_Type 2 DatabaseType
    (set_Type 0 CodeType
       {| projs := [NewProject "r" "b"; NewProject "r" "a"; NewProject "db" "a1"];
          deps := [] |}).

Definition mixed_registry : Projects :=
  {| all := {[ key "r" "b" := 0%nat; key "r" "a" := 1%nat; key "db" "a1" := 2%nat ]} |}.

(** What Go's library promises of [sort.Slice]: the result is an
    arrangement of the slice, and it has no inversion when [less] is a
    consistent ordering of the elements, which are those with [good]. *)
Class SortContract (S : Sorter) : Prop := {
  sort_perm : ∀ A (less : A → A → bool) (l : list A), sort_Slice less l ≡ₚ l;
  sort_ordered : ∀ A (less : A → A → bool) (good : A → Prop) (l : list A),
    (∀ a b, good a → good b → less a b = true → less b a = false) →
    (∀ a b c, good a → good b → good c →
       less a b = false → less b c = false → less a c = false) →
    Forall good l → ordered less (sort_Slice less l) = true
}.

(** [later_first less l]: read from its end, [l] has no inversion. *)
Definition later_first {A} (less : A → A → bool) (l : list A) : Prop :=
  StronglySorted (λ y z, less y z = false) l.

(** The variables a round of the loop of [parseDeps] leaves. *)
Definition vars_of (r : gradle.round) : gradle.vars :=
  match r with
  | gradle.Continue v | gradle.Break v | gradle.Return _ v => v
  end.

(** What holds of the variables of [parseDeps] before every line: until
    the root line is read the stack is empty, afterwards [vars_wf]. *)
Definition loop_inv (v : gradle.vars) : Prop :=
  (gradle.state v = gradle.waitingRoot ∧ gradle.stack v = []
   ∧ registry_wf (gradle.projects v) (gradle.heap v) ∧ heap_wf (gradle.heap v))
  ∨ (gradle.state v ≠ gradle.waitingRoot ∧ vars_wf v).

(** The sum of one counter over the size buckets of a project. *)
Definition total (f : Size → Z) (m : gmap string Size) : Z :=
  map_fold (λ _ v acc, (f v + acc)%Z) 0%Z m.

(** The [Other] counters of the buckets merged into one map. *)
Definition merged (m : gmap string Size) : gmap string Z :=
  map_fold (λ _ v acc, merge_counts acc (default ∅ (Other v))) ∅ m.

(** A sequence of [SetConfig(key, value)] calls on a project and on a
    dependency. *)
Definition Project_configure (p : Project) (calls : list (string * string)) : Project :=
  fold_left (λ q kv, (Project_SetConfig q kv.1 kv.2).2) calls p.

Definition Dependency_configure (d : Dependency) (calls : list (string * string))
    : Dependency :=
  fold_left (λ q kv, (Dependency_SetConfig q kv.1 kv.2).2) calls d.

(** The value the last call for [k] assigned, [old] when there is none. *)
Definition last_assigned (k : string) (calls : list (string * string)) (old : string)
    : string :=
  fold_left (λ acc kv, if decide (kv.1 = k) then kv.2 else acc) calls old.

(** No key of the configuration map holds the empty string. *)
Definition no_empty_value (c : gmap string string) : Prop := ∀ k, c !! k ≠ Some "".

(** The string has no [":"] byte. *)
Definition no_colon (s : string) : Prop :=
  strings.contains_byte s ":"%char = false.

(** Every node of the registry is filed under the key of its own [Root]
    and [Name]. *)
Definition registry_named (ps : Projects) (h : Heap) : Prop :=
  ∀ k p, all ps !! k = Some p →
    ∃ P, projs h !! p = Some P ∧ key (Root P) (Name P) = k.

(** A root declaration of the [dependencies] report: the line
    [Root project 'name'] or [Project 'name']. *)
Definition root_decl (l name : string) : Prop :=
  (l = "Root project '" +:+ name +:+ "'" ∨ l = "Project '" +:+ name +:+ "'")
  ∧ name ≠ "" ∧ all_bytes gradle.not_quote name = true.

(** The line starts with one of the two branch markers. *)
Definition marker (l : string) : bool :=
  strings.HasPrefix l "\---" || strings.HasPrefix l "+---".

(** The depths of the stack grow strictly towards its top entry, which
    is the head of the list. *)
Definition stack_sorted (stk : list gradle.pd) : Prop :=
  StronglySorted (λ a b, (gradle.depth b < gradle.depth a)%nat) stk.

(** What a run of [parseDeps] with root [rootProj] may do to a registry
    and its objects: keys keep their nodes, a project that was there
    changes in its dependency map at most, a project that was not is as
    [NewProject(rootProj, _)] made it but for its dependency map, and
    the edges that were there stay. *)
Definition grown (rootProj : string) (ps : Projects) (h : Heap)
    (ps' : Projects) (h' : Heap) : Prop :=
  (∀ k p, all ps !! k = Some p → all ps' !! k = Some p)
  ∧ (∀ p P, projs h !! p = Some P →
       ∃ P', projs h' !! p = Some P' ∧ set_dependencies P' (dependencies P) = P)
  ∧ (∀ p P', (length (projs h) ≤ p)%nat → projs h' !! p = Some P' →
       set_dependencies P' ∅ = NewProject rootProj (Name P'))
  ∧ (∀ e D, deps h !! e = Some D → deps h' !! e = Some D).

(** The state [parseDeps] is in after a line it reads in state [s]: it
    waits for the root declaration, then for the first line that
    starts with a branch marker, and parses from there on. *)
Definition next_state (l : string) (s : gradle.parseState) : gradle.parseState :=
  match s with
  | gradle.waitingRoot =>
      if regexp.FindStringSubmatch gradle.rootProjRE l is Some _
      then gradle.waitingDeps else gradle.waitingRoot
  | gradle.waitingDeps => if marker l then gradle.parsingDeps else gradle.waitingDeps
  | gradle.parsingDeps => gradle.parsingDeps
  end.

(** A name [Get] accepts and that a key is cut at: not empty and
    without newline. *)
Definition plain (s : string) : Prop := s ≠ "" ∧ no_newline s.

Definition fk_plain (fk : mysql.fkInfo) : Prop :=
  plain (mysql.fk_schemaName fk) ∧ plain (mysql.fk_tableName fk)
  ∧ plain (mysql.referencedTableName fk).

Definition table_plain (t : mysql.tableInfo) : Prop :=
  plain (mysql.schemaName t) ∧ plain (mysql.tableName t).

(** What holds of a registry and its objects at every point of an
    import. *)
Definition import_wf (ps : Projects) (h : Heap) : Prop :=
  registry_wf ps h ∧ heap_wf h ∧ registry_named ps h.

(** The foreign key is in the graph: the node of its table holds, under
    the name of the referenced table, an edge to the node of the
    referenced table, both nodes being those of the key's schema. *)
Definition fk_edge (fk : mysql.fkInfo) (ps : Projects) (h : Heap) : Prop :=
  ∃ p d P e D,
    all ps !! key (mysql.fk_schemaName fk) (mysql.fk_tableName fk) = Some p
    ∧ all ps !! key (mysql.fk_schemaName fk) (mysql.referencedTableName fk) = Some d
    ∧ projs h !! p = Some P
    ∧ dependencies P !! mysql.referencedTableName fk = Some e
    ∧ deps h !! e = Some D ∧ Source D = p ∧ Target D = d.

(** The table is in the graph as its row describes it: its node is of
    type Database and its ["table"] size is that of the row. *)
Definition table_node (t : mysql.tableInfo) (ps : Projects) (h : Heap) : Prop :=
  ∃ p P,
    all ps !! key (mysql.schemaName t) (mysql.tableName t) = Some p
    ∧ projs h !! p = Some P
    ∧ Root P = mysql.schemaName t ∧ Name P = mysql.tableName t
    ∧ Type_ P = DatabaseType
    ∧ GetSizeOf P "table" = mysql.table_size t.

(** What a dependency line pushes: its identifier and its depth, the
    length of its run of tree-drawing characters. *)
Definition line_entry (l : string) : option (string * nat) :=
  m ← regexp.FindStringSubmatch gradle.depRE l;
  Some (regexp.group m 2, strings.len (regexp.group m 1)).

(** Popping, as [pop_while] words it, on (identifier, depth) entries. *)
Fixpoint pop_entries (new_depth : nat) (stk : list (string * nat))
    : list (string * nat) :=
  match stk with
  | e :: rest => if decide (new_depth ≤ e.2)%nat then pop_entries new_depth rest else stk
  | [] => []
  end.

(** The stack the design document describes once the dependency lines
    with the entries [es] have been read under the root [root], its top
    entry first: the root is pushed with depth 0, and every line pops
    while its depth is at most the depth of the top entry, then pushes
    its own entry. *)
Definition chain (root : string) (es : list (string * nat)) : list (string * nat) :=
  fold_left (λ stk e, e :: pop_entries e.2 stk) es [(root, 0%nat)].

(** The stack entry [x] stands for the entry [e]: it points to the node
    the registry holds for the identifier under [rootProj], at the
    depth of [e]. *)
Definition entry_of (rootProj : string) (ps : Projects) (x : gradle.pd)
    (e : string * nat) : Prop :=
  all ps !! key rootProj e.1 = Some (gradle.proj x) ∧ gradle.depth x = e.2.

(** What holds of the variables of [parseDeps] once the lines [seen]
    have been read. While the root declaration is awaited no line read
    was one and the stack is empty. Afterwards the lines are those
    before the first root declaration [r], [r], the lines [b] skipped
    until the first line with a branch marker, and the dependency lines
    [c]; the stack is the one the design document describes for [c],
    each entry pointing to the node of its identifier. *)
Definition stack_inv (rootProj : string) (seen : list string) (v : gradle.vars) : Prop :=
  if decide (gradle.state v = gradle.waitingRoot)
  then gradle.stack v = [] ∧ ∀ l name, l ∈ seen → ¬ root_decl l name
  else ∃ a r name b c,
         seen = a ++ r :: b ++ c
         ∧ (∀ x n, x ∈ a → ¬ root_decl x n) ∧ root_decl r name
         ∧ (∀ x, x ∈ b → marker x = false)
         ∧ (gradle.state v = gradle.waitingDeps ↔ c = [])
         ∧ (∀ l c', c = l :: c' → marker l = true)
         ∧ Forall (λ l, is_Some (line_entry l)) c
         ∧ Forall2 (entry_of rootProj (gradle.projects v)) (gradle.stack v)
             (chain name (omap line_entry c)).

End spec.

(* ===================================================================== *)
(** * Strings *)
(* ===================================================================== *)

Section string_facts.

Lemma String_app_cons (a : ascii) (s t : string) : String a s +:+ t = String a (s +:+ t).
Proof. reflexivity. Qed.

Lemma String_app_nil_l (t : string) : "" +:+ t = t.
Proof. reflexivity. Qed.

Lemma HasPrefix_spec (s p : string) :
  strings.HasPrefix s p = true ↔ ∃ t, s = p +:+ t.
Proof.
  revert s. induction p as [|a p IH]; intros [|b s]; simpl.
  - split; [intros _; by exists "" | done].
  - split; [intros _; by exists (String b s) | done].
  - split; [done | intros [t Ht]; discriminate].
  - destruct (Ascii.eqb_spec a b) as [->|Hne].
    + rewrite IH. split; intros [t Ht]; exists t; rewrite ?String_app_cons in *; congruence.
    + split; [done | intros [t Ht]; rewrite String_app_cons in Ht; congruence].
Qed.

Lemma HasPrefix_app (p t : string) : strings.HasPrefix (p +:+ t) p = true.
Proof. apply HasPrefix_spec. by exists t. Qed.

Lemma String_length_app (a b : string) :
  String.length (a +:+ b) = (String.length a + String.length b)%nat.
Proof. induction a; rewrite ?String_app_nil_l, ?String_app_cons; simpl; congruence. Qed.

Lemma String_drop_app (a b : string) : strings.drop (String.length a) (a +:+ b) = b.
Proof. induction a; rewrite ?String_app_nil_l, ?String_app_cons; simpl; [by destruct b | done]. Qed.

Lemma String_take_app (a b : string) : strings.take (String.length a) (a +:+ b) = a.
Proof. induction a; rewrite ?String_app_nil_l, ?String_app_cons; simpl; [by destruct b | congruence]. Qed.

Lemma String_app_assoc (a b c : string) : (a +:+ b) +:+ c = a +:+ (b +:+ c).
Proof. induction a; rewrite ?String_app_nil_l, ?String_app_cons; congruence. Qed.

Lemma String_app_nil_r (a : string) : a +:+ "" = a.
Proof. induction a; rewrite ?String_app_nil_l, ?String_app_cons; congruence. Qed.

Lemma String_length_zero (s : string) : String.length s = 0%nat ↔ s = "".
Proof. destruct s; simpl; split; congruence. Qed.

End string_facts.

(* ===================================================================== *)
(** * Configuration stores (C9) *)
(* ===================================================================== *)

Section configuration.
Import archer spec.

Lemma Project_store : config_store config Project_GetConfig Project_SetConfig.
Proof.
  split; unfold Project_SetConfig, Project_GetConfig.
  - intros s k v ->. done.
  - intros s k ->. done.
  - intros s k v H. by case_decide.
  - intros s k H. repeat case_decide; done.
  - intros s k v H Hv. repeat case_decide; done.
  - intros s k. repeat case_decide; simpl; try done.
    by rewrite lookup_delete_eq.
  - intros s k k'. repeat case_decide; simpl; try done.
    destruct (decide (k = k')) as [<-|Hne].
    + by rewrite lookup_delete_eq.
    + by rewrite lookup_delete_ne.
Qed.

Lemma Dependency_store : config_store dconfig Dependency_GetConfig Dependency_SetConfig.
Proof.
  split; unfold Dependency_SetConfig, Dependency_GetConfig.
  - intros s k v ->. done.
  - intros s k ->. done.
  - intros s k v H. by case_decide.
  - intros s k H. repeat case_decide; done.
  - intros s k v H Hv. repeat case_decide; done.
  - intros s k. repeat case_decide; simpl; try done.
    by rewrite lookup_delete_eq.
  - intros s k k'. repeat case_decide; simpl; try done.
    destruct (decide (k = k')) as [<-|Hne].
    + by rewrite lookup_delete_eq.
    + by rewrite lookup_delete_ne.
Qed.

(** C9. Both configuration stores, that of [Project] and that of
    [Dependency], obey the same contract: [SetConfig(key, value)]
    returns false and changes nothing when [value] is what [GetConfig]
    returns; otherwise it returns true, deleting the key when [value] is
    empty and storing [value] when it is not; [GetConfig] returns the
    stored string, or the empty string for an absent key; after
    [SetConfig(k, "")] every [GetConfig] answers as on the store with
    [k] removed, and [GetConfig(k)] is empty. *)
Theorem config_stores_contract :
  config_store config Project_GetConfig Project_SetConfig
  ∧ config_store dconfig Dependency_GetConfig Dependency_SetConfig.
Proof. split; [apply Project_store | apply Dependency_store]. Qed.

End configuration.

(* ===================================================================== *)
(** * Name simplification (C5) *)
(* ===================================================================== *)

Section naming.
Import archer spec.

Lemma simplifyPrefixes_collapses (parts : list string) :
  collapses parts (simplifyPrefixes parts).
Proof.
  induction parts as [|p0 [|p1 rest] IH]; simpl.
  - apply collapses_short. simpl. lia.
  - apply collapses_short. simpl. lia.
  - destruct (strings.HasPrefix p1 p0) eqn:Hp.
    + apply collapses_drop; [by apply HasPrefix_spec | exact IH].
    + apply collapses_stop. rewrite <- HasPrefix_spec. congruence.
Qed.

Lemma collapses_functional (parts out1 out2 : list string) :
  collapses parts out1 → collapses parts out2 → out1 = out2.
Proof.
  induction 1 as [parts Hlen | p0 p1 rest Hno | p0 p1 rest out Hyes _ IH];
    inversion 1; subst; simpl in *; try done; try lia.
  by apply IH.
Qed.

Lemma LevelSimpleName_length (p : Project) (level : Z) :
  (strings.len (LevelSimpleName p level) ≤ strings.len (Name p))%nat.
Proof.
  unfold LevelSimpleName. cbv zeta. repeat case_decide; unfold strings.len in *. all: lia.
Qed.

(** C5. [SimpleName()] is [LevelSimpleName(level)] for every [level ≤ 0].
    It is [Name] when [NameParts] is empty. Otherwise the parts are
    collapsed (the first part is dropped while there are two parts and
    the second begins with the first), joined with [":"], and the joined
    string is returned when it is strictly shorter than [Name], [Name]
    otherwise. The result is never longer than [Name]. *)
Theorem SimpleName_collapses (p : Project) :
  (∀ level, (level ≤ 0)%Z → LevelSimpleName p level = SimpleName p)
  ∧ (NameParts p = [] → SimpleName p = Name p)
  ∧ (NameParts p ≠ [] →
      ∃ out, collapses (NameParts p) out
        ∧ SimpleName p =
            if decide (strings.len (strings.Join out ":") < strings.len (Name p))%nat
            then strings.Join out ":" else Name p)
  ∧ (strings.len (SimpleName p) ≤ strings.len (Name p))%nat.
Proof.
  split; [|split; [|split]].
  - intros level Hl. unfold SimpleName, LevelSimpleName.
    case_decide; [done|]. cbv zeta.
    destruct (decide (level > 0)%Z); [lia|]. destruct (decide (0 > 0)%Z); [lia|]. done.
  - intros Hnil. unfold SimpleName, LevelSimpleName. rewrite Hnil. done.
  - intros Hne. exists (simplifyPrefixes (NameParts p)).
    split; [apply simplifyPrefixes_collapses|].
    unfold SimpleName, LevelSimpleName.
    destruct (NameParts p) as [|x r] eqn:E; [done|].
    rewrite decide_False by (simpl; lia). simpl.
    repeat case_decide; try done; lia.
  - apply LevelSimpleName_length.
Qed.

Example SimpleName_faire :
  SimpleName (mkProject "r" "faire:faire-sub:faire-sub-x" ["faire"; "faire-sub"; "faire-sub-x"]
                CodeType "" "" "" ∅ ∅ ∅ "") = "faire-sub-x".
Proof. reflexivity. Qed.

Example SimpleName_no_shared_prefix :
  simplifyPrefixes ["a"; "b"] = ["a"; "b"] ∧ strings.Join ["a"; "b"] ":" = "a:b".
Proof. split; reflexivity. Qed.

End naming.

(* ===================================================================== *)
(** * The registry (C1, C10) *)
(* ===================================================================== *)

Section registry.
Import archer spec.

Lemma registry_wf_new (h : Heap) : registry_wf NewProjects h.
Proof. split; intros *; simpl; by rewrite lookup_empty. Qed.

Lemma Get_found ps root name h p :
  root ≠ "" → name ≠ "" → all ps !! key root name = Some p →
  Get ps root name h = Ok (p, ps, h).
Proof.
  intros Hr Hn Hk. unfold Get, strings.len.
  rewrite !decide_False by by rewrite String_length_zero.
  fold (key root name). by rewrite Hk.
Qed.

Lemma Get_fresh ps root name h :
  root ≠ "" → name ≠ "" → all ps !! key root name = None →
  Get ps root name h =
    Ok (length (projs h),
        {| all := <[key root name := length (projs h)]> (all ps) |},
        {| projs := projs h ++ [NewProject root name]; deps := deps h |}).
Proof.
  intros Hr Hn Hk. unfold Get, strings.len.
  rewrite !decide_False by by rewrite String_length_zero.
  fold (key root name). by rewrite Hk.
Qed.

Lemma Get_Ok_inv ps root name h p ps' h' :
  Get ps root name h = Ok (p, ps', h') → root ≠ "" ∧ name ≠ "".
Proof.
  unfold Get, strings.len. repeat case_decide; try done.
  intros _. split; by rewrite <- String_length_zero.
Qed.

(** [Get] keeps what the registry holds and only adds objects. *)
Lemma Get_grows ps root name h p ps' h' :
  registry_wf ps h → Get ps root name h = Ok (p, ps', h') →
  registry_wf ps' h'
  ∧ all ps' !! key root name = Some p
  ∧ (∀ k q, all ps !! k = Some q → all ps' !! k = Some q)
  ∧ (length (projs h) ≤ length (projs h'))%nat.
Proof.
  intros [Hv Hi] HG. destruct (Get_Ok_inv _ _ _ _ _ _ _ HG) as [Hr Hn].
  destruct (all ps !! key root name) as [q|] eqn:Hk.
  - rewrite (Get_found _ _ _ _ q) in HG by done. simplify_eq.
    repeat split; eauto.
  - rewrite Get_fresh in HG by done. simplify_eq. unfold registry_wf. simpl.
    split; [split|split; [|split]].
    + intros k p. rewrite lookup_insert. case_decide; intros ?; simplify_eq.
      * rewrite length_app. simpl. lia.
      * rewrite length_app. simpl. specialize (Hv _ _ H0). lia.
    + intros k1 k2 p. rewrite !lookup_insert.
      repeat case_decide; intros ??; simplify_eq; try done.
      * specialize (Hv _ _ H2). lia.
      * specialize (Hv _ _ H1). lia.
      * eauto.
    + by rewrite lookup_insert_eq.
    + intros k q Hq. rewrite lookup_insert_ne; [done|]. congruence.
    + rewrite length_app. lia.
Qed.

Lemma populate_grows calls ps h ps' h' :
  registry_wf ps h → populate calls ps h = Ok (ps', h') →
  registry_wf ps' h'
  ∧ (∀ k q, all ps !! k = Some q → all ps' !! k = Some q).
Proof.
  revert ps h. induction calls as [|[r n] calls IH]; intros ps h Hwf; simpl.
  - intros ?; simplify_eq. auto.
  - destruct (Get ps r n h) as [[[p ps1] h1]|] eqn:HG; simpl; [|done].
    intros Hp. destruct (Get_grows _ _ _ _ _ _ _ Hwf HG) as (Hwf1 & _ & Hm & _).
    destruct (IH _ _ Hwf1 Hp) as [Hwf' Hm']. auto.
Qed.

Lemma key_inj (root name1 name2 : string) :
  key root name1 = key root name2 → name1 = name2.
Proof.
  unfold key. intros H. apply (inj (String.app root)) in H.
  by apply (inj (String.app strings.nl)) in H.
Qed.

(** C1. On a well-formed registry, [Get(root, name)] with non-empty
    arguments returns a node and leaves the registry well-formed; the
    node is new when the key was absent and the stored one when it was
    present; calling it again, at once or after any further [Get]
    calls, returns the same node and changes nothing; and a different
    non-empty name under the same root yields a different node. *)
Theorem Get_idempotent (ps : Projects) (h : Heap) (root name : string) :
  registry_wf ps h → root ≠ "" → name ≠ "" →
  ∃ p ps1 h1,
    Get ps root name h = Ok (p, ps1, h1)
    ∧ registry_wf ps1 h1
    ∧ (all ps !! key root name = None →
         p = length (projs h) ∧ projs h1 = projs h ++ [NewProject root name])
    ∧ (∀ q, all ps !! key root name = Some q → p = q ∧ ps1 = ps ∧ h1 = h)
    ∧ Get ps1 root name h1 = Ok (p, ps1, h1)
    ∧ (∀ calls ps2 h2, populate calls ps1 h1 = Ok (ps2, h2) →
         Get ps2 root name h2 = Ok (p, ps2, h2)
         ∧ ∀ name', name' ≠ "" → name' ≠ name →
             ∃ q ps3 h3, Get ps2 root name' h2 = Ok (q, ps3, h3) ∧ q ≠ p).
Proof.
  intros Hwf Hr Hn.
  assert (∃ p ps1 h1, Get ps root name h = Ok (p, ps1, h1)) as (p & ps1 & h1 & HG).
  { destruct (all ps !! key root name) eqn:Hk.
    - eexists _, _, _. by apply Get_found.
    - eexists _, _, _. by apply Get_fresh. }
  exists p, ps1, h1.
  destruct (Get_grows _ _ _ _ _ _ _ Hwf HG) as (Hwf1 & Hk1 & Hm & Hlen).
  split; [done|]. split; [done|]. split; [|split; [|split]].
  - intros Hk. rewrite Get_fresh in HG by done. by simplify_eq.
  - intros q Hk. rewrite (Get_found _ _ _ _ q) in HG by done. by simplify_eq.
  - by apply Get_found.
  - intros calls ps2 h2 Hp.
    destruct (populate_grows _ _ _ _ _ Hwf1 Hp) as [Hwf2 Hm2].
    split; [apply Get_found; auto|].
    intros name' Hn' Hne.
    assert (∃ q ps3 h3, Get ps2 root name' h2 = Ok (q, ps3, h3)) as (q & ps3 & h3 & HG').
    { destruct (all ps2 !! key root name') eqn:Hk.
      - eexists _, _, _. by apply Get_found.
      - eexists _, _, _. by apply Get_fresh. }
    exists q, ps3, h3. split; [done|]. intros ->.
    destruct (Get_grows _ _ _ _ _ _ _ Hwf2 HG') as ([_ Hinj] & Hk' & Hm3 & _).
    apply Hne. symmetry. apply (key_inj root).
    eapply Hinj; [|exact Hk']. apply Hm3, Hm2, Hk1.
Qed.

Lemma Get_idempotent_witness :
  ∃ p ps1 h1,
    Get NewProjects "r" "app" empty_heap = Ok (p, ps1, h1)
    ∧ Get ps1 "r" "app" h1 = Ok (p, ps1, h1).
Proof.
  destruct (Get_idempotent NewProjects empty_heap "r" "app")
    as (p & ps1 & h1 & H1 & _ & _ & _ & H2 & _).
  - apply registry_wf_new.
  - discriminate.
  - discriminate.
  - by exists p, ps1, h1.
Defined.

End registry.

Section registry_lookup.
Import archer spec.

Lemma populate_keys calls ps h ps' h' :
  populate calls ps h = Ok (ps', h') →
  ∀ s, is_Some (all ps' !! s)
       ↔ is_Some (all ps !! s) ∨ ∃ root name, (root, name) ∈ calls ∧ s = key root name.
Proof.
  revert ps h. induction calls as [|[r n] calls IH]; intros ps h; simpl.
  - intros ? s; simplify_eq. split; [auto|]. intros [?|(?&?&Hin&_)]; [done|].
    by apply elem_of_nil in Hin.
  - destruct (Get ps r n h) as [[[p ps1] h1]|] eqn:HG; simpl; [|done].
    intros Hp s. rewrite (IH _ _ Hp s).
    destruct (Get_Ok_inv _ _ _ _ _ _ _ HG) as [Hr Hn].
    assert (is_Some (all ps1 !! s) ↔ is_Some (all ps !! s) ∨ s = key r n) as ->.
    { destruct (all ps !! key r n) as [q|] eqn:Hk.
      - rewrite (Get_found _ _ _ _ q) in HG by done. simplify_eq.
        split; [auto|]. intros [?| ->]; [done|]. by rewrite Hk.
      - rewrite Get_fresh in HG by done. simplify_eq. simpl.
        rewrite lookup_insert. case_decide; simplify_eq.
        + split; [auto|]. intros _. by eexists.
        + split; [auto|]. intros [?|?]; [done|congruence]. }
    split.
    + intros [[?| ->]|(r' & n' & Hin & ->)]; [auto| |].
      * right. exists r, n. split; [left|done].
      * right. exists r', n'. split; [by right|done].
    + intros [?|(r' & n' & Hin & ->)]; [auto|].
      apply elem_of_cons in Hin as [?|?]; simplify_eq; [auto|].
      right. by exists r', n'.
Qed.

Lemma contains_byte_app (a b : string) (c : ascii) :
  strings.contains_byte (a +:+ b) c
  = strings.contains_byte a c || strings.contains_byte b c.
Proof.
  induction a as [|x a IH]; rewrite ?String_app_nil_l, ?String_app_cons; simpl; [done|].
  destruct (Ascii.eqb x c); [done|apply IH].
Qed.

Lemma key_has_newline (root name : string) : ¬ no_newline (key root name).
Proof.
  unfold no_newline, key. rewrite !contains_byte_app. simpl.
  rewrite orb_true_r. done.
Qed.

(** C10 (as amended). On a registry filled by [Get] calls only,
    [GetOrNil(s)] panics when [s] is empty; otherwise it returns a node
    exactly when [s] is [root + "\n" + name] for one of the calls, and
    [nil] when it is not; it creates nothing, having the registry's map
    as its only input and no registry in its result. So [nil] is
    returned for every [s] without a ["\n"] byte, among them the bare
    name and the [root:name] full name of a project whose root and name
    have no ["\n"] byte. *)
Theorem GetOrNil_by_key (calls : list (string * string)) (ps : Projects) (h : Heap) :
  populate calls NewProjects empty_heap = Ok (ps, h) →
  GetOrNil ps "" = Panic "empty name not supported"
  ∧ (∀ s, s ≠ "" →
      GetOrNil ps s = Ok (all ps !! s)
      ∧ (is_Some (all ps !! s)
         ↔ ∃ root name, (root, name) ∈ calls ∧ s = root +:+ strings.nl +:+ name)
      ∧ (no_newline s → GetOrNil ps s = Ok None))
  ∧ (∀ P, no_newline (Root P) → no_newline (Name P) → Name P ≠ "" →
      GetOrNil ps (Name P) = Ok None ∧ GetOrNil ps (FullName P) = Ok None).
Proof.
  intros Hp. pose proof (populate_keys _ _ _ _ _ Hp) as Hkeys.
  assert (∀ s, s ≠ "" → GetOrNil ps s = Ok (all ps !! s)) as Hget.
  { intros s Hs. unfold GetOrNil, strings.len.
    rewrite decide_False by by rewrite String_length_zero. done. }
  assert (∀ s, s ≠ "" → no_newline s → GetOrNil ps s = Ok None) as Hnone.
  { intros s Hs Hnl. rewrite Hget by done. f_equal.
    apply eq_None_not_Some. rewrite Hkeys. simpl. rewrite lookup_empty.
    intros [[? ?]|(r & n & _ & ->)]; [done|]. by apply key_has_newline in Hnl. }
  split; [done|]. split.
  - intros s Hs. split; [by apply Hget|]. split; [|by apply Hnone].
    rewrite Hkeys. simpl. rewrite lookup_empty. split.
    + intros [[? ?]|?]; done.
    + auto.
  - intros P HR HN Hne. split; [by apply Hnone|].
    apply Hnone.
    + unfold FullName. destruct (Root P); discriminate.
    + unfold no_newline, FullName in *. rewrite !contains_byte_app, HR, HN. done.
Qed.

Lemma GetOrNil_by_key_witness :
  ∃ ps h, populate [("r", ":app"); ("r", ":core")] NewProjects empty_heap = Ok (ps, h)
          ∧ GetOrNil ps ":app" = Ok None
          ∧ GetOrNil ps "r::app" = Ok None
          ∧ is_Some (all ps !! ("r" +:+ strings.nl +:+ ":app")).
Proof.
  destruct (populate [("r", ":app"); ("r", ":core")] NewProjects empty_heap)
    as [[ps h]|] eqn:Hp; [|discriminate].
  exists ps, h. split; [done|].
  destruct (GetOrNil_by_key _ ps h Hp) as (_ & Hs & _).
  destruct (Hs ":app") as (_ & _ & H1); [discriminate|].
  destruct (Hs "r::app") as (_ & _ & H2); [discriminate|].
  destruct (Hs ("r" +:+ strings.nl +:+ ":app")) as (_ & H3 & _); [discriminate|].
  split; [by apply H1|]. split; [by apply H2|].
  apply H3. exists "r", ":app". split; [left|done].
Defined.

(** C10 as stated fails when a name or a root has a ["\n"] byte: the
    bare name of the project [("x", "a\nb")] is the key of the project
    [("a", "b")], and the full name of [("a\nb", "c")] is the key of
    [("a", "b:c")]; [GetOrNil] returns that other project. *)
Lemma GetOrNil_bare_name_found :
  let bare := "a" +:+ strings.nl +:+ "b" in
  (∃ ps h P,
     populate [("a", "b"); ("x", bare)] NewProjects empty_heap = Ok (ps, h)
     ∧ projs h !! 1%nat = Some P ∧ Name P = bare
     ∧ GetOrNil ps (Name P) = Ok (Some 0%nat))
  ∧ (∃ ps h P,
     populate [("a", "b:c"); (bare, "c")] NewProjects empty_heap = Ok (ps, h)
     ∧ projs h !! 1%nat = Some P ∧ Root P = bare ∧ Name P = "c"
     ∧ GetOrNil ps (FullName P) = Ok (Some 0%nat)).
Proof.
  split.
  - eexists _, _, _. split; [vm_compute; reflexivity|].
    split; [reflexivity|]. split; [reflexivity|]. vm_compute. reflexivity.
  - eexists _, _, _. split; [vm_compute; reflexivity|].
    split; [reflexivity|]. split; [reflexivity|]. split; [reflexivity|].
    vm_compute. reflexivity.
Qed.

End registry_lookup.

(* ===================================================================== *)
(** * Dependency edges (C6) *)
(* ===================================================================== *)

Section edges.
Import archer spec.

Lemma heap_wf_empty : heap_wf empty_heap.
Proof. intros p P k e Hp. simpl in Hp. by rewrite lookup_nil in Hp. Qed.

Lemma Get_heap_wf ps root name h p ps' h' :
  heap_wf h → Get ps root name h = Ok (p, ps', h') → heap_wf h'.
Proof.
  intros Hwf HG. destruct (Get_Ok_inv _ _ _ _ _ _ _ HG) as [Hr Hn].
  destruct (all ps !! key root name) as [q|] eqn:Hk.
  - rewrite (Get_found _ _ _ _ q) in HG by done. by simplify_eq.
  - rewrite Get_fresh in HG by done. simplify_eq.
    intros p P k e Hp Hd. simpl in *.
    apply lookup_app_Some in Hp as [Hp|[_ Hp]].
    + destruct (Hwf _ _ _ _ Hp Hd) as (D & T & HD & HS & HT & HN).
      exists D, T. repeat split; try done. by apply lookup_app_l_Some.
    + apply list_lookup_singleton_Some in Hp as [_ <-]. simpl in Hd.
      by rewrite lookup_empty in Hd.
Qed.

Lemma populate_heap_wf calls ps h ps' h' :
  heap_wf h → populate calls ps h = Ok (ps', h') → heap_wf h'.
Proof.
  revert ps h. induction calls as [|[r n] calls IH]; intros ps h Hwf; simpl.
  - intros ?; by simplify_eq.
  - destruct (Get ps r n h) as [[[p ps1] h1]|] eqn:HG; simpl; [|done].
    intros Hp. eapply IH; [|exact Hp]. eapply Get_heap_wf; eauto.
Qed.

Lemma AddDependency_Ok p d h P D :
  projs h !! p = Some P → projs h !! d = Some D →
  AddDependency p d h =
    Ok (length (deps h),
        {| projs := <[p := set_dependencies P (<[Name D := length (deps h)]> (dependencies P))]>
                      (projs h);
           deps := deps h ++ [ {| Source := p; Target := d; dconfig := ∅ |} ] |}).
Proof. intros HP HD. unfold AddDependency. by rewrite HP, HD. Qed.

Lemma AddDependency_heap_wf p d h e h' :
  heap_wf h → AddDependency p d h = Ok (e, h') → heap_wf h'.
Proof.
  intros Hwf HA. unfold AddDependency in HA.
  destruct (projs h !! p) as [P|] eqn:HP; [|done].
  destruct (projs h !! d) as [D|] eqn:HD; [|done]. simplify_eq.
  set (P' := set_dependencies P _).
  assert (∀ q T, projs h !! q = Some T →
            ∃ T', <[p := P']> (projs h) !! q = Some T' ∧ Name T' = Name T) as Hname.
  { intros q T HT. destruct (decide (p = q)) as [<-|Hne].
    - exists P'. split; [|by simplify_eq].
      apply list_lookup_insert_eq. by eapply lookup_lt_Some.
    - exists T. by rewrite list_lookup_insert_ne. }
  assert (∀ q Q k e0, projs h !! q = Some Q → dependencies Q !! k = Some e0 →
            ∃ D0 T0, (deps h ++ [ {| Source := p; Target := d; dconfig := ∅ |} ]) !! e0 = Some D0
              ∧ Source D0 = q ∧ <[p := P']> (projs h) !! Target D0 = Some T0
              ∧ Name T0 = k) as Hold.
  { intros q Q k e0 HQ He0.
    destruct (Hwf _ _ _ _ HQ He0) as (D0 & T0 & HD0 & HS & HT & HN).
    destruct (Hname _ _ HT) as (T' & HT' & HN').
    exists D0, T'. repeat split; [by apply lookup_app_l_Some|done|done|congruence]. }
  intros q Q k e0 HQ He0. simpl in *.
  destruct (decide (p = q)) as [<-|Hne].
  - rewrite list_lookup_insert_eq in HQ by by eapply lookup_lt_Some.
    simplify_eq. simpl in He0.
    rewrite lookup_insert in He0. case_decide; simplify_eq.
    + destruct (Hname _ _ HD) as (T' & HT' & HN').
      eexists _, T'. split.
      { rewrite lookup_app_r by done. by rewrite Nat.sub_diag. }
      done.
    + by eapply Hold.
  - rewrite list_lookup_insert_ne in HQ by done. by eapply Hold.
Qed.

(** C6. [AddDependency] stores a fresh edge object with an empty
    configuration under the target's bare name and leaves the other keys
    of the source alone: the edge stored before under that name, if any,
    is no longer in the map (it is neither kept in addition nor has its
    configuration carried over), so the number of edges grows by one for
    a new name and not at all for a repeated one; and the source never
    holds two edges to the same target. *)
Theorem AddDependency_replaces (h : Heap) (p d : ptr) (P D : Project) :
  heap_wf h → projs h !! p = Some P → projs h !! d = Some D →
  ∃ e h1 P1 E,
    AddDependency p d h = Ok (e, h1)
    ∧ heap_wf h1
    ∧ projs h1 !! p = Some P1
    ∧ dependencies P1 = <[Name D := e]> (dependencies P)
    ∧ deps h1 !! e = Some E
    ∧ Source E = p ∧ Target E = d ∧ dconfig E = ∅
    ∧ (∀ k, Dependency_GetConfig E k = "")
    ∧ deps h !! e = None
    ∧ (∀ e0, deps h1 !! e0 = deps h !! e0 ∨ e0 = e)
    ∧ base.size (dependencies P1)
      = (if dependencies P !! Name D is Some _ then base.size (dependencies P)
         else S (base.size (dependencies P)))
    ∧ (∀ k1 k2 e1 e2 E1 E2,
         dependencies P1 !! k1 = Some e1 → dependencies P1 !! k2 = Some e2 →
         deps h1 !! e1 = Some E1 → deps h1 !! e2 = Some E2 →
         Target E1 = Target E2 → k1 = k2 ∧ e1 = e2).
Proof.
  intros Hwf HP HD.
  pose proof (AddDependency_Ok _ _ _ _ _ HP HD) as HA.
  pose proof (AddDependency_heap_wf _ _ _ _ _ Hwf HA) as Hwf1.
  eexists _, _, _, _. split; [exact HA|]. split; [exact Hwf1|]. simpl.
  assert (<[p := set_dependencies P (<[Name D := length (deps h)]> (dependencies P))]>
            (projs h) !! p
          = Some (set_dependencies P (<[Name D := length (deps h)]> (dependencies P)))) as HP1.
  { apply list_lookup_insert_eq. by eapply lookup_lt_Some. }
  split; [exact HP1|]. split; [done|].
  split; [rewrite lookup_app_r by done; by rewrite Nat.sub_diag|].
  repeat (split; [done|]).
  split; [by apply lookup_ge_None_2|].
  split.
  { intros e0. destruct (decide (e0 = length (deps h))); [by right|left].
    destruct (decide (e0 < length (deps h))%nat).
    - by rewrite lookup_app_l.
    - rewrite !lookup_ge_None_2; [done|lia|rewrite length_app; simpl; lia]. }
  split.
  { simpl. destruct (dependencies P !! Name D) as [e0|] eqn:Hk.
    - rewrite <- (insert_delete_id (dependencies P) (Name D) e0) at 2 by done.
      rewrite <- insert_delete_eq.
      rewrite !map_size_insert_None by apply lookup_delete_eq. done.
    - by apply map_size_insert_None. }
  intros k1 k2 e1 e2 E1 E2 H1 H2 HE1 HE2 HT.
  destruct (Hwf1 _ _ _ _ HP1 H1) as (D1 & T1 & HD1 & _ & HT1 & HN1).
  destruct (Hwf1 _ _ _ _ HP1 H2) as (D2 & T2 & HD2 & _ & HT2 & HN2).
  simpl in *. simplify_eq. rewrite HT in HT1. simplify_eq.
  split; [done|]. congruence.
Qed.

Lemma AddDependency_replaces_witness :
  let h := {| projs := [NewProject "r" "a"; NewProject "r" "b"]; deps := [] |} in
  ∃ e h1 P1,
    AddDependency 0 1 h = Ok (e, h1)
    ∧ projs h1 !! 0%nat = Some P1
    ∧ dependencies P1 = {[ "b" := e ]}.
Proof.
  intros h.
  destruct (AddDependency_replaces h 0 1 (NewProject "r" "a") (NewProject "r" "b"))
    as (e & h1 & P1 & E & HA & _ & HP1 & Hdeps & _).
  - intros [|[|p]] P k e HP Hd; simpl in HP; simplify_eq; simpl in Hd;
      by rewrite lookup_empty in Hd.
  - reflexivity.
  - reflexivity.
  - exists e, h1, P1. split; [exact HA|]. split; [exact HP1|]. exact Hdeps.
Defined.

End edges.

(* ===================================================================== *)
(** * Size merging (C7) *)
(* ===================================================================== *)

Section sizes.
Import archer spec.
Local Open Scope Z_scope.

Lemma wrap_add_l (a b : Z) : wrap (wrap a + b) = wrap (a + b).
Proof.
  unfold wrap. f_equal.
  replace ((a + 2 ^ 63) mod 2 ^ 64 - 2 ^ 63 + b + 2 ^ 63)
    with ((a + 2 ^ 63) mod 2 ^ 64 + b) by lia.
  rewrite Zplus_mod_idemp_l. f_equal. lia.
Qed.

Lemma wrap_add_r (a b : Z) : wrap (a + wrap b) = wrap (a + b).
Proof. rewrite (Z.add_comm a), wrap_add_l. f_equal. lia. Qed.

Lemma wrap_id (a : Z) : is_int a → wrap a = a.
Proof. unfold wrap, is_int. intros H. rewrite Z.mod_small; lia. Qed.

Lemma wrap_is_int (a : Z) : is_int (wrap a).
Proof.
  unfold wrap, is_int.
  pose proof (Z.mod_pos_bound (a + 2 ^ 63) (2 ^ 64)). lia.
Qed.

Lemma lookup_merge_counts (g m : gmap string Z) (k : string) :
  merge_counts g m !! k
  = match m !! k with
    | Some v => Some (wrap (default 0 (g !! k) + v))
    | None => g !! k
    end.
Proof.
  unfold merge_counts. rewrite lookup_merge.
  destruct (g !! k), (m !! k); done.
Qed.

(** The rounds of the loop commute, so the order in which the keys are
    visited does not show in the result. *)
Lemma Add_entry_comm k1 v1 k2 v2 acc :
  k1 ≠ k2 →
  Add_entry k1 v1 (Add_entry k2 v2 acc) = Add_entry k2 v2 (Add_entry k1 v1 acc).
Proof.
  intros Hne. destruct acc as [[g|]|msg]; simpl; try done.
  f_equal. f_equal. rewrite !lookup_insert_ne by done.
  by apply insert_insert_ne.
Qed.

Lemma fold_Add_entry (g m : gmap string Z) :
  map_fold Add_entry (Ok (Some g)) m = Ok (Some (merge_counts g m)).
Proof.
  revert m. apply (map_fold_weak_ind (λ r m, r = Ok (Some (merge_counts g m)))).
  - f_equal. f_equal. apply map_eq. intros k.
    by rewrite lookup_merge_counts, lookup_empty.
  - intros k v m' r Hk ->. simpl. f_equal. f_equal. apply map_eq. intros j.
    rewrite lookup_insert, !lookup_merge_counts, lookup_insert.
    case_decide; subst; [by rewrite Hk|done].
Qed.

Lemma fold_Add_entry_nil (m : gmap string Z) :
  map_fold Add_entry (Ok None) m
  = if decide (m = ∅) then Ok None else Panic "assignment to entry in nil map".
Proof.
  revert m.
  apply (map_fold_weak_ind (λ r m, r = if decide (m = ∅) then Ok None
                                       else Panic "assignment to entry in nil map")).
  - done.
  - intros k v m' r Hk ->.
    rewrite (decide_False (P := <[k:=v]> m' = ∅)) by apply insert_non_empty.
    case_decide; done.
Qed.

Lemma Size_Add_Some (a b : Size) (g : gmap string Z) :
  Other a = Some g →
  Size_Add a b =
    Ok {| Lines := wrap (Lines a + Lines b);
          Files := wrap (Files a + Files b);
          Bytes := wrap (Bytes a + Bytes b);
          Other := Some (merge_counts g (default ∅ (Other b))) |}.
Proof. intros Hg. unfold Size_Add. by rewrite Hg, fold_Add_entry. Qed.

Lemma merge_counts_comm (g m : gmap string Z) :
  (∀ k v, g !! k = Some v → is_int v) → (∀ k v, m !! k = Some v → is_int v) →
  merge_counts g m = merge_counts m g.
Proof.
  intros Hg Hm. apply map_eq. intros k. rewrite !lookup_merge_counts.
  destruct (g !! k) as [x|] eqn:Hx, (m !! k) as [y|] eqn:Hy; simpl; try done.
  - f_equal. f_equal. lia.
  - f_equal. rewrite wrap_id; [done|]. replace (0 + x) with x by lia. eauto.
  - f_equal. rewrite wrap_id; [done|]. replace (0 + y) with y by lia. eauto.
Qed.

Lemma merge_counts_assoc (g m n : gmap string Z) :
  merge_counts (merge_counts g m) n = merge_counts g (merge_counts m n).
Proof.
  apply map_eq. intros k. rewrite !lookup_merge_counts.
  destruct (g !! k) as [x|], (m !! k) as [y|], (n !! k) as [z|]; simpl; try done;
    f_equal; rewrite ?wrap_add_l, ?wrap_add_r; f_equal; lia.
Qed.

(** C7 (as amended). On a receiver whose [Other] map is not [nil],
    [Add] sums the three counters field by field (as Go's [int] does)
    and sums each key of the argument's [Other] into the receiver's,
    inserting the keys the receiver lacks. As a binary operation on
    sizes with non-[nil] maps it is commutative and associative. Merging
    the zero-valued [Size{}], or one with an empty map, into any
    receiver changes nothing. *)
Theorem Size_Add_merge (a b c : Size) (ga gb gc : gmap string Z) :
  Size_ok a → Size_ok b → Size_ok c →
  Other a = Some ga → Other b = Some gb → Other c = Some gc →
  Size_Add a b =
    Ok {| Lines := wrap (Lines a + Lines b);
          Files := wrap (Files a + Files b);
          Bytes := wrap (Bytes a + Bytes b);
          Other := Some (merge_counts ga gb) |}
  ∧ (∀ k, merge_counts ga gb !! k
          = match gb !! k with
            | Some v => Some (wrap (default 0 (ga !! k) + v))
            | None => ga !! k
            end)
  ∧ Size_Add a b = Size_Add b a
  ∧ (Size_Add a b ≫= λ ab, Size_Add ab c) = (Size_Add b c ≫= λ bc, Size_Add a bc)
  ∧ (∀ x, Size_ok x →
       Size_Add x Size_zero = Ok x
       ∧ Size_Add x {| Lines := 0; Files := 0; Bytes := 0; Other := Some ∅ |} = Ok x).
Proof.
  intros (Ha1 & Ha2 & Ha3 & Ha) (Hb1 & Hb2 & Hb3 & Hb) (Hc1 & Hc2 & Hc3 & Hc) Hga Hgb Hgc.
  split; [|split; [|split; [|split]]].
  - rewrite (Size_Add_Some a b ga) by done. by rewrite Hgb.
  - intros k. apply lookup_merge_counts.
  - rewrite (Size_Add_Some a b ga), (Size_Add_Some b a gb) by done.
    rewrite Hga, Hgb. simpl. rewrite (merge_counts_comm ga gb) by eauto.
    f_equal. f_equal; f_equal; lia.
  - rewrite (Size_Add_Some a b ga), (Size_Add_Some b c gb) by done.
    rewrite Hgb, Hgc. simpl.
    rewrite (Size_Add_Some _ c (merge_counts ga gb)) by done.
    rewrite (Size_Add_Some a _ ga) by done. simpl.
    rewrite Hgc, merge_counts_assoc, !wrap_add_l, !wrap_add_r.
    f_equal. f_equal; f_equal; lia.
  - intros [l f y o] (Hx1 & Hx2 & Hx3 & _). simpl in *.
    assert (∀ z, is_int z → wrap (z + 0) = z) as Hz.
    { intros z Hi. replace (z + 0) with z by lia. by apply wrap_id. }
    split.
    + unfold Size_Add. simpl. rewrite map_fold_empty. simpl.
      by rewrite !Hz.
    + unfold Size_Add. simpl. rewrite map_fold_empty. simpl.
      by rewrite !Hz.
Qed.

Lemma Size_Add_merge_witness :
  let a := {| Lines := 1; Files := 2; Bytes := 3; Other := Some {[ "data" := 4 ]} |} in
  let b := {| Lines := 10; Files := 20; Bytes := 30;
              Other := Some {[ "data" := 40; "indexes" := 50 ]} |} in
  Size_Add a b = Size_Add b a.
Proof.
  intros a b.
  assert (Size_ok a) as Ha.
  { split; [|split; [|split]]; try (unfold is_int; simpl; lia).
    intros g' k' v' Hg'; simpl in Hg'; injection Hg' as <-.
    rewrite ?lookup_insert, ?lookup_singleton; repeat case_decide;
      intros ?; simplify_eq; unfold is_int; lia. }
  assert (Size_ok b) as Hb.
  { split; [|split; [|split]]; try (unfold is_int; simpl; lia).
    intros g' k' v' Hg'; simpl in Hg'; injection Hg' as <-.
    rewrite ?lookup_insert, ?lookup_singleton; repeat case_decide;
      intros ?; simplify_eq; unfold is_int; lia. }
  exact (proj1 (proj2 (proj2
    (Size_Add_merge a b a _ _ _ Ha Hb Ha eq_refl eq_refl eq_refl)))).
Defined.

(** C7 as stated fails on the zero-valued [Size{}], whose [Other] map
    is [nil]: merging it into [x] leaves [x], merging [x] into it
    panics when [x] has a key in [Other]. *)
Lemma Size_Add_nil_receiver :
  let x := {| Lines := 0; Files := 0; Bytes := 0; Other := Some {[ "data" := 1 ]} |} in
  Size_Add x Size_zero = Ok x
  ∧ Size_Add Size_zero x = Panic "assignment to entry in nil map".
Proof.
  intros x. split.
  - unfold Size_Add. simpl. by rewrite map_fold_empty.
  - unfold Size_Add. simpl. rewrite fold_Add_entry_nil.
    rewrite decide_False by apply insert_non_empty. done.
Qed.

End sizes.

(* ===================================================================== *)
(** * The matcher against the meaning of the patterns *)
(* ===================================================================== *)

Section matcher.
Import regexp spec.

Lemma take_drop (n : nat) (s : string) : strings.take n s +:+ strings.drop n s = s.
Proof.
  revert s. induction n as [|n IH]; intros [|c s]; simpl; try done.
  rewrite String_app_cons. by rewrite IH.
Qed.

Lemma length_take (n : nat) (s : string) :
  (n ≤ String.length s)%nat → String.length (strings.take n s) = n.
Proof.
  revert s. induction n as [|n IH]; intros [|c s]; simpl; try lia.
  intros H. rewrite IH; lia.
Qed.

Lemma length_drop (n : nat) (s : string) :
  String.length (strings.drop n s) = (String.length s - n)%nat.
Proof. revert s. induction n as [|n IH]; intros [|c s]; simpl; try done. Qed.

Lemma run_len_le (cls : ascii → bool) (s : string) :
  (run_len cls s ≤ String.length s)%nat.
Proof. induction s as [|c s IH]; simpl; [lia|]. destruct (cls c); lia. Qed.

Lemma all_bytes_take_run (cls : ascii → bool) (n : nat) (s : string) :
  (n ≤ run_len cls s)%nat → all_bytes cls (strings.take n s) = true.
Proof.
  revert s. induction n as [|n IH]; intros [|c s]; simpl; try done.
  destruct (cls c); simpl; [|lia]. intros H. apply IH. lia.
Qed.

Lemma run_len_app (cls : ascii → bool) (a s : string) :
  all_bytes cls a = true → (String.length a ≤ run_len cls (a +:+ s))%nat.
Proof.
  induction a as [|c a IH]; rewrite ?String_app_nil_l, ?String_app_cons; simpl; [lia|].
  destruct (cls c); simpl; [|done]. intros H. specialize (IH H). lia.
Qed.

Lemma first_down_Some {A} (n : nat) (f : nat → option A) (x : A) :
  first_down n f = Some x → ∃ i, (1 ≤ i ≤ n)%nat ∧ f i = Some x.
Proof.
  induction n as [|n IH]; simpl; [done|].
  destruct (f (S n)) as [y|] eqn:Hf.
  - intros ?; simplify_eq. exists (S n). split; [lia|done].
  - intros H. destruct (IH H) as (i & Hi & Hfi). exists i. split; [lia|done].
Qed.

Lemma first_down_is_Some {A} (n i : nat) (f : nat → option A) :
  (1 ≤ i ≤ n)%nat → is_Some (f i) → is_Some (first_down n f).
Proof.
  induction n as [|n IH]; simpl; [lia|]. intros Hi Hf.
  destruct (f (S n)) as [y|] eqn:Hfn; [by eexists|].
  apply IH; [|done]. destruct (decide (i = S n)) as [->|]; [|lia].
  rewrite Hfn in Hf. by destruct Hf.
Qed.

Lemma matches_length r pos s s' c :
  matches r pos s s' c → (String.length s' ≤ String.length s)%nat.
Proof.
  induction 1; rewrite ?String_length_app; lia.
Qed.

Local Ltac same_k Hk :=
  etrans; [|exact Hk]; f_equal; [lia | by rewrite ?app_nil_r, ?app_assoc].

(** Soundness: a result of the matcher comes from a match in the sense
    of [matches], continued by [k]. *)
Lemma run_sound r pos s cs k res :
  run r pos s cs k = Some res →
  ∃ s' c, matches r pos s s' c
          ∧ k (pos + (String.length s - String.length s')) s' (cs ++ c) = Some res.
Proof.
  revert pos s cs k res.
  induction r as [| |l|cls|r IH|r1 IH1 r2 IH2|r1 IH1 r2 IH2|r IH];
    intros pos s cs k res; simpl.
  - case_decide; [|done]. subst. intros Hk. exists s, [].
    split; [constructor|]. same_k Hk.
  - destruct s; [|done]. intros Hk. exists "", [].
    split; [constructor|]. same_k Hk.
  - destruct (strings.HasPrefix s l) eqn:Hp; [|done].
    apply HasPrefix_spec in Hp as [t ->]. rewrite String_drop_app.
    intros Hk. exists t, []. split; [constructor|].
    rewrite String_length_app. same_k Hk.
  - intros H. apply first_down_Some in H as (i & Hi & Hk).
    pose proof (run_len_le cls s).
    exists (strings.drop i s), []. split.
    + rewrite <- (take_drop i s) at 1. constructor.
      * intros Hnil. apply (f_equal String.length) in Hnil.
        rewrite length_take in Hnil by lia. simpl in Hnil. lia.
      * apply all_bytes_take_run. lia.
    + rewrite length_drop. same_k Hk.
  - destruct (run r pos s cs k) as [m|] eqn:Hr.
    + intros ?; simplify_eq. destruct (IH _ _ _ _ _ Hr) as (s' & c & HM & Hk).
      exists s', c. split; [by constructor|done].
    + intros Hk. exists s, []. split; [apply matches_Opt_none|]. same_k Hk.
  - destruct (run r1 pos s cs k) as [m|] eqn:Hr.
    + intros ?; simplify_eq. destruct (IH1 _ _ _ _ _ Hr) as (s' & c & HM & Hk).
      exists s', c. split; [by apply matches_Alt_l|done].
    + intros Hr2. destruct (IH2 _ _ _ _ _ Hr2) as (s' & c & HM & Hk).
      exists s', c. split; [by apply matches_Alt_r|done].
  - intros H. destruct (IH1 _ _ _ _ _ H) as (s1 & c1 & HM1 & H2).
    destruct (IH2 _ _ _ _ _ H2) as (s2 & c2 & HM2 & Hk).
    exists s2, (c1 ++ c2). split; [by econstructor|].
    pose proof (matches_length _ _ _ _ _ HM1).
    pose proof (matches_length _ _ _ _ _ HM2). same_k Hk.
  - intros H. destruct (IH _ _ _ _ _ H) as (s' & c & HM & Hk).
    exists s', (c ++ [strings.take (String.length s - String.length s') s]).
    split; [by constructor|]. etrans; [|exact Hk]. f_equal.
    rewrite app_assoc. do 3 f_equal. lia.
Qed.

(** Completeness: where a match in the sense of [matches] can be
    continued by [k], the matcher returns a result. *)
Lemma run_complete r pos s s' c cs k :
  matches r pos s s' c →
  is_Some (k (pos + (String.length s - String.length s')) s' (cs ++ c)) →
  is_Some (run r pos s cs k).
Proof.
  intros HM. revert cs k.
  induction HM as [s|pos|l pos s|cls pos a s Ha Hall|r pos s s' c HM IH|r pos s
                  |r1 r2 pos s s' c HM IH|r1 r2 pos s s' c HM IH
                  |r1 r2 pos s s1 s2 c1 c2 HM1 IH1 HM2 IH2|r pos s s' c HM IH];
    intros cs k Hk; simpl.
  - rewrite Nat.sub_diag, app_nil_r in Hk. done.
  - rewrite Nat.add_0_r, app_nil_r in Hk. done.
  - rewrite HasPrefix_app, String_drop_app.
    rewrite String_length_app, app_nil_r in Hk.
    by replace (String.length l + String.length s - String.length s)%nat
      with (String.length l) in Hk by lia.
  - apply (first_down_is_Some _ (String.length a)).
    + split; [|by apply run_len_app]. destruct a; [done|simpl; lia].
    + rewrite String_drop_app.
      rewrite String_length_app, app_nil_r in Hk.
      by replace (String.length a + String.length s - String.length s)%nat
        with (String.length a) in Hk by lia.
  - destruct (run r pos s cs k) eqn:Hr; [by eexists|].
    specialize (IH cs k Hk). rewrite Hr in IH. by destruct IH.
  - destruct (run r pos s cs k) eqn:Hr; [by eexists|].
    by rewrite Nat.sub_diag, Nat.add_0_r, app_nil_r in Hk.
  - destruct (run r1 pos s cs k) eqn:Hr; [by eexists|].
    specialize (IH cs k Hk). rewrite Hr in IH. by destruct IH.
  - destruct (run r1 pos s cs k) eqn:Hr; [by eexists|]. by apply IH.
  - apply IH1. apply IH2.
    pose proof (matches_length _ _ _ _ _ HM1).
    pose proof (matches_length _ _ _ _ _ HM2).
    rewrite <- app_assoc.
    by replace (pos + (String.length s - String.length s1)
                + (String.length s1 - String.length s2))%nat
      with (pos + (String.length s - String.length s2))%nat by lia.
  - apply IH. rewrite <- app_assoc.
    by replace (pos + (String.length s - String.length s') - pos)%nat
      with (String.length s - String.length s')%nat by lia.
Qed.

Lemma run_anchored r pos s cs k :
  anchored r = true → pos ≠ 0%nat → run r pos s cs k = None.
Proof.
  revert pos s cs k.
  induction r as [| |l|cls|r IH|r1 IH1 r2 IH2|r1 IH1 r2 IH2|r IH];
    intros pos s cs k Ha Hpos; simpl in *; try done.
  - by rewrite decide_False.
  - apply andb_true_iff in Ha as [Ha1 Ha2]. rewrite IH1 by done. by apply IH2.
  - by apply IH1.
  - by apply IH.
Qed.

Lemma search_anchored r pos s :
  anchored r = true → pos ≠ 0%nat → search r pos s = None.
Proof.
  intros Ha. revert pos. induction s as [|c s IH]; intros pos Hpos; simpl.
  - unfold match_at. by rewrite run_anchored.
  - unfold match_at. rewrite run_anchored by done. by apply IH.
Qed.

Lemma FindStringSubmatch_anchored r s :
  anchored r = true → FindStringSubmatch r s = match_at r 0 s.
Proof.
  intros Ha. unfold FindStringSubmatch.
  destruct s as [|c s]; simpl; destruct (match_at r 0 _); try done.
  by apply search_anchored.
Qed.

(** What [FindStringSubmatch] returns for an anchored pattern is the
    text and the groups of a match; and it returns a result whenever
    there is a match. *)
Lemma FindStringSubmatch_sound r s m :
  anchored r = true → FindStringSubmatch r s = Some m →
  ∃ s' c, matches r 0 s s' c
          ∧ m = strings.take (String.length s - String.length s') s :: c.
Proof.
  intros Ha. rewrite FindStringSubmatch_anchored by done. unfold match_at.
  intros H. apply run_sound in H as (s' & c & HM & Hk). simpl in Hk.
  exists s', c. split; [done|]. simplify_eq. do 2 f_equal. lia.
Qed.

Lemma FindStringSubmatch_complete r s s' c :
  anchored r = true → matches r 0 s s' c → is_Some (FindStringSubmatch r s).
Proof.
  intros Ha HM. rewrite FindStringSubmatch_anchored by done. unfold match_at.
  eapply run_complete; [exact HM|]. by eexists.
Qed.

End matcher.

(* ===================================================================== *)
(** * The project-list parser (C8) *)
(* ===================================================================== *)

Section project_list.
Import regexp archer gradle spec.

Lemma take_all (s : string) : strings.take (String.length s - 0) s = s.
Proof.
  rewrite Nat.sub_0_r. induction s as [|c s IH]; simpl; [done|]. by rewrite IH.
Qed.

Lemma take_app_sub (a s : string) :
  strings.take (String.length (a +:+ s) - String.length s) (a +:+ s) = a.
Proof.
  rewrite String_length_app.
  replace (String.length a + String.length s - String.length s)%nat
    with (String.length a) by lia.
  apply String_take_app.
Qed.

(** Two splits of a text into a run of a class and a rest that does not
    start in the class are the same split. *)
Lemma run_split_unique (cls : ascii → bool) (a1 a2 r1 r2 : string) :
  all_bytes cls a1 = true → all_bytes cls a2 = true →
  (∀ c t, r1 = String c t → cls c = false) →
  (∀ c t, r2 = String c t → cls c = false) →
  a1 +:+ r1 = a2 +:+ r2 → a1 = a2 ∧ r1 = r2.
Proof.
  revert a2. induction a1 as [|x a1 IH]; intros [|y a2] H1 H2 Hr1 Hr2;
    rewrite ?String_app_nil_l, ?String_app_cons; simpl in *.
  - done.
  - intros ->. apply andb_true_iff in H2 as [Hy _].
    rewrite (Hr1 y (a2 +:+ r2)) in Hy; done.
  - intros <-. apply andb_true_iff in H1 as [Hx _].
    rewrite (Hr2 x (a1 +:+ r1)) in Hx; done.
  - intros ?; simplify_eq.
    apply andb_true_iff in H1 as [_ H1]. apply andb_true_iff in H2 as [_ H2].
    destruct (IH a2) as [-> ->]; done.
Qed.

Local Ltac inv_matches :=
  repeat match goal with
    | H : matches (Cat _ _) _ _ _ _ |- _ => inversion H; subst; clear H
    | H : matches (Cap _) _ _ _ _ |- _ => inversion H; subst; clear H
    | H : matches (Lit _) _ _ _ _ |- _ => inversion H; subst; clear H
    | H : matches (Plus _) _ _ _ _ |- _ => inversion H; subst; clear H
    | H : matches Eot _ _ _ _ |- _ => inversion H; subst; clear H
    | H : matches Bot _ _ _ _ |- _ => inversion H; subst; clear H
    end.

Lemma root_line_unique l n1 n2 : root_line l n1 → root_line l n2 → n1 = n2.
Proof.
  intros (-> & _ & H1) (Heq & _ & H2).
  apply (inj (String.app _)) in Heq.
  by destruct (run_split_unique not_quote n1 n2 "'" "'" H1 H2) as [-> _];
    [intros c t ?; by simplify_eq..|done|].
Qed.

Lemma rootRE_sound l m :
  FindStringSubmatch rootRE l = Some m → ∃ name, root_line l name ∧ m = [l; name].
Proof.
  intros H. apply FindStringSubmatch_sound in H as (s' & c & HM & ->); [|done].
  unfold rootRE in HM. inv_matches.
  rewrite take_app_sub. change (String.length "") with 0%nat. rewrite take_all.
  exists a. split; [|done]. done.
Qed.

Lemma rootRE_complete l name :
  root_line l name → FindStringSubmatch rootRE l = Some [l; name].
Proof.
  intros Hl. assert (is_Some (FindStringSubmatch rootRE l)) as [m Hm].
  { destruct Hl as (-> & Hne & Hall).
    eapply (FindStringSubmatch_complete _ _ ""); [done|]. unfold rootRE.
    eapply matches_Cat; [|apply matches_Eot].
    eapply matches_Cat; [|apply (matches_Lit "'" _ "")].
    eapply matches_Cat; [|apply matches_Cap, (matches_Plus _ _ name "'"); done].
    eapply matches_Cat; [apply matches_Bot|]. apply matches_Lit. }
  rewrite Hm. destruct (rootRE_sound _ _ Hm) as (name' & Hl' & ->).
  by rewrite (root_line_unique _ _ _ Hl Hl').
Qed.

Lemma rootRE_None l : FindStringSubmatch rootRE l = None ↔ ∀ name, ¬ root_line l name.
Proof.
  split.
  - intros HN name Hl. by rewrite (rootRE_complete _ _ Hl) in HN.
  - intros Hno. destruct (FindStringSubmatch rootRE l) as [m|] eqn:Hm; [|done].
    destruct (rootRE_sound _ _ Hm) as (name & Hl & _). by destruct (Hno name).
Qed.

Lemma proj_line_unique l n1 n2 : proj_line l n1 → proj_line l n2 → n1 = n2.
Proof.
  intros (p1 & -> & _ & Hp1 & _ & H1) (p2 & Heq & _ & Hp2 & _ & H2).
  assert (∀ n c t, "Project '" +:+ n +:+ "'" = String c t → tree_char c = false) as HP.
  { intros n c t H. rewrite String_app_cons in H. by simplify_eq. }
  destruct (run_split_unique tree_char p1 p2 _ _ Hp1 Hp2 (HP n1) (HP n2) Heq) as [-> Hr].
  apply (inj (String.app _)) in Hr.
  by destruct (run_split_unique not_quote n1 n2 "'" "'" H1 H2) as [-> _];
    [intros c t ?; by simplify_eq..|done|].
Qed.

Lemma root_not_proj l n1 n2 : root_line l n1 → proj_line l n2 → False.
Proof.
  intros (-> & _ & _) ([|c pre] & Heq & Hne & Hpre & _); [done|].
  rewrite !String_app_cons in Heq. simpl in Hpre.
  apply andb_true_iff in Hpre as [Hc _]. by simplify_eq.
Qed.

Lemma projRE_sound l m :
  FindStringSubmatch projRE l = Some m → ∃ name, proj_line l name ∧ m = [l; name].
Proof.
  intros H. apply FindStringSubmatch_sound in H as (s' & c & HM & ->); [|done].
  unfold projRE in HM. inv_matches.
  rewrite take_app_sub. change (String.length "") with 0%nat. rewrite take_all.
  match goal with
  | |- ∃ _, proj_line (?p +:+ _ +:+ ?n +:+ _) _ ∧ _ => exists n; split; [exists p|]; done
  end.
Qed.

Lemma projRE_complete l name :
  proj_line l name → FindStringSubmatch projRE l = Some [l; name].
Proof.
  intros Hl. assert (is_Some (FindStringSubmatch projRE l)) as [m Hm].
  { destruct Hl as (pre & -> & Hpre & Hp & Hne & Hall).
    eapply (FindStringSubmatch_complete _ _ ""); [done|]. unfold projRE.
    eapply matches_Cat; [|apply matches_Eot].
    eapply matches_Cat; [|apply (matches_Lit "'" _ "")].
    eapply matches_Cat; [|apply matches_Cap, (matches_Plus _ _ name "'"); done].
    eapply matches_Cat; [|apply matches_Lit].
    eapply matches_Cat; [apply matches_Bot|]. by apply matches_Plus. }
  rewrite Hm. destruct (projRE_sound _ _ Hm) as (name' & Hl' & ->).
  by rewrite (proj_line_unique _ _ _ Hl Hl').
Qed.

Lemma projRE_None l : FindStringSubmatch projRE l = None ↔ ∀ name, ¬ proj_line l name.
Proof.
  split.
  - intros HN name Hl. by rewrite (projRE_complete _ _ Hl) in HN.
  - intros Hno. destruct (FindStringSubmatch projRE l) as [m|] eqn:Hm; [|done].
    destruct (projRE_sound _ _ Hm) as (name & Hl & _). by destruct (Hno name).
Qed.

Lemma parseProjects_line_seen acc l :
  parseProjects_line (acc, true) l
  = match FindStringSubmatch projRE l with
    | Some m => (acc ++ [group m 1], true)
    | None => (acc, true)
    end.
Proof. reflexivity. Qed.

Lemma parseProjects_line_root acc l m :
  FindStringSubmatch rootRE l = Some m →
  parseProjects_line (acc, false) l
  = match FindStringSubmatch projRE l with
    | Some m' => ((acc ++ [group m 1]) ++ [group m' 1], true)
    | None => (acc ++ [group m 1], true)
    end.
Proof. intros H. unfold parseProjects_line. simpl. by rewrite H. Qed.

Lemma parseProjects_line_other acc l :
  FindStringSubmatch rootRE l = None →
  parseProjects_line (acc, false) l
  = match FindStringSubmatch projRE l with
    | Some m => (acc ++ [group m 1], false)
    | None => (acc, false)
    end.
Proof. intros H. unfold parseProjects_line. simpl. by rewrite H. Qed.

Lemma parseProjects_fold (lines : list string) (acc : list string) (seen : bool) :
  ∃ names seen',
    fold_left parseProjects_line lines (acc, seen) = (acc ++ names, seen')
    ∧ lists seen lines names.
Proof.
  revert acc seen. induction lines as [|l lines IH]; intros acc seen; cbn [fold_left].
  - exists [], seen. rewrite app_nil_r. split; [done|constructor].
  - destruct seen.
    + rewrite parseProjects_line_seen.
      destruct (FindStringSubmatch projRE l) as [m|] eqn:Hp.
      * destruct (projRE_sound _ _ Hp) as (name & Hl & ->).
        change (group [l; name] 1) with name.
        destruct (IH (acc ++ [name]) true) as (names & seen' & -> & HL).
        exists (name :: names), seen'. rewrite <- app_assoc.
        split; [done|by apply lists_proj].
      * destruct (IH acc true) as (names & seen' & -> & HL).
        exists names, seen'. split; [done|].
        apply lists_skip; [by left|by apply projRE_None|done].
    + destruct (FindStringSubmatch rootRE l) as [m|] eqn:Hr.
      * rewrite (parseProjects_line_root _ _ _ Hr).
        destruct (rootRE_sound _ _ Hr) as (name & Hl & ->).
        assert (FindStringSubmatch projRE l = None) as ->.
        { apply projRE_None. intros n Hn. exact (root_not_proj _ _ _ Hl Hn). }
        change (group [l; name] 1) with name.
        destruct (IH (acc ++ [name]) true) as (names & seen' & -> & HL).
        exists (name :: names), seen'. rewrite <- app_assoc.
        split; [done|by apply lists_root].
      * rewrite (parseProjects_line_other _ _ Hr).
        destruct (FindStringSubmatch projRE l) as [m|] eqn:Hp.
        -- destruct (projRE_sound _ _ Hp) as (name & Hl & ->).
           change (group [l; name] 1) with name.
           destruct (IH (acc ++ [name]) false) as (names & seen' & -> & HL).
           exists (name :: names), seen'. rewrite <- app_assoc.
           split; [done|by apply lists_proj].
        -- destruct (IH acc false) as (names & seen' & -> & HL).
           exists names, seen'. split; [done|].
           apply lists_skip; [right; by apply rootRE_None|by apply projRE_None|done].
Qed.

Local Ltac lists_contra :=
  repeat match goal with
    | H : _ ∨ _ |- _ => destruct H
    | H : false = true |- _ => discriminate H
    | H1 : root_line ?l _, H2 : proj_line ?l _ |- _ =>
        destruct (root_not_proj _ _ _ H1 H2)
    | H1 : root_line ?l _, H2 : ∀ name, ¬ root_line ?l name |- _ =>
        destruct (H2 _ H1)
    | H1 : proj_line ?l _, H2 : ∀ name, ¬ proj_line ?l name |- _ =>
        destruct (H2 _ H1)
    end.

Lemma lists_functional seen lines n1 n2 :
  lists seen lines n1 → lists seen lines n2 → n1 = n2.
Proof.
  intros H1. revert n2.
  induction H1 as [seen|l name rest names Hl _ IH|seen l name rest names Hl _ IH
                  |seen l rest names Hr Hp _ IH]; intros n2 H2;
    inversion H2; subst; try done; try (by lists_contra).
  - f_equal; [by eapply root_line_unique|by apply IH].
  - f_equal; [by eapply proj_line_unique|by apply IH].
  - by apply IH.
Qed.

Lemma lists_root_first pre l name post names :
  lists false (pre ++ l :: post) names → root_line l name →
  (∀ x, x ∈ pre → ∀ n, ¬ proj_line x n) → (∀ x, x ∈ pre → ∀ n, ¬ root_line x n) →
  head names = Some name.
Proof.
  intros HL Hl Hp Hr. induction pre as [|x pre IH]; simpl in HL.
  - inversion HL; subst; try (by lists_contra).
    simpl. f_equal. by eapply root_line_unique.
  - pose proof (Hp x (list_elem_of_here _ _)) as Hpx.
    pose proof (Hr x (list_elem_of_here _ _)) as Hrx.
    inversion HL; subst; try (by lists_contra).
    apply IH; [done| |]; intros y Hy; [apply Hp|apply Hr]; by right.
Qed.

(** C8 (as amended). [parseProjects] never fails. The names it returns
    are, in the order of the lines, the name of the first line of the
    form [Root project '<name>'] and the name of every line made of a
    run of [-+\| ] followed by [Project '<name>']; all other lines are
    skipped, so the result can be empty. The root name comes first when
    no project line precedes the first root line. On
    ["Root project 'app'\n+--- Project 'core'\n"] the result is
    [["app", "core"]]. *)
Theorem parseProjects_lists :
  (∀ content, ∃ names,
      parseProjects content = (names, None)
      ∧ lists false (strings.Split content "010"%char) names
      ∧ (∀ names', lists false (strings.Split content "010"%char) names' → names' = names)
      ∧ (∀ pre l name post,
           strings.Split content "010"%char = pre ++ l :: post → root_line l name →
           (∀ x, x ∈ pre → ∀ n, ¬ proj_line x n) →
           (∀ x, x ∈ pre → ∀ n, ¬ root_line x n) →
           head names = Some name))
  ∧ parseProjects ("Root project 'app'" +:+ strings.nl +:+ "+--- Project 'core'" +:+ strings.nl)
    = (["app"; "core"], None)
  ∧ parseProjects "" = ([], None)
  ∧ parseProjects ("BUILD SUCCESSFUL" +:+ strings.nl) = ([], None).
Proof.
  split; [|by vm_compute].
  intros content. unfold parseProjects.
  destruct (parseProjects_fold (strings.Split content "010"%char) [] false)
    as (names & seen' & Hf & HL).
  exists names. rewrite Hf. simpl. split; [done|]. split; [done|]. split.
  - intros names' HL'. by eapply lists_functional.
  - intros pre l name post Hs Hl Hp Hr. rewrite Hs in HL.
    by eapply lists_root_first.
Qed.

(** C8 as stated fails: the root module is listed where its line
    stands, after the project lines that precede it. *)
Lemma parseProjects_root_not_first :
  parseProjects ("+--- Project 'core'" +:+ strings.nl +:+ "Root project 'app'" +:+ strings.nl)
  = (["core"; "app"], None).
Proof. by vm_compute. Qed.

End project_list.

(* ===================================================================== *)
(** * The dependency-tree parser (C2, C3) *)
(* ===================================================================== *)

Section dependency_lines.
Import regexp archer gradle spec.

Local Ltac inv_matches :=
  repeat match goal with
    | H : matches (Cat _ _) _ _ _ _ |- _ => inversion H; subst; clear H
    | H : matches (Cap _) _ _ _ _ |- _ => inversion H; subst; clear H
    | H : matches (Opt _) _ _ _ _ |- _ => inversion H; subst; clear H
    | H : matches (Lit _) _ _ _ _ |- _ => inversion H; subst; clear H
    | H : matches (Plus _) _ _ _ _ |- _ => inversion H; subst; clear H
    | H : matches Eot _ _ _ _ |- _ => inversion H; subst; clear H
    | H : matches Bot _ _ _ _ |- _ => inversion H; subst; clear H
    end.

(** The groups of a match of [depRE]: a non-empty run of tree-drawing
    characters and a non-empty run of identifier characters. *)
Lemma depRE_sound l m :
  FindStringSubmatch depRE l = Some m →
  ∃ whole pre id,
    m = [whole; pre; id]
    ∧ pre ≠ "" ∧ all_bytes tree_char pre = true
    ∧ id ≠ "" ∧ all_bytes id_char id = true
    ∧ dep_line l.
Proof.
  intros H. apply FindStringSubmatch_sound in H as (s' & c & HM & ->); [|done].
  unfold depRE in HM. inv_matches; rewrite !take_app_sub; cbn [app];
    match goal with
    | Ht : all_bytes tree_char ?p = true, Hi : all_bytes id_char ?i = true |- _ =>
        eexists _, p, i; split; [reflexivity|]; repeat (split; [done|])
    end.
  - match goal with
    | |- dep_line (?p +:+ "project " +:+ ?r) => by exists p, "p"%char, ("roject " +:+ r)
    end.
  - match goal with
    | Hi : all_bytes id_char ?i = true |- dep_line (?p +:+ ?i +:+ ?r) =>
        destruct i as [|c i']; [done|]; exists p, c, (i' +:+ r);
        simpl in Hi; by destruct (id_char c)
    end.
Qed.

Lemma depRE_complete l : dep_line l → is_Some (FindStringSubmatch depRE l).
Proof.
  intros (pre & c & rest & -> & Hne & Hpre & Hc).
  eapply (FindStringSubmatch_complete _ _ rest); [done|]. unfold depRE.
  eapply matches_Cat;
    [|apply matches_Cap, (matches_Plus _ _ (String c "") rest); [done|simpl; by rewrite Hc]].
  eapply matches_Cat; [|apply matches_Opt_none].
  eapply matches_Cat; [apply matches_Bot|]. by apply matches_Cap, matches_Plus.
Qed.

Lemma depRE_None l : FindStringSubmatch depRE l = None ↔ ¬ dep_line l.
Proof.
  split.
  - intros HN Hl. apply depRE_complete in Hl as [m Hm]. congruence.
  - intros Hno. destruct (FindStringSubmatch depRE l) as [m|] eqn:Hm; [|done].
    destruct (depRE_sound _ _ Hm) as (? & ? & ? & _ & _ & _ & _ & _ & Hl). done.
Qed.

Lemma tree_and_id_char (c : ascii) :
  tree_char c = true → id_char c = true → c = "-"%char.
Proof.
  destruct c as [[] [] [] [] [] [] [] []]; vm_compute; intros; congruence.
Qed.

Lemma all_bytes_app (cls : ascii → bool) (a b : string) :
  all_bytes cls (a +:+ b) = all_bytes cls a && all_bytes cls b.
Proof.
  induction a as [|c a IH]; rewrite ?String_app_nil_l, ?String_app_cons; simpl; [done|].
  rewrite IH. by rewrite andb_assoc.
Qed.

Lemma contains_byte_split (s : string) (c : ascii) :
  strings.contains_byte s c = true → ∃ a b, s = a +:+ String c b.
Proof.
  induction s as [|x s IH]; simpl; [done|].
  destruct (Ascii.eqb_spec x c) as [->|Hne].
  - intros _. by exists "", s.
  - intros H. destruct (IH H) as (a & b & ->). by exists (String x a), b.
Qed.

(** A line of tree-drawing characters only is a dependency line exactly
    when a ['-'] follows its first character. *)
Lemma dep_line_tree_only l :
  all_bytes tree_char l = true →
  dep_line l ↔ ∃ a b, l = String a b ∧ strings.contains_byte b "-"%char = true.
Proof.
  intros Hall. split.
  - intros ([|a pre] & c & rest & -> & Hne & Hpre & Hc); [done|].
    exists a, (pre +:+ String c rest). split; [done|].
    rewrite String_app_cons in Hall. simpl in Hall.
    apply andb_true_iff in Hall as [_ Hall]. rewrite all_bytes_app in Hall.
    apply andb_true_iff in Hall as [_ Hall]. simpl in Hall.
    apply andb_true_iff in Hall as [Ht _].
    rewrite (tree_and_id_char c Ht Hc). rewrite contains_byte_app. simpl.
    by rewrite orb_true_r.
  - intros (a & b & -> & Hb). apply contains_byte_split in Hb as (b1 & b2 & ->).
    exists (String a b1), "-"%char, b2. split; [done|]. split; [done|].
    split; [|done]. simpl in *. apply andb_true_iff in Hall as [Ha Hall].
    rewrite all_bytes_app in Hall. apply andb_true_iff in Hall as [Hb1 _].
    by rewrite Ha, Hb1.
Qed.

Lemma parseDeps_loop_app rootProj pre rest v0 v :
  after_lines rootProj pre v0 v →
  parseDeps_loop rootProj (pre ++ rest) v0 = parseDeps_loop rootProj rest v.
Proof.
  induction 1 as [v|l pre v v1 v2 Hl _ IH]; simpl; [done|]. by rewrite Hl.
Qed.

Lemma parseDeps_line_malformed rootProj l v :
  state v = parsingDeps → l ≠ "" → FindStringSubmatch depRE l = None →
  parseDeps_line rootProj l v = Ok (Return ("invalid dependency line: " +:+ l) v).
Proof.
  intros Hs Hl Hm. unfold parseDeps_line. rewrite Hs. simpl.
  rewrite decide_False by (unfold strings.len; by rewrite String_length_zero).
  rewrite Hm. destruct v; simpl in *. by subst.
Qed.

(** C3 (as amended). A line fails to match the dependency-line pattern
    exactly when it is not a run of tree-drawing characters followed by
    an identifier character. In the [ParsingDeps] state such a line, if
    not empty, ends the parse with the error
    ["invalid dependency line: "] followed by the line, and [parseDeps]
    returns that error with the registry and the objects as the earlier
    lines left them. A line of tree-drawing characters only is such a
    line exactly when no ['-'] follows its first character. *)
Theorem parseDeps_malformed_line :
  (∀ l, FindStringSubmatch depRE l = None ↔ ¬ dep_line l)
  ∧ (∀ rootProj l v,
       state v = parsingDeps → l ≠ "" → ¬ dep_line l →
       parseDeps_line rootProj l v
       = Ok (Return ("invalid dependency line: " +:+ l) v))
  ∧ (∀ ps h content rootProj pre l post v,
       strings.Split content "010"%char = pre ++ l :: post →
       after_lines rootProj pre (mkVars ps h waitingRoot []) v →
       state v = parsingDeps → l ≠ "" → ¬ dep_line l →
       parseDeps ps content rootProj h
       = Ok (Some ("invalid dependency line: " +:+ l), projects v, heap v))
  ∧ (∀ l, all_bytes tree_char l = true → l ≠ "" →
       (¬ dep_line l ↔ ∃ a b, l = String a b ∧ strings.contains_byte b "-"%char = false)).
Proof.
  split; [exact depRE_None|]. split; [|split].
  - intros rootProj l v Hs Hl Hno. apply parseDeps_line_malformed; [done..|].
    by apply depRE_None.
  - intros ps h content rootProj pre l post v Hsplit Hpre Hs Hl Hno.
    unfold parseDeps. rewrite Hsplit.
    rewrite (parseDeps_loop_app _ _ _ _ _ Hpre). simpl.
    rewrite parseDeps_line_malformed; [done..|]. by apply depRE_None.
  - intros [|a b] Hall Hne; [done|]. rewrite (dep_line_tree_only _ Hall). split.
    + intros Hno. exists a, b. split; [done|].
      destruct (strings.contains_byte b "-") eqn:Hb; [|done].
      destruct Hno. by exists a, b.
    + intros (a' & b' & ? & Hb) (a'' & b'' & ? & Hb'). simplify_eq. congruence.
Qed.

Lemma parseDeps_malformed_line_witness :
  let content := strings.Join ["Root project ':app'"; "+--- project :core"; "|    "; "x"]
                   strings.nl in
  ∃ ps h,
    parseDeps NewProjects content "r" empty_heap
    = Ok (Some "invalid dependency line: |    ", ps, h)
    ∧ is_Some (all ps !! key "r" ":core").
Proof.
  intros content.
  destruct parseDeps_malformed_line as (Hnone & _ & Hparse & _).
  destruct (parseDeps_loop "r" ["Root project ':app'"; "+--- project :core"]
              (mkVars NewProjects empty_heap waitingRoot [])) as [[err v]|] eqn:Hv;
    [|by vm_compute in Hv].
  exists (projects v), (heap v). split.
  - apply (Hparse NewProjects empty_heap content "r"
             ["Root project ':app'"; "+--- project :core"] "|    " ["x"] v).
    + by vm_compute.
    + vm_compute in Hv. simplify_eq.
      eapply after_cons; [by vm_compute|].
      eapply after_cons; [by vm_compute|]. apply after_nil.
    + vm_compute in Hv. by simplify_eq.
    + done.
    + apply Hnone. by vm_compute.
  - vm_compute in Hv. simplify_eq. vm_compute. by eexists.
Defined.

(** C3 as stated fails on a line of tree-drawing characters that has a
    ['-'] after its first character: ['-'] is an identifier character
    too, so ["+---"] matches with the run ["+--"] and the identifier
    ["-"], and the parse goes on with a project named ["-"]. *)
Lemma parseDeps_tree_only_line_accepted :
  let content := strings.Join ["Root project ':app'"; "+--- project :core"; "+---"; ""]
                   strings.nl in
  all_bytes tree_char "+---" = true
  ∧ FindStringSubmatch depRE "+---" = Some ["+---"; "+--"; "-"]
  ∧ ∃ ps h,
      parseDeps NewProjects content "r" empty_heap = Ok (None, ps, h)
      ∧ is_Some (all ps !! key "r" "-")
      ∧ edges_of h ≡ₚ [(":app", ":core"); (":app", "-")].
Proof.
  intros content. split; [by vm_compute|]. split; [by vm_compute|].
  eexists _, _. split; [by vm_compute|]. split; [vm_compute; by eexists|].
  vm_compute. apply perm_swap.
Qed.

Lemma bind_Ok {A B} (a : A) (f : A → outcome B) : Ok a ≫= f = f a.
Proof. reflexivity. Qed.

Lemma unwind_unfold new_depth stack lp :
  unwind new_depth stack lp
  = if decide (new_depth ≤ depth lp)%nat
    then stack' ← utils_RemoveLast stack;
         lp' ← utils_Last stack';
         unwind new_depth stack' lp'
    else Ok (stack, lp).
Proof. destruct stack as [|x [|y rest]]; simpl; by case_decide. Qed.

Lemma unwind_pop_while new_depth x stack parent rest :
  pop_while new_depth (x :: stack) = parent :: rest →
  unwind new_depth (x :: stack) x = Ok (parent :: rest, parent).
Proof.
  revert x. induction stack as [|y stack IH]; intros x; simpl.
  - case_decide; [done|]. intros ?; by simplify_eq.
  - destruct (decide (new_depth ≤ depth x)%nat); [|intros ?; by simplify_eq].
    intros H. by apply IH.
Qed.

Lemma pop_while_bottom new_depth above root :
  depth root = 0%nat → (1 ≤ new_depth)%nat →
  ∃ above', pop_while new_depth (above ++ [root]) = above' ++ [root]
            ∧ ∀ x, x ∈ above' → x ∈ above.
Proof.
  intros Hr Hd. induction above as [|x above IH]; simpl.
  - exists []. rewrite decide_False by lia. done.
  - case_decide.
    + destruct IH as (above' & -> & Hin). exists above'. split; [done|].
      intros y Hy. right. by apply Hin.
    + by exists (x :: above).
Qed.

Lemma parseDeps_line_parsing rootProj l v :
  parsing v l → l ≠ "" →
  parseDeps_line rootProj l v
  = match FindStringSubmatch depRE l with
    | None =>
        Ok (Return ("invalid dependency line: " +:+ l)
              (mkVars (projects v) (heap v) parsingDeps (stack v)))
    | Some depMatches =>
        let new_depth := strings.len (group depMatches 1) in
        '(p, ps, h) ← Get (projects v) rootProj (group depMatches 2) (heap v);
        lp ← utils_Last (stack v);
        '(stk, lp) ← unwind new_depth (stack v) lp;
        '(_, h) ← AddDependency (proj lp) p h;
        Ok (Continue (mkVars ps h parsingDeps (mkPd p new_depth :: stk)))
    end.
Proof.
  intros Hp Hl. unfold parseDeps_line.
  assert (strings.len l ≠ 0%nat) as Hlen
    by (unfold strings.len; by rewrite String_length_zero).
  destruct Hp as [Hs|[Hs Hm]]; rewrite Hs; simpl.
  - by rewrite decide_False by done.
  - rewrite Hm. simpl. by rewrite decide_False by done.
Qed.

Lemma AddDependency_length p d h e h' :
  AddDependency p d h = Ok (e, h') → length (projs h') = length (projs h).
Proof.
  unfold AddDependency. destruct (projs h !! p), (projs h !! d); try done.
  intros ?; simplify_eq. simpl. by rewrite length_insert.
Qed.

Lemma parseDeps_line_dep rootProj l v m :
  rootProj ≠ "" → vars_wf v → parsing v l → l ≠ "" →
  FindStringSubmatch depRE l = Some m →
  ∃ p ps1 h1 parent rest e h2,
    Get (projects v) rootProj (group m 2) (heap v) = Ok (p, ps1, h1)
    ∧ pop_while (strings.len (group m 1)) (stack v) = parent :: rest
    ∧ AddDependency (proj parent) p h1 = Ok (e, h2)
    ∧ parseDeps_line rootProj l v
      = Ok (Continue (mkVars ps1 h2 parsingDeps
                        (mkPd p (strings.len (group m 1)) :: parent :: rest)))
    ∧ vars_wf (mkVars ps1 h2 parsingDeps
                 (mkPd p (strings.len (group m 1)) :: parent :: rest)).
Proof.
  intros Hroot (Hreg & Hheap & Hvalid & above & root & Hstack & Hdepth) Hp Hl Hm.
  destruct (depRE_sound _ _ Hm) as (whole & pre & id & -> & Hpre & _ & Hid & _ & _).
  change (group [whole; pre; id] 1) with pre.
  change (group [whole; pre; id] 2) with id.
  assert (∃ p ps1 h1, Get (projects v) rootProj id (heap v) = Ok (p, ps1, h1))
    as (p & ps1 & h1 & HG).
  { destruct (all (projects v) !! key rootProj id) eqn:Hk.
    - eexists _, _, _. by apply Get_found.
    - eexists _, _, _. by apply Get_fresh. }
  destruct (Get_grows _ _ _ _ _ _ _ Hreg HG) as (Hreg1 & Hk1 & _ & Hlen).
  pose proof (Get_heap_wf _ _ _ _ _ _ _ Hheap HG) as Hheap1.
  assert (1 ≤ strings.len pre)%nat as Hd.
  { unfold strings.len. destruct pre; [done|simpl; lia]. }
  destruct (pop_while_bottom (strings.len pre) above root Hdepth Hd)
    as (above' & Hpop & Hsub).
  rewrite <- Hstack in Hpop.
  destruct (above' ++ [root]) as [|parent rest] eqn:Hab; [by destruct above'|].
  assert (parent ∈ stack v) as Hparent.
  { rewrite Hstack. destruct above' as [|y above'']; simpl in Hab; simplify_eq.
    - apply elem_of_app. right. left.
    - apply elem_of_app. left. apply Hsub. left. }
  assert (p < length (projs h1))%nat as Hpv by (by eapply (proj1 Hreg1)).
  destruct (lookup_lt_is_Some_2 (projs h1) p Hpv) as [P HP].
  assert (proj parent < length (projs h1))%nat as Hparv.
  { specialize (Hvalid _ Hparent). lia. }
  destruct (lookup_lt_is_Some_2 (projs h1) (proj parent) Hparv) as [Q HQ].
  pose proof (AddDependency_Ok _ _ _ _ _ HQ HP) as HA.
  exists p, ps1, h1, parent, rest. eexists _, _.
  split; [done|]. split; [done|]. split; [exact HA|].
  pose proof (AddDependency_length _ _ _ _ _ HA) as Hlen2.
  pose proof (AddDependency_heap_wf _ _ _ _ _ Hheap1 HA) as Hheap2.
  split.
  - rewrite parseDeps_line_parsing by done. rewrite Hm.
    change (group [whole; pre; id] 1) with pre.
    change (group [whole; pre; id] 2) with id.
    cbv zeta. rewrite HG, bind_Ok.
    destruct (stack v) as [|x stk] eqn:Hstk; [done|].
    cbn [utils_Last]. rewrite bind_Ok, (unwind_pop_while _ _ _ _ _ Hpop), bind_Ok.
    by rewrite HA, bind_Ok.
  - split; [|split; [done|split]]; simpl.
    + destruct Hreg1 as [Hv1 Hi1]. split; [|done].
      intros k q Hq. simpl. rewrite length_insert. by eapply Hv1.
    + intros x Hx. rewrite length_insert.
      apply elem_of_cons in Hx as [->|Hx]; [done|].
      assert (x ∈ stack v) as Hxs.
      { rewrite Hstack. rewrite <- Hab in Hx.
        apply elem_of_app in Hx as [Hx|Hx]; apply elem_of_app; auto. }
      specialize (Hvalid _ Hxs). lia.
    + exists (mkPd p (strings.len pre) :: above'), root. rewrite <- Hab. done.
Qed.

Lemma rootProjRE_sound l m :
  FindStringSubmatch rootProjRE l = Some m →
  ∃ whole name, m = [whole; name] ∧ name ≠ "" ∧ all_bytes not_quote name = true.
Proof.
  intros H. apply FindStringSubmatch_sound in H as (s' & c & HM & ->); [|done].
  unfold rootProjRE in HM.
  repeat match goal with
    | H : matches (Cat _ _) _ _ _ _ |- _ => inversion H; subst; clear H
    | H : matches (Alt _ _) _ _ _ _ |- _ => inversion H; subst; clear H
    | H : matches (Cap _) _ _ _ _ |- _ => inversion H; subst; clear H
    | H : matches (Lit _) _ _ _ _ |- _ => inversion H; subst; clear H
    | H : matches (Plus _) _ _ _ _ |- _ => inversion H; subst; clear H
    | H : matches Eot _ _ _ _ |- _ => inversion H; subst; clear H
    | H : matches Bot _ _ _ _ |- _ => inversion H; subst; clear H
    end;
    rewrite take_app_sub; cbn [app]; by eexists _, _.
Qed.

Lemma parseDeps_line_waitingRoot rootProj l v :
  state v = waitingRoot →
  parseDeps_line rootProj l v
  = match FindStringSubmatch rootProjRE l with
    | Some rootMatches =>
        '(p, ps, h) ← Get (projects v) rootProj (group rootMatches 1) (heap v);
        Ok (Continue (mkVars ps h waitingDeps (mkPd p 0 :: stack v)))
    | None => Ok (Continue v)
    end.
Proof. intros Hs. unfold parseDeps_line. by rewrite decide_True. Qed.

Lemma parseDeps_line_waitingDeps rootProj l v :
  state v = waitingDeps →
  (strings.HasPrefix l "\---" || strings.HasPrefix l "+---") = false →
  parseDeps_line rootProj l v
  = Ok (Continue (mkVars (projects v) (heap v) waitingDeps (stack v))).
Proof. intros Hs Hm. unfold parseDeps_line. rewrite Hs. simpl. by rewrite Hm. Qed.

Lemma parseDeps_line_blank rootProj v :
  state v = parsingDeps →
  parseDeps_line rootProj "" v
  = Ok (Break (mkVars (projects v) (heap v) parsingDeps (stack v))).
Proof. intros Hs. unfold parseDeps_line. by rewrite Hs. Qed.

(** A round of the loop never panics, and keeps [loop_inv]. *)
Lemma parseDeps_line_returns rootProj l v :
  rootProj ≠ "" → loop_inv v →
  ∃ r, parseDeps_line rootProj l v = Ok r ∧ loop_inv (vars_of r).
Proof.
  intros Hroot [(Hs & Hstack & Hreg & Hheap)|[Hs Hwf]].
  - rewrite parseDeps_line_waitingRoot by done.
    destruct (FindStringSubmatch rootProjRE l) as [m|] eqn:Hm.
    + destruct (rootProjRE_sound _ _ Hm) as (whole & name & -> & Hname & _).
      change (group [whole; name] 1) with name.
      assert (∃ p ps1 h1, Get (projects v) rootProj name (heap v) = Ok (p, ps1, h1))
        as (p & ps1 & h1 & HG).
      { destruct (all (projects v) !! key rootProj name) eqn:Hk.
        - eexists _, _, _. by apply Get_found.
        - eexists _, _, _. by apply Get_fresh. }
      rewrite HG, bind_Ok. eexists. split; [done|]. right. split; [done|].
      destruct (Get_grows _ _ _ _ _ _ _ Hreg HG) as (Hreg1 & Hk1 & _ & _).
      split; [done|]. split; [by eapply Get_heap_wf|]. rewrite Hstack. split.
      * intros x ->%list_elem_of_singleton. simpl. by eapply (proj1 Hreg1).
      * by exists [], (mkPd p 0).
    + eexists. split; [done|]. left. done.
  - destruct (state v) eqn:Hst; [done| |].
    + destruct (strings.HasPrefix l "\---" || strings.HasPrefix l "+---") eqn:Hm.
      * assert (l ≠ "") as Hl by (intros ->; discriminate).
        assert (parsing v l) as Hp by (right; by rewrite Hst).
        destruct (FindStringSubmatch depRE l) as [m|] eqn:Hd.
        -- destruct (parseDeps_line_dep _ _ _ _ Hroot Hwf Hp Hl Hd)
             as (p & ps1 & h1 & parent & rest & e & h2 & _ & _ & _ & -> & Hwf2).
           eexists. split; [done|]. right. done.
        -- rewrite parseDeps_line_parsing, Hd by done.
           eexists. split; [done|]. right. done.
      * rewrite parseDeps_line_waitingDeps by done.
        eexists. split; [done|]. right. done.
    + destruct (decide (l = "")) as [->|Hl].
      * rewrite parseDeps_line_blank by done. eexists. split; [done|]. right. done.
      * assert (parsing v l) as Hp by (by left).
        destruct (FindStringSubmatch depRE l) as [m|] eqn:Hd.
        -- destruct (parseDeps_line_dep _ _ _ _ Hroot Hwf Hp Hl Hd)
             as (p & ps1 & h1 & parent & rest & e & h2 & _ & _ & _ & -> & Hwf2).
           eexists. split; [done|]. right. done.
        -- rewrite parseDeps_line_parsing, Hd by done.
           eexists. split; [done|]. right. done.
Qed.

Lemma loop_inv_wf v : loop_inv v → registry_wf (projects v) (heap v) ∧ heap_wf (heap v).
Proof. intros [(_ & _ & ? & ?)|[_ (? & ? & _)]]; done. Qed.

Lemma parseDeps_loop_returns rootProj lines v :
  rootProj ≠ "" → loop_inv v →
  ∃ err v', parseDeps_loop rootProj lines v = Ok (err, v') ∧ loop_inv v'.
Proof.
  intros Hroot. revert v. induction lines as [|l lines IH]; intros v Hinv; simpl.
  - by exists None, v.
  - destruct (parseDeps_line_returns rootProj l v Hroot Hinv) as (r & -> & Hr).
    rewrite bind_Ok. destruct r as [v'|v'|err v']; simpl in Hr.
    + by apply IH.
    + by exists None, v'.
    + by exists (Some err), v'.
Qed.

(** [parseDeps] never panics on a well-formed registry: the stack is
    never popped empty and every address it follows is allocated. *)
Lemma parseDeps_returns ps h content rootProj :
  rootProj ≠ "" → registry_wf ps h → heap_wf h →
  ∃ err ps' h', parseDeps ps content rootProj h = Ok (err, ps', h')
                ∧ registry_wf ps' h' ∧ heap_wf h'.
Proof.
  intros Hroot Hreg Hheap. unfold parseDeps.
  destruct (parseDeps_loop_returns rootProj (strings.Split content "010"%char)
              (mkVars ps h waitingRoot []) Hroot) as (err & v' & -> & Hinv).
  { left. done. }
  rewrite bind_Ok. exists err, (projects v'), (heap v').
  split; [done|]. by apply loop_inv_wf.
Qed.

(** C2. A dependency line is handled by popping the stack while the
    line's depth (the length of its run of tree-drawing characters) is
    at most the depth of the top entry; the top entry then left is the
    parent, the edge parent → current is added and (current, depth) is
    pushed; the stack is never emptied, its bottom entry having depth 0,
    so that the parse of any report returns, with an error or without.
    On the report with root [:app] and the two lines [+--- project :core]
    and [\--- com.x:lib:1.0], both of depth 5, followed by an empty line,
    the registry gets 3 nodes and the 2 edges [:app → :core] and
    [:app → com.x:lib:1.0]; a line of depth 10 after [:core] becomes a
    child of [:core], not of [:app]. *)
Theorem parseDeps_depth_stack :
  (∀ rootProj l v m,
      rootProj ≠ "" → vars_wf v → parsing v l → l ≠ "" →
      FindStringSubmatch depRE l = Some m →
      ∃ p ps1 h1 parent rest e h2,
        Get (projects v) rootProj (group m 2) (heap v) = Ok (p, ps1, h1)
        ∧ pop_while (strings.len (group m 1)) (stack v) = parent :: rest
        ∧ AddDependency (proj parent) p h1 = Ok (e, h2)
        ∧ parseDeps_line rootProj l v
          = Ok (Continue (mkVars ps1 h2 parsingDeps
                            (mkPd p (strings.len (group m 1)) :: parent :: rest)))
        ∧ vars_wf (mkVars ps1 h2 parsingDeps
                     (mkPd p (strings.len (group m 1)) :: parent :: rest)))
  ∧ (∀ ps h content rootProj,
      rootProj ≠ "" → registry_wf ps h → heap_wf h →
      ∃ err ps' h', parseDeps ps content rootProj h = Ok (err, ps', h')
                    ∧ registry_wf ps' h' ∧ heap_wf h')
  ∧ (FindStringSubmatch depRE "+--- project :core"
       = Some ["+--- project :core"; "+--- "; ":core"]
     ∧ FindStringSubmatch depRE "\--- com.x:lib:1.0"
       = Some ["\--- com.x:lib:1.0"; "\--- "; "com.x:lib:1.0"]
     ∧ ∃ ps h,
         parseDeps NewProjects
           (strings.Join ["Root project ':app'"; "+--- project :core";
                          "\--- com.x:lib:1.0"; ""; "BUILD SUCCESSFUL"] strings.nl)
           "r" empty_heap
         = Ok (None, ps, h)
         ∧ base.size (all ps) = 3%nat ∧ length (projs h) = 3%nat
         ∧ edges_of h ≡ₚ [(":app", ":core"); (":app", "com.x:lib:1.0")])
  ∧ (FindStringSubmatch depRE "|    \--- com.y:z:1"
       = Some ["|    \--- com.y:z:1"; "|    \--- "; "com.y:z:1"]
     ∧ ∃ ps h,
         parseDeps NewProjects
           (strings.Join ["Root project ':app'"; "+--- project :core";
                          "|    \--- com.y:z:1"; "\--- com.x:lib:1.0"; ""] strings.nl)
           "r" empty_heap
         = Ok (None, ps, h)
         ∧ edges_of h ≡ₚ [(":app", ":core"); (":core", "com.y:z:1");
                           (":app", "com.x:lib:1.0")]).
Proof.
  split; [exact parseDeps_line_dep|]. split; [exact parseDeps_returns|]. split.
  - split; [by vm_compute|]. split; [by vm_compute|].
    eexists _, _. split; [by vm_compute|]. split; [by vm_compute|].
    split; [by vm_compute|]. vm_compute. apply perm_swap.
  - split; [by vm_compute|].
    eexists _, _. split; [by vm_compute|]. vm_compute.
    apply (Permutation_cons_append [_; _]).
Qed.

Lemma parseDeps_depth_stack_witness :
  let v := mkVars {| all := {[ key "r" ":app" := 0%nat ]} |}
             {| projs := [NewProject "r" ":app"]; deps := [] |}
             waitingDeps [mkPd 0 0] in
  ∃ p ps1 h1 e h2,
    Get (projects v) "r" ":core" (heap v) = Ok (p, ps1, h1)
    ∧ AddDependency 0 p h1 = Ok (e, h2)
    ∧ parseDeps_line "r" "+--- project :core" v
      = Ok (Continue (mkVars ps1 h2 parsingDeps [mkPd p 5; mkPd 0 0])).
Proof.
  intros v.
  destruct parseDeps_depth_stack as [Hstep _].
  destruct (Hstep "r" "+--- project :core" v
              ["+--- project :core"; "+--- "; ":core"])
    as (p & ps1 & h1 & parent & rest & e & h2 & HG & Hpop & HA & Hline & _).
  - discriminate.
  - split; [|split; [|split]].
    + split.
      * intros k p. simpl. rewrite lookup_singleton.
        case_decide; intros ?; simplify_eq; simpl; lia.
      * intros k1 k2 p. simpl. rewrite !lookup_singleton.
        repeat case_decide; intros ??; by simplify_eq.
    + intros [|p] P k e HP Hd; simpl in HP; by simplify_eq.
    + intros x Hx. apply list_elem_of_singleton in Hx as ->. simpl. lia.
    + exists [], (mkPd 0 0). done.
  - right. split; [reflexivity|by vm_compute].
  - discriminate.
  - by vm_compute.
  - vm_compute in Hpop. simplify_eq.
    exists p, ps1, h1, e, h2. split; [exact HG|]. split; [exact HA|]. exact Hline.
Defined.

End dependency_lines.

(* ===================================================================== *)
(** * Deterministic ordering (C4) *)
(* ===================================================================== *)

Section insertion_sort.
Import archer spec.
Context {A : Type} (less : A → A → bool) (good : A → Prop).
Hypothesis less_asym : ∀ a b, good a → good b → less a b = true → less b a = false.
Hypothesis less_negtrans : ∀ a b c, good a → good b → good c →
  less a b = false → less b c = false → less a c = false.

Lemma insert_back_perm (x : A) (l : list A) : insert_back less x l ≡ₚ x :: l.
Proof.
  induction l as [|y l IH]; simpl; [done|].
  destruct (less x y); [|done]. rewrite IH. apply perm_swap.
Qed.

Lemma insertion_sort_perm (l : list A) : insertion_sort less l ≡ₚ l.
Proof.
  unfold insertion_sort. rewrite reverse_Permutation.
  assert (∀ acc, fold_left (λ acc e, insert_back less e acc) l acc ≡ₚ l ++ acc) as H.
  { induction l as [|x l IH]; intros acc; simpl; [done|].
    rewrite IH, insert_back_perm. by rewrite Permutation_middle. }
  rewrite H. by rewrite app_nil_r.
Qed.

Lemma insert_back_later_first (x : A) (l : list A) :
  good x → Forall good l → later_first less l → later_first less (insert_back less x l).
Proof.
  intros Hx HS Hl. induction Hl as [|y l Hl IH Hy]; simpl.
  - repeat constructor.
  - apply Forall_cons in HS as [HSy HS]. destruct (less x y) eqn:Hxy.
    + constructor; [by apply IH|].
      rewrite (insert_back_perm x l). constructor; [|done].
      by apply less_asym.
    + constructor; [by constructor|]. constructor; [done|].
      rewrite Forall_forall in Hy, HS |- *. intros z Hz.
      apply (less_negtrans x y z); auto.
Qed.

Lemma later_first_rev (l : list A) :
  later_first less l → StronglySorted (λ x y, less y x = false) (reverse l).
Proof.
  induction 1 as [|y l Hl IH Hy]; [constructor|]. rewrite reverse_cons.
  apply StronglySorted_app. split; [|split; [done|repeat constructor]].
  intros x1 x2 H1 H2. apply list_elem_of_singleton in H2 as ->.
  rewrite Forall_forall in Hy. apply Hy. by apply elem_of_reverse.
Qed.

Lemma insertion_sort_sorted (l : list A) :
  Forall good l → StronglySorted (λ x y, less y x = false) (insertion_sort less l).
Proof.
  intros HS. unfold insertion_sort. apply later_first_rev.
  assert (∀ acc, Forall good acc → later_first less acc →
            later_first less (fold_left (λ acc e, insert_back less e acc) l acc)) as H.
  { induction HS as [|x l Hx HS IH]; intros acc Hacc Hl; simpl; [done|].
    apply IH.
    - rewrite (insert_back_perm x acc). by constructor.
    - by apply insert_back_later_first. }
  apply H; constructor.
Qed.

End insertion_sort.

Section ordered_lists.
Import archer spec.

Lemma ordered_StronglySorted {A} (less : A → A → bool) (l : list A) :
  ordered less l = true ↔ StronglySorted (λ x y, less y x = false) l.
Proof.
  induction l as [|x l IH]; simpl.
  - split; [constructor|done].
  - split.
    + intros [H1 H2]%andb_true_iff. constructor; [by apply IH|].
      apply Forall_forall. intros y Hy. apply list_elem_of_In in Hy.
      apply (proj1 (forallb_forall _ _) H1) in Hy. by destruct (less y x).
    + intros H. inversion H as [|? ? Hl Hx]; subst. apply andb_true_iff.
      split; [|by apply IH]. apply forallb_forall. intros y Hy.
      apply list_elem_of_In in Hy. rewrite Forall_forall in Hx.
      by rewrite (Hx y Hy).
Qed.

(** The library's insertion sort keeps the promise of [sort.Slice]. *)
Lemma insertion_sort_contract : SortContract insertion_Sorter.
Proof.
  split.
  - intros A less l. apply insertion_sort_perm.
  - intros A less good l Hasym Hneg Hgood. apply ordered_StronglySorted.
    by apply (insertion_sort_sorted less good).
Qed.

End ordered_lists.

Section ordering.
Import archer spec.
Context (srt : Sorter) (srt_ok : SortContract srt).

Lemma lt_true_compare a b : strings.lt a b = true ↔ String.compare a b = Lt.
Proof. unfold strings.lt, String.ltb. destruct (String.compare a b); naive_solver. Qed.

Lemma lt_false_le a b : strings.lt a b = false ↔ String.le b a.
Proof.
  unfold strings.lt, String.ltb, String.le, String.leb.
  rewrite (String.compare_antisym b a).
  destruct (String.compare a b); simpl; naive_solver.
Qed.

Lemma lt_asym a b : strings.lt a b = true → strings.lt b a = false.
Proof.
  rewrite lt_true_compare. unfold strings.lt, String.ltb.
  rewrite (String.compare_antisym a b). by destruct (String.compare b a).
Qed.

Lemma lt_negtrans a b c :
  strings.lt a b = false → strings.lt b c = false → strings.lt a c = false.
Proof. rewrite !lt_false_le. intros H1 H2. by etrans. Qed.

Local Ltac by_types :=
  unfold less_Project, IsCode, IsExternalDependency;
  repeat match goal with
    | |- ∀ P : Project, _ => let P := fresh "P" in intros P; destruct (Type_ P) eqn:?
    end;
  simpl; intros; try done; eauto using lt_asym, lt_negtrans.

Lemma less_Project_asym (t : ProjectType) (a b : Project) :
  Type_ a ≠ t → Type_ b ≠ t → less_Project a b = true → less_Project b a = false.
Proof. revert a b. destruct t; by_types. Qed.

Lemma less_Project_negtrans (t : ProjectType) (a b c : Project) :
  Type_ a ≠ t → Type_ b ≠ t → Type_ c ≠ t →
  less_Project a b = false → less_Project b c = false → less_Project a c = false.
Proof. revert a b c. destruct t; by_types. Qed.

Lemma mapM_Ok {A B} (f : A → outcome B) (l : list A) (k : list B) :
  Forall2 (λ x y, f x = Ok y) l k → mapM f l = Ok k.
Proof. induction 1 as [|x y l k Hf _ IH]; simpl; [done|]. by rewrite Hf, IH. Qed.

Lemma load_project_Ok h p P : projs h !! p = Some P → load_project h p = Ok (p, P).
Proof. intros HP. unfold load_project. by rewrite HP. Qed.

Lemma load_dependency_Ok h e D src tgt :
  deps h !! e = Some D → projs h !! Source D = Some src → projs h !! Target D = Some tgt →
  load_dependency h e = Ok (mkDnode e src tgt).
Proof.
  intros HD HS HT. unfold load_dependency. rewrite HD.
  by rewrite (load_project_Ok _ _ _ HS), bind_Ok, (load_project_Ok _ _ _ HT), bind_Ok.
Qed.

Lemma load_projects h order :
  (∀ p, p ∈ order → (p < length (projs h))%nat) →
  ∃ vs, mapM (load_project h) order = Ok vs
        ∧ ∀ v, v ∈ vs → projs h !! v.1 = Some v.2.
Proof.
  intros Hv.
  assert (∃ vs, Forall2 (λ p v, load_project h p = Ok v) order vs
                ∧ ∀ v, v ∈ vs → projs h !! v.1 = Some v.2) as (vs & HF & Hall).
  { induction order as [|p order IH].
    - exists []. split; [constructor|]. intros v Hin. by apply elem_of_nil in Hin.
    - destruct IH as (vs & Hvs & Hall); [intros q Hq; apply Hv; by right|].
      destruct (lookup_lt_is_Some_2 (projs h) p) as [P HP]; [apply Hv; left|].
      exists ((p, P) :: vs). split.
      + constructor; [by apply load_project_Ok|done].
      + intros v [->|Hin]%elem_of_cons; [done|by apply Hall]. }
  exists vs. split; [by apply mapM_Ok|done].
Qed.

Lemma load_dependencies h p P order :
  heap_wf h → projs h !! p = Some P →
  (∀ e, e ∈ order → ∃ k, dependencies P !! k = Some e) →
  ∃ vs, mapM (load_dependency h) order = Ok vs
        ∧ ∀ v, v ∈ vs → source v = P.
Proof.
  intros Hwf HP Hv.
  assert (∃ vs, Forall2 (λ e v, load_dependency h e = Ok v) order vs
                ∧ ∀ v, v ∈ vs → source v = P) as (vs & HF & Hall).
  { induction order as [|e order IH].
    - exists []. split; [constructor|]. intros v Hin. by apply elem_of_nil in Hin.
    - destruct IH as (vs & Hvs & Hall); [intros q Hq; apply Hv; by right|].
      destruct (Hv e) as [k Hk]; [left|].
      destruct (Hwf _ _ _ _ HP Hk) as (D & T & HD & HS & HT & _).
      exists (mkDnode e P T :: vs). split.
      + constructor; [|done]. eapply load_dependency_Ok; [done| |done]. by rewrite HS.
      + intros v [->|Hin]%elem_of_cons; [done|by apply Hall]. }
  exists vs. split; [by apply mapM_Ok|done].
Qed.

Lemma sortProjects_ordered (t : ProjectType) (l : list (nat * Project)) :
  (∀ v, v ∈ l → Type_ v.2 ≠ t) →
  ordered (λ a b : nat * Project, less_Project a.2 b.2) (sortProjects l) = true.
Proof.
  intros Ht. unfold sortProjects.
  apply (sort_ordered _ _ (λ v : nat * Project, Type_ v.2 ≠ t)).
  - intros a b. apply (less_Project_asym t).
  - intros a b c. apply (less_Project_negtrans t).
  - by apply Forall_forall.
Qed.

Lemma less_Dependency_same_source (a b : dnode) :
  source a = source b → less_Dependency a b = less_Project (target a) (target b).
Proof. intros H. unfold less_Dependency. rewrite H. by rewrite decide_True. Qed.

Lemma sortDependencies_ordered (t : ProjectType) (P : Project) (l : list dnode) :
  (∀ v, v ∈ l → source v = P ∧ Type_ (target v) ≠ t) →
  ordered less_Dependency (sortDependencies l) = true.
Proof.
  intros Ht. unfold sortDependencies.
  apply (sort_ordered _ _ (λ v, source v = P ∧ Type_ (target v) ≠ t)).
  - intros a b [Ha ?] [Hb ?]. rewrite !less_Dependency_same_source by congruence.
    by apply (less_Project_asym t).
  - intros a b c [Ha ?] [Hb ?] [Hc ?].
    rewrite !less_Dependency_same_source by congruence.
    by apply (less_Project_negtrans t).
  - by apply Forall_forall.
Qed.

Lemma no_type_mix_fmap {A} (f : A → Project) (l : list A) :
  no_type_mix (f <$> l) → ∃ t, ∀ v, v ∈ l → Type_ (f v) ≠ t.
Proof.
  intros [H|[H|H]]; eexists; intros v Hv; apply H; by apply list_elem_of_fmap_2.
Qed.

Lemma StronglySorted_lookup {A} (R : A → A → Prop) (l : list A) i j a b :
  StronglySorted R l → (i < j)%nat → l !! i = Some a → l !! j = Some b → R a b.
Proof.
  intros Hl. revert i j. induction Hl as [|x l Hl IH Hx]; intros i j Hij Hi Hj.
  - by rewrite lookup_nil in Hi.
  - destruct j as [|j]; [lia|]. destruct i as [|i]; simpl in *.
    + simplify_eq. rewrite Forall_forall in Hx. apply Hx.
      by eapply list_elem_of_lookup_2.
    + apply (IH i j); [lia|done..].
Qed.

Lemma registry_wf_length ps h h' :
  registry_wf ps h → (length (projs h) ≤ length (projs h'))%nat → registry_wf ps h'.
Proof.
  intros [Hv Hi] Hlen. split; [|done]. intros k p Hk. specialize (Hv _ _ Hk). lia.
Qed.

(** What the comparison closures achieve, for every [sort.Slice] that
    keeps the library's promise. The rule: a Code project is less than an
    ExternalDependency project whatever the names, never the other way
    round, and any other two projects compare by their names without
    the leading [':'] characters; two edges compare by their targets
    when their sources have the same name, by their sources otherwise.
    Whatever order the map is visited in, [ListProjects] returns the
    projects that pass the filter, and [ListDependencies] the edges of
    the project whose target passes it (all of them have that project
    as source, so they compare by target). When the listed projects
    (the listed targets) are not of all three types at once, the result
    has no inversion under the rule, and every Code entry comes before
    every ExternalDependency entry. *)
Theorem listings_ordered :
  (∀ a b, Type_ a = CodeType → Type_ b = ExternalDependencyType →
      less_Project a b = true ∧ less_Project b a = false)
  ∧ (∀ a b,
      ¬ (Type_ a = CodeType ∧ Type_ b = ExternalDependencyType) →
      ¬ (Type_ a = ExternalDependencyType ∧ Type_ b = CodeType) →
      less_Project a b
      = strings.lt (strings.TrimLeft (Name a) ":") (strings.TrimLeft (Name b) ":"))
  ∧ (∀ x y, less_Dependency x y
            = if decide (Name (source x) = Name (source y))
              then less_Project (target x) (target y)
              else less_Project (source x) (source y))
  ∧ (∀ ps h order filter,
      registry_wf ps h → order ≡ₚ (map_to_list (all ps)).*2 →
      ∃ vs sorted,
        mapM (load_project h) order = Ok vs
        ∧ (∀ v, v ∈ vs → projs h !! v.1 = Some v.2)
        ∧ ListProjects_in order filter h = Ok sorted.*1
        ∧ sorted ≡ₚ List.filter (λ v, passes filter v.2) vs
        ∧ (no_type_mix sorted.*2 →
             ordered (λ a b : nat * Project, less_Project a.2 b.2) sorted = true
             ∧ ∀ i j a b, sorted !! i = Some a → sorted !! j = Some b →
                 Type_ a.2 = CodeType → Type_ b.2 = ExternalDependencyType →
                 (i < j)%nat))
  ∧ (∀ h p P order filter,
      heap_wf h → projs h !! p = Some P →
      order ≡ₚ (map_to_list (dependencies P)).*2 →
      ∃ vs sorted,
        mapM (load_dependency h) order = Ok vs
        ∧ (∀ v, v ∈ vs → source v = P)
        ∧ ListDependencies_in order filter h = Ok (edge <$> sorted)
        ∧ sorted ≡ₚ List.filter (λ v, passes filter (target v)) vs
        ∧ (no_type_mix (target <$> sorted) →
             ordered less_Dependency sorted = true
             ∧ ∀ i j a b, sorted !! i = Some a → sorted !! j = Some b →
                 Type_ (target a) = CodeType →
                 Type_ (target b) = ExternalDependencyType →
                 (i < j)%nat)).
Proof.
  split; [|split; [|split; [|split]]].
  - intros a b Ha Hb. unfold less_Project, IsCode, IsExternalDependency.
    rewrite Ha, Hb. done.
  - intros a b H1 H2. unfold less_Project, IsCode, IsExternalDependency.
    destruct (Type_ a), (Type_ b); simpl; try done; naive_solver.
  - done.
  - intros ps h order filter Hwf Hperm.
    destruct (load_projects h order) as (vs & Hvs & Hall).
    { intros p Hp. rewrite Hperm in Hp.
      apply list_elem_of_fmap in Hp as ([k q] & -> & Hin).
      apply elem_of_map_to_list in Hin. by eapply (proj1 Hwf). }
    exists vs, (sortProjects (List.filter (λ v, passes filter v.2) vs)).
    split; [done|]. split; [done|].
    split; [unfold ListProjects_in; by rewrite Hvs|].
    split; [apply sort_perm|].
    intros Hmix. apply no_type_mix_fmap in Hmix as [t Ht].
    assert (ordered (λ a b : nat * Project, less_Project a.2 b.2)
              (sortProjects (List.filter (λ v, passes filter v.2) vs)) = true) as Hord.
    { apply (sortProjects_ordered t). intros v Hv. apply Ht.
      unfold sortProjects. by rewrite sort_perm. }
    split; [done|]. intros i j a b Hi Hj Ha Hb.
    apply ordered_StronglySorted in Hord.
    destruct (decide (i < j)%nat) as [|Hge]; [done|exfalso].
    destruct (decide (i = j)) as [->|Hne];
      [rewrite Hi in Hj; injection Hj as <-; congruence|].
    assert (j < i)%nat as Hlt by lia.
    pose proof (StronglySorted_lookup _ _ _ _ _ _ Hord Hlt Hj Hi) as HR. simpl in HR.
    unfold less_Project, IsCode, IsExternalDependency in HR.
    rewrite Ha, Hb in HR. done.
  - intros h p P order filter Hwf HP Hperm.
    destruct (load_dependencies h p P order Hwf HP) as (vs & Hvs & Hall).
    { intros e He. rewrite Hperm in He.
      apply list_elem_of_fmap in He as ([k e'] & -> & Hin).
      apply elem_of_map_to_list in Hin. by exists k. }
    exists vs, (sortDependencies (List.filter (λ v, passes filter (target v)) vs)).
    split; [done|]. split; [done|].
    split; [unfold ListDependencies_in; by rewrite Hvs|].
    split; [apply sort_perm|].
    intros Hmix. apply no_type_mix_fmap in Hmix as [t Ht].
    assert (∀ v, v ∈ sortDependencies (List.filter (λ v, passes filter (target v)) vs) →
              source v = P) as Hsrc.
    { intros v Hv. unfold sortDependencies in Hv. rewrite sort_perm in Hv.
      apply list_elem_of_In, filter_In in Hv as [Hv _]. apply Hall.
      by apply list_elem_of_In. }
    assert (ordered less_Dependency
              (sortDependencies (List.filter (λ v, passes filter (target v)) vs)) = true)
      as Hord.
    { apply (sortDependencies_ordered t P). intros v Hv. split.
      - apply Hsrc. unfold sortDependencies. by rewrite sort_perm.
      - apply Ht. unfold sortDependencies. by rewrite sort_perm. }
    split; [done|]. intros i j a b Hi Hj Ha Hb.
    apply ordered_StronglySorted in Hord.
    destruct (decide (i < j)%nat) as [|Hge]; [done|exfalso].
    destruct (decide (i = j)) as [->|Hne];
      [rewrite Hi in Hj; injection Hj as <-; congruence|].
    assert (j < i)%nat as Hlt by lia.
    pose proof (StronglySorted_lookup _ _ _ _ _ _ Hord Hlt Hj Hi) as HR. simpl in HR.
    rewrite less_Dependency_same_source in HR.
    + unfold less_Project, IsCode, IsExternalDependency in HR.
      rewrite Ha, Hb in HR. done.
    + rewrite (Hsrc a), (Hsrc b); [done|by eapply list_elem_of_lookup_2..].
Qed.

End ordering.

Section ordering_examples.
Import archer spec.
Local Existing Instance insertion_Sorter.

Lemma set_Type_length p t h : length (projs (set_Type p t h)) = length (projs h).
Proof. unfold set_Type. destruct (projs h !! p); simpl; [|done]. by rewrite length_insert. Qed.

Lemma listings_ordered_witness :
  ∃ ps h0 sorted,
    populate [("r", "zzz"); ("r", "aaa"); ("r", ":bar"); ("r", "foo")]
      NewProjects empty_heap = Ok (ps, h0)
    ∧ ListProjects ps FilterAll
        (set_Type 3 CodeType (set_Type 2 CodeType (set_Type 0 CodeType h0)))
      = Ok sorted.*1
    ∧ ordered (λ a b : nat * Project, less_Project a.2 b.2) sorted = true.
Proof.
  destruct (populate [("r", "zzz"); ("r", "aaa"); ("r", ":bar"); ("r", "foo")]
              NewProjects empty_heap) as [[ps h0]|] eqn:Hp; [|discriminate].
  destruct (populate_grows _ _ _ _ _ (registry_wf_new empty_heap) Hp) as [Hwf _].
  assert (Forall (λ P, Type_ P ≠ DatabaseType)
            (projs (set_Type 3 CodeType (set_Type 2 CodeType (set_Type 0 CodeType h0)))))
    as Htypes.
  { pose proof Hp as Hp'. vm_compute in Hp'. injection Hp' as _ <-.
    vm_compute. repeat constructor; discriminate. }
  set (h := set_Type 3 CodeType (set_Type 2 CodeType (set_Type 0 CodeType h0))) in *.
  assert (registry_wf ps h) as Hwfh.
  { apply (registry_wf_length ps h0); [done|]. subst h. by rewrite !set_Type_length. }
  destruct (listings_ordered insertion_Sorter insertion_sort_contract)
    as (_ & _ & _ & Hlist & _).
  destruct (Hlist ps h (map_to_list (all ps)).*2 FilterAll Hwfh (reflexivity _))
    as (vs & sorted & Hvs & Hall & HL & Hperm & Hord).
  exists ps, h0, sorted. split; [reflexivity|]. split; [exact HL|].
  apply Hord. left. intros x Hx.
  apply list_elem_of_fmap in Hx as (v & -> & Hv). rewrite Hperm in Hv.
  apply list_elem_of_In, filter_In in Hv as [Hv _]. apply list_elem_of_In, Hall in Hv.
  apply list_elem_of_lookup_2 in Hv. rewrite Forall_forall in Htypes. by apply Htypes.
Defined.

Example ListProjects_code_first :
  ∃ ps h0,
    populate [("r", "zzz"); ("r", "aaa"); ("r", ":bar"); ("r", "foo")]
      NewProjects empty_heap = Ok (ps, h0)
    ∧ ListProjects ps FilterAll
        (set_Type 3 CodeType (set_Type 2 CodeType (set_Type 0 CodeType h0)))
      = Ok [2; 3; 0; 1]%nat.
Proof. eexists _, _. split; by vm_compute. Qed.

(** The rule goes round in a circle once Database projects are listed
    with Code and ExternalDependency ones: it puts Code ["b"] before External
    ["a"], External ["a"] before Database ["a1"] (by name) and Database
    ["a1"] before Code ["b"] (by name), so no arrangement of the three
    is free of inversions, whatever [sort.Slice] does. With the library's
    insertion sort the result has an inversion whatever order the map is
    visited in; visited as ["a"], ["a1"], ["b"] the projects come out in
    that order, the External one before the Code one. *)
Lemma ListProjects_three_types_unordered :
  (map_to_list (all mixed_registry)).*2 ≡ₚ [0; 1; 2]%nat
  ∧ Type_ <$> projs mixed_heap = [CodeType; ExternalDependencyType; DatabaseType]
  ∧ Forall (λ l, ordered less_Project l = false) (permutations (projs mixed_heap))
  ∧ ListProjects_in [1; 2; 0]%nat FilterAll mixed_heap = Ok [1; 2; 0]%nat
  ∧ Forall (λ order,
        ∃ out nodes,
          ListProjects_in order FilterAll mixed_heap = Ok out
          ∧ mapM (load_project mixed_heap) out = Ok nodes
          ∧ ordered (λ a b : nat * Project, less_Project a.2 b.2) nodes = false)
      (permutations [0; 1; 2]%nat).
Proof.
  split; [vm_compute; apply perm_swap|]. split; [by vm_compute|].
  split; [vm_compute; repeat constructor|]. split; [by vm_compute|].
  repeat constructor; eexists _, _; (split; [by vm_compute|]); split; by vm_compute.
Qed.

End ordering_examples.

(* ===================================================================== *)
(** * The ordering of the listings is lost with Database projects (C4) *)
(* ===================================================================== *)

Section ordering_defect.
Import archer mysql spec.
Local Existing Instance insertion_Sorter.
Local Open Scope Z_scope.

(** C4. The code does not keep the promised order once a Database
    project is listed. The registry holds the two nodes of the design
    document's sorting test, the Code node ["zzz"] and the
    ExternalDependency node ["aaa"], and the MySQL importer reads one
    table ["b"] into it, a Database node. When the map is visited as
    ["aaa"], ["b"], ["zzz"], or as ["b"], ["aaa"], ["zzz"],
    [ListProjects] returns ["aaa"], ["b"], ["zzz"]: the
    ExternalDependency node before the Code node. The comparison closure
    puts ["zzz"] before ["aaa"] by type, ["aaa"] before ["b"] and ["b"]
    before ["zzz"] by name, so whatever order the map is visited in the
    result has a pair in the wrong order under the rule. *)
Theorem ListProjects_external_before_code :
  ∃ ps0 h0 ps h changedProjs,
    populate [("r", "zzz"); ("r", "aaa")] NewProjects empty_heap = Ok (ps0, h0)
    ∧ importTables_rows [Row (mkTableInfo "db" "b" 1 1 1)]
        (ps0, set_Type 0 CodeType h0, [])
      = Ok (None, (ps, h, changedProjs))
    ∧ Name <$> projs h = ["zzz"; "aaa"; "b"]
    ∧ Type_ <$> projs h = [CodeType; ExternalDependencyType; DatabaseType]
    ∧ (map_to_list (all ps)).*2 ≡ₚ [0; 1; 2]%nat
    ∧ ListProjects_in [1; 2; 0]%nat FilterAll h = Ok [1; 2; 0]%nat
    ∧ ListProjects_in [2; 1; 0]%nat FilterAll h = Ok [1; 2; 0]%nat
    ∧ (∀ zzz aaa b, projs h = [zzz; aaa; b] →
         less_Project zzz aaa = true ∧ less_Project aaa b = true
         ∧ less_Project b zzz = true)
    ∧ Forall (λ order,
          ∃ out nodes,
            ListProjects_in order FilterAll h = Ok out
            ∧ mapM (load_project h) out = Ok nodes
            ∧ ordered (λ a b : nat * Project, less_Project a.2 b.2) nodes = false)
        (permutations [0; 1; 2]%nat).
Proof.
  eexists _, _, _, _, _. split; [by vm_compute|]. split; [by vm_compute|].
  split; [by vm_compute|]. split; [by vm_compute|].
  split; [vm_compute; apply perm_swap|].
  split; [by vm_compute|]. split; [by vm_compute|]. split.
  - intros zzz aaa b [= <- <- <-]. by vm_compute.
  - repeat constructor; eexists _, _; (split; [by vm_compute|]); split; by vm_compute.
Qed.

End ordering_defect.

(* ===================================================================== *)
(** * Instances of the properties on small inputs *)
(* ===================================================================== *)

Section instances.
Import regexp archer gradle spec.

Lemma config_stores_contract_witness :
  let p := NewProject "r" "app" in
  let p1 := (Project_SetConfig p "ignore" "true").2 in
  (Project_SetConfig p "ignore" "true").1 = true
  ∧ Project_GetConfig p1 "ignore" = "true"
  ∧ Project_SetConfig p1 "ignore" "true" = (false, p1)
  ∧ Project_GetConfig (Project_SetConfig p1 "ignore" "").2 "ignore" = "".
Proof.
  intros p p1. destruct config_stores_contract as [HP _].
  destruct (set_value _ _ _ HP p "ignore" "true") as [Hret Hcfg]; [done..|].
  assert (Project_GetConfig p1 "ignore" = "true") as Hget.
  { apply (get_stored _ _ _ HP). subst p1. rewrite Hcfg. apply lookup_insert_eq. }
  split; [exact Hret|]. split; [exact Hget|].
  split; [by apply (set_same _ _ _ HP)|]. apply (set_empty_get _ _ _ HP).
Defined.

Lemma SimpleName_collapses_witness :
  let p := mkProject "r" "faire:faire-sub:faire-sub-x" ["faire"; "faire-sub"; "faire-sub-x"]
             CodeType "" "" "" ∅ ∅ ∅ "" in
  ∃ out, collapses (NameParts p) out
         ∧ (strings.len (SimpleName p) ≤ strings.len (Name p))%nat.
Proof.
  intros p. destruct (SimpleName_collapses p) as (_ & _ & Hparts & Hlen).
  destruct Hparts as (out & Hout & _); [done|].
  exists out. split; [exact Hout|exact Hlen].
Defined.

Lemma parseProjects_lists_witness :
  let content := "Gradle" +:+ strings.nl +:+ "Root project 'app'" +:+ strings.nl
                 +:+ "+--- Project 'core'" +:+ strings.nl in
  ∃ names, parseProjects content = (names, None) ∧ head names = Some "app".
Proof.
  intros content. destruct parseProjects_lists as [Hall _].
  destruct (Hall content) as (names & Hp & _ & _ & Hfirst).
  exists names. split; [exact Hp|].
  apply (Hfirst ["Gradle"] "Root project 'app'" "app" ["+--- Project 'core'"; ""]).
  - by vm_compute.
  - by split.
  - intros x ->%list_elem_of_singleton n (pre & Heq & Hne & Hpre & _).
    destruct pre as [|c pre]; [done|]. rewrite String_app_cons in Heq.
    simpl in Hpre. apply andb_true_iff in Hpre as [Hc _]. by simplify_eq.
  - intros x ->%list_elem_of_singleton n (Heq & _). discriminate.
Defined.

End instances.

Section listing_examples.
Import regexp archer gradle spec.
Local Existing Instance insertion_Sorter.

(** The edges of [:app] after a parse, with [:zeta] and [:core] typed as
    Code: the Code targets come first, by name, then the external one;
    the filter drops the external one. *)
Example ListDependencies_of_app :
  ∃ ps h,
    parseDeps NewProjects
      (strings.Join ["Root project ':app'"; "+--- com.x:lib:1.0"; "+--- project :zeta";
                     "|    \--- com.y:z:1"; "\--- project :core"; ""] strings.nl)
      "r" empty_heap = Ok (None, ps, h)
    ∧ Name <$> projs h = [":app"; "com.x:lib:1.0"; ":zeta"; "com.y:z:1"; ":core"]
    ∧ Target <$> deps h = [1; 2; 3; 4]%nat
    ∧ ListDependencies 0 FilterAll (set_Type 2 CodeType (set_Type 4 CodeType h))
      = Ok [3; 1; 0]%nat
    ∧ ListDependencies 0 FilterExcludeExternal
        (set_Type 2 CodeType (set_Type 4 CodeType h))
      = Ok [3; 1]%nat.
Proof.
  eexists _, _. split; [by vm_compute|]. split; [by vm_compute|].
  split; [by vm_compute|]. split; by vm_compute.
Qed.

End listing_examples.

(* ===================================================================== *)
(** * Size buckets of a project: [AddSize], [GetSizeOf], [GetSize] *)
(* ===================================================================== *)

Section size_buckets.
Import archer spec.
Local Open Scope Z_scope.

Lemma merge_counts_swap (g a b : gmap string Z) :
  merge_counts (merge_counts g a) b = merge_counts (merge_counts g b) a.
Proof.
  apply map_eq. intros k. rewrite !lookup_merge_counts.
  destruct (a !! k) as [x|], (b !! k) as [y|]; simpl; try done.
  f_equal. rewrite !wrap_add_l. f_equal. lia.
Qed.

Lemma total_insert (f : Size → Z) (m : gmap string Size) (n : string) (s : Size) :
  m !! n = None → total f (<[n := s]> m) = f s + total f m.
Proof.
  intros Hn. unfold total. rewrite map_fold_insert_L; [done| |done].
  intros. lia.
Qed.

Lemma merged_insert (m : gmap string Size) (n : string) (s : Size) :
  m !! n = None →
  merged (<[n := s]> m) = merge_counts (merged m) (default ∅ (Other s)).
Proof.
  intros Hn. unfold merged. rewrite map_fold_insert_L; [done| |done].
  intros. apply merge_counts_swap.
Qed.

(** The loop of [GetSize] in closed form: the receiver of every [Add]
    is the running total, whose map is never [nil]. *)
Lemma GetSize_closed (p : Project) :
  GetSize p = Ok {| Lines := wrap (total Lines (size p));
                    Files := wrap (total Files (size p));
                    Bytes := wrap (total Bytes (size p));
                    Other := Some (merged (size p)) |}.
Proof.
  unfold GetSize. generalize (size p). intros m.
  apply (map_fold_weak_ind (λ r m, r = Ok {| Lines := wrap (total Lines m);
                    Files := wrap (total Files m);
                    Bytes := wrap (total Bytes m);
                    Other := Some (merged m) |})).
  - done.
  - intros n s m' r Hn ->. rewrite bind_Ok.
    erewrite Size_Add_Some by done. simpl.
    rewrite !total_insert, merged_insert by done.
    rewrite !wrap_add_l. do 2 f_equal; f_equal; lia.
Qed.

Lemma merged_lookup (m : gmap string Size) (k : string) :
  default 0 (merged m !! k) = wrap (total (λ v, map_get (Other v) k) m).
Proof.
  induction m as [|n s m Hn _ IH] using map_first_key_ind.
  - done.
  - rewrite merged_insert, total_insert, lookup_merge_counts by done.
    destruct (Other s) as [o|] eqn:Ho; simpl.
    + destruct (o !! k) as [v|] eqn:Hv; simpl.
      * rewrite IH, wrap_add_l. f_equal. lia.
      * by rewrite IH.
    + by rewrite lookup_empty, IH.
Qed.

Lemma merged_is_Some (m : gmap string Size) (k : string) :
  is_Some (merged m !! k)
  ↔ ∃ n v o, m !! n = Some v ∧ Other v = Some o ∧ is_Some (o !! k).
Proof.
  induction m as [|n s m Hn _ IH] using map_first_key_ind.
  - split; [by intros [? ?]|]. by intros (n & v & o & Hm & _).
  - rewrite merged_insert, lookup_merge_counts by done. split.
    + destruct (default ∅ (Other s) !! k) as [x|] eqn:Hx.
      * intros _. destruct (Other s) as [o|] eqn:Ho; [|done].
        exists n, s, o. rewrite lookup_insert_eq. eauto.
      * intros H. apply IH in H as (n' & v & o & Hm & Ho & Hk).
        exists n', v, o. rewrite lookup_insert_ne by congruence. done.
    + intros (n' & v & o & Hm & Ho & Hk).
      destruct (decide (n = n')) as [<-|Hne].
      * rewrite lookup_insert_eq in Hm. simplify_eq. rewrite Ho. simpl.
        destruct Hk as [x ->]. done.
      * rewrite lookup_insert_ne in Hm by done.
        destruct (default ∅ (Other s) !! k); [done|]. apply IH.
        by exists n', v, o.
Qed.

Lemma merged_is_int (m : gmap string Size) (k : string) (v : Z) :
  merged m !! k = Some v → is_int v.
Proof.
  induction m as [|n s m Hn _ IH] using map_first_key_ind.
  - done.
  - rewrite merged_insert, lookup_merge_counts by done.
    destruct (default ∅ (Other s) !! k); [|done].
    intros [= <-]. apply wrap_is_int.
Qed.

(** X1. A size stored with [AddSize] is what [GetSizeOf] returns for
    that category, the other categories and the other fields of the
    project are untouched, and storing again replaces the earlier
    value. For a category never stored [GetSizeOf] returns zero counters
    with an allocated [Other] map, so it can receive an [Add]. *)
Theorem AddSize_GetSizeOf (p : Project) (name : string) (s : Size) :
  GetSizeOf (AddSize p name s) name = s
  ∧ (∀ other, other ≠ name → GetSizeOf (AddSize p name s) other = GetSizeOf p other)
  ∧ (∀ s0, AddSize (AddSize p name s0) name s = AddSize p name s)
  ∧ set_size (AddSize p name s) (size p) = p
  ∧ (size p !! name = None →
       GetSizeOf p name = {| Lines := 0; Files := 0; Bytes := 0; Other := Some ∅ |}
       ∧ ∀ x, ∃ r, Size_Add (GetSizeOf p name) x = Ok r).
Proof.
  unfold GetSizeOf, AddSize. destruct p; simpl. repeat split.
  - by rewrite lookup_insert_eq.
  - intros other Hne. by rewrite lookup_insert_ne.
  - intros s0. unfold set_size; simpl. by rewrite insert_insert_eq.
  - by rewrite H.
  - intros x. rewrite H. erewrite Size_Add_Some by done. eauto.
Qed.

(** X2. [GetSize] never panics, also when buckets were stored with a
    [nil] [Other] map: it returns the sum, wrapped to Go's [int], of
    each counter over all the buckets of the project, and an allocated
    [Other] map holding, for every key some bucket has, the wrapped sum
    of that key over the buckets. *)
Theorem GetSize_sums (p : Project) :
  ∃ r g,
    GetSize p = Ok r
    ∧ Other r = Some g
    ∧ Lines r = wrap (total Lines (size p))
    ∧ Files r = wrap (total Files (size p))
    ∧ Bytes r = wrap (total Bytes (size p))
    ∧ (∀ k, default 0 (g !! k) = wrap (total (λ v, map_get (Other v) k) (size p)))
    ∧ (∀ k, is_Some (g !! k)
            ↔ ∃ n v o, size p !! n = Some v ∧ Other v = Some o ∧ is_Some (o !! k))
    ∧ Size_ok r
    ∧ (size p = ∅ → r = {| Lines := 0; Files := 0; Bytes := 0; Other := Some ∅ |}).
Proof.
  eexists _, _. split; [apply GetSize_closed|]. simpl.
  split; [done|]. do 3 (split; [done|]).
  split; [apply merged_lookup|].
  split; [apply merged_is_Some|].
  split.
  - unfold Size_ok; simpl. do 3 (split; [apply wrap_is_int|]).
    intros g0 k v [= <-]. apply merged_is_int.
  - by intros ->.
Qed.

(** X3. Storing a size under a category replaces that category's share
    of the total: [GetSize] after [AddSize(name, s)] is the total of the
    other categories with [s] added, so re-adding a category does not
    count it twice, and for a new category it is the former total with
    [s] added. *)
Theorem GetSize_AddSize (p : Project) (name : string) (s : Size) :
  GetSize (AddSize p name s)
  = (r ← GetSize (set_size p (delete name (size p))); Size_Add r s)
  ∧ (∀ s0, GetSize (AddSize (AddSize p name s0) name s) = GetSize (AddSize p name s))
  ∧ (size p !! name = None →
       GetSize (AddSize p name s) = (r ← GetSize p; Size_Add r s)).
Proof.
  assert (Hdel : GetSize (AddSize p name s)
                 = (r ← GetSize (set_size p (delete name (size p))); Size_Add r s)).
  { rewrite !GetSize_closed, bind_Ok. erewrite Size_Add_Some by done.
    unfold AddSize; simpl. rewrite <- insert_delete_eq.
    rewrite !total_insert, merged_insert by apply lookup_delete_eq.
    rewrite !wrap_add_l. do 2 f_equal; f_equal; lia. }
  repeat split.
  - done.
  - intros s0. rewrite !GetSize_closed. unfold AddSize; simpl.
    by rewrite insert_insert_eq.
  - intros Hn. rewrite Hdel. rewrite delete_id by done. by destruct p.
Qed.

End size_buckets.
(* ===================================================================== *)
(** * Sequences of configuration updates *)
(* ===================================================================== *)

Section configuration_updates.
Import archer spec.

Lemma Project_SetConfig_get (p : Project) (k v k' : string) :
  Project_GetConfig (Project_SetConfig p k v).2 k'
  = if decide (k = k') then v else Project_GetConfig p k'.
Proof.
  unfold Project_SetConfig. destruct (decide (Project_GetConfig p k = v)) as [Hv|Hv].
  - simpl. case_decide; congruence.
  - unfold Project_GetConfig.
    destruct (decide (v = "")) as [->|Hne]; simpl; case_decide; subst.
    + by rewrite lookup_delete_eq.
    + by rewrite lookup_delete_ne.
    + by rewrite lookup_insert_eq.
    + by rewrite lookup_insert_ne.
Qed.

Lemma Dependency_SetConfig_get (d : Dependency) (k v k' : string) :
  Dependency_GetConfig (Dependency_SetConfig d k v).2 k'
  = if decide (k = k') then v else Dependency_GetConfig d k'.
Proof.
  unfold Dependency_SetConfig.
  destruct (decide (Dependency_GetConfig d k = v)) as [Hv|Hv].
  - simpl. case_decide; congruence.
  - unfold Dependency_GetConfig.
    destruct (decide (v = "")) as [->|Hne]; simpl; case_decide; subst.
    + by rewrite lookup_delete_eq.
    + by rewrite lookup_delete_ne.
    + by rewrite lookup_insert_eq.
    + by rewrite lookup_insert_ne.
Qed.

Lemma Project_SetConfig_no_empty (p : Project) (k v : string) :
  no_empty_value (config p) → no_empty_value (config (Project_SetConfig p k v).2).
Proof.
  intros Hp. unfold Project_SetConfig.
  destruct (decide (Project_GetConfig p k = v)); [done|].
  destruct (decide (v = "")) as [->|Hne]; simpl; intros j.
  - destruct (decide (k = j)) as [<-|?].
    + by rewrite lookup_delete_eq.
    + rewrite lookup_delete_ne by done. apply Hp.
  - destruct (decide (k = j)) as [<-|?].
    + rewrite lookup_insert_eq. congruence.
    + rewrite lookup_insert_ne by done. apply Hp.
Qed.

Lemma Dependency_SetConfig_no_empty (d : Dependency) (k v : string) :
  no_empty_value (dconfig d) → no_empty_value (dconfig (Dependency_SetConfig d k v).2).
Proof.
  intros Hp. unfold Dependency_SetConfig.
  destruct (decide (Dependency_GetConfig d k = v)); [done|].
  destruct (decide (v = "")) as [->|Hne]; simpl; intros j.
  - destruct (decide (k = j)) as [<-|?].
    + by rewrite lookup_delete_eq.
    + rewrite lookup_delete_ne by done. apply Hp.
  - destruct (decide (k = j)) as [<-|?].
    + rewrite lookup_insert_eq. congruence.
    + rewrite lookup_insert_ne by done. apply Hp.
Qed.

Lemma no_empty_value_present (c : gmap string string) (k : string) :
  no_empty_value c → (is_Some (c !! k) ↔ default "" (c !! k) ≠ "").
Proof.
  intros Hc. specialize (Hc k). destruct (c !! k) as [v|]; simpl.
  - split; [congruence|eauto].
  - split; [by intros [? ?]|done].
Qed.

Lemma Project_configure_get (calls : list (string * string)) (p : Project) (k : string) :
  Project_GetConfig (Project_configure p calls) k
  = last_assigned k calls (Project_GetConfig p k).
Proof.
  unfold Project_configure, last_assigned. revert p.
  induction calls as [|[k0 v0] calls IH]; intros p; simpl; [done|].
  by rewrite IH, Project_SetConfig_get.
Qed.

Lemma Dependency_configure_get (calls : list (string * string)) (d : Dependency)
    (k : string) :
  Dependency_GetConfig (Dependency_configure d calls) k
  = last_assigned k calls (Dependency_GetConfig d k).
Proof.
  unfold Dependency_configure, last_assigned. revert d.
  induction calls as [|[k0 v0] calls IH]; intros d; simpl; [done|].
  by rewrite IH, Dependency_SetConfig_get.
Qed.

Lemma Project_configure_no_empty (calls : list (string * string)) (p : Project) :
  no_empty_value (config p) → no_empty_value (config (Project_configure p calls)).
Proof.
  unfold Project_configure. revert p.
  induction calls as [|[k0 v0] calls IH]; intros p Hne; simpl; [done|].
  apply (IH (Project_SetConfig p k0 v0).2). by apply Project_SetConfig_no_empty.
Qed.

Lemma Dependency_configure_no_empty (calls : list (string * string)) (d : Dependency) :
  no_empty_value (dconfig d) → no_empty_value (dconfig (Dependency_configure d calls)).
Proof.
  unfold Dependency_configure. revert d.
  induction calls as [|[k0 v0] calls IH]; intros d Hne; simpl; [done|].
  apply (IH (Dependency_SetConfig d k0 v0).2). by apply Dependency_SetConfig_no_empty.
Qed.

(** X4. After any sequence of [SetConfig] calls, on a project or on a
    dependency, [GetConfig(k)] is the value of the last call for [k],
    or what it was before when no call names [k]: calls for other keys
    do not interfere. The store never holds an empty string when it did
    not at the start, as after [NewProject] and [AddDependency]: a key
    is then present exactly when [GetConfig] is not empty. *)
Theorem SetConfig_last_write (calls : list (string * string)) (k : string) :
  (∀ p, Project_GetConfig (Project_configure p calls) k
        = last_assigned k calls (Project_GetConfig p k))
  ∧ (∀ d, Dependency_GetConfig (Dependency_configure d calls) k
          = last_assigned k calls (Dependency_GetConfig d k))
  ∧ (∀ p, no_empty_value (config p) →
       (is_Some (config (Project_configure p calls) !! k)
        ↔ Project_GetConfig (Project_configure p calls) k ≠ ""))
  ∧ (∀ d, no_empty_value (dconfig d) →
       (is_Some (dconfig (Dependency_configure d calls) !! k)
        ↔ Dependency_GetConfig (Dependency_configure d calls) k ≠ ""))
  ∧ (∀ root name,
       is_Some (config (Project_configure (NewProject root name) calls) !! k)
       ↔ last_assigned k calls "" ≠ "").
Proof.
  split; [intros p; apply Project_configure_get|].
  split; [intros d; apply Dependency_configure_get|].
  split.
  { intros p Hne. by apply no_empty_value_present, Project_configure_no_empty. }
  split.
  { intros d Hne. by apply no_empty_value_present, Dependency_configure_no_empty. }
  intros root name.
  change "" with (Project_GetConfig (NewProject root name) k) at 1.
  rewrite <- Project_configure_get.
  apply no_empty_value_present, Project_configure_no_empty.
  intros j. simpl. by rewrite lookup_empty.
Qed.

(** X5. The flag [SetConfig] returns tells whether the store changed:
    it is [true] exactly when the configuration map after the call
    differs from the one before, and when it is [false] the receiver is
    unchanged; no other field is ever touched. *)
Theorem SetConfig_reports_change (k v : string) :
  (∀ p, ((Project_SetConfig p k v).1 = true
         ↔ config (Project_SetConfig p k v).2 ≠ config p)
        ∧ ((Project_SetConfig p k v).1 = false → (Project_SetConfig p k v).2 = p)
        ∧ set_config (Project_SetConfig p k v).2 (config p) = p)
  ∧ (∀ d, ((Dependency_SetConfig d k v).1 = true
           ↔ dconfig (Dependency_SetConfig d k v).2 ≠ dconfig d)
          ∧ ((Dependency_SetConfig d k v).1 = false → (Dependency_SetConfig d k v).2 = d)
          ∧ set_dconfig (Dependency_SetConfig d k v).2 (dconfig d) = d).
Proof.
  split.
  - intros p. unfold Project_SetConfig, Project_GetConfig.
    destruct (decide (default "" (config p !! k) = v)) as [Hv|Hv]; simpl.
    { split; [split; [done|congruence]|]. split; [done|]. by destruct p. }
    destruct (decide (v = "")) as [->|Hne]; simpl.
    + split; [|split; [done|by destruct p]].
      split; [|done]. intros _ Heq.
      apply (f_equal (λ c, c !! k)) in Heq. rewrite lookup_delete_eq in Heq.
      by rewrite <- Heq in Hv.
    + split; [|split; [done|by destruct p]].
      split; [|done]. intros _ Heq.
      apply (f_equal (λ c, c !! k)) in Heq. rewrite lookup_insert_eq in Heq.
      by rewrite <- Heq in Hv.
  - intros d. unfold Dependency_SetConfig, Dependency_GetConfig.
    destruct (decide (default "" (dconfig d !! k) = v)) as [Hv|Hv]; simpl.
    { split; [split; [done|congruence]|]. split; [done|]. by destruct d. }
    destruct (decide (v = "")) as [->|Hne]; simpl.
    + split; [|split; [done|by destruct d]].
      split; [|done]. intros _ Heq.
      apply (f_equal (λ c, c !! k)) in Heq. rewrite lookup_delete_eq in Heq.
      by rewrite <- Heq in Hv.
    + split; [|split; [done|by destruct d]].
      split; [|done]. intros _ Heq.
      apply (f_equal (λ c, c !! k)) in Heq. rewrite lookup_insert_eq in Heq.
      by rewrite <- Heq in Hv.
Qed.

End configuration_updates.
(* ===================================================================== *)
(** * Names: what is kept of the parts, and [FullName] *)
(* ===================================================================== *)

Section names.
Import archer spec.

(** A text is cut in one way only at the first occurrence of a byte. *)
Lemma first_byte_unique (c : ascii) (a1 a2 r1 r2 : string) :
  strings.contains_byte a1 c = false → strings.contains_byte a2 c = false →
  a1 +:+ String c r1 = a2 +:+ String c r2 → a1 = a2 ∧ r1 = r2.
Proof.
  revert a2. induction a1 as [|x a1 IH]; intros [|y a2] H1 H2 Heq.
  - rewrite !String_app_nil_l in Heq. by simplify_eq.
  - rewrite String_app_nil_l, String_app_cons in Heq. simplify_eq.
    simpl in H2. by rewrite Ascii.eqb_refl in H2.
  - rewrite String_app_nil_l, String_app_cons in Heq. simplify_eq.
    simpl in H1. by rewrite Ascii.eqb_refl in H1.
  - rewrite !String_app_cons in Heq. simplify_eq. simpl in H1, H2.
    destruct (Ascii.eqb y c); [done|].
    destruct (IH a2 H1 H2) as [-> ->]; done.
Qed.

Lemma contains_byte_first (s : string) (c : ascii) :
  strings.contains_byte s c = true →
  ∃ a b, s = a +:+ String c b ∧ strings.contains_byte a c = false.
Proof.
  induction s as [|x s IH]; simpl; [done|].
  destruct (Ascii.eqb x c) eqn:Hx.
  - intros _. apply Ascii.eqb_eq in Hx as ->. by exists "", s.
  - intros H. destruct (IH H) as (a & b & -> & Ha).
    exists (String x a), b. simpl. by rewrite Hx.
Qed.

Lemma simplifyPrefixes_cons (p0 : string) (rest : list string) :
  simplifyPrefixes (p0 :: rest) = p0 :: rest
  ∨ (rest ≠ [] ∧ simplifyPrefixes (p0 :: rest) = simplifyPrefixes rest).
Proof.
  destruct rest as [|p1 rest]; simpl; [by left|].
  destruct (strings.HasPrefix p1 p0); [by right|by left].
Qed.

Lemma simplifyPrefixes_fixed (parts : list string) :
  simplifyPrefixes (simplifyPrefixes parts) = simplifyPrefixes parts.
Proof.
  induction parts as [|p0 [|p1 rest] IH]; try done.
  change (simplifyPrefixes (p0 :: p1 :: rest))
    with (if strings.HasPrefix p1 p0 then simplifyPrefixes (p1 :: rest)
          else p0 :: p1 :: rest).
  destruct (strings.HasPrefix p1 p0) eqn:Hp; [done|].
  simpl. by rewrite Hp.
Qed.

Lemma simplifyPrefixes_is_suffix (parts : list string) :
  ∃ dropped, parts = dropped ++ simplifyPrefixes parts.
Proof.
  induction parts as [|p0 rest IH]; [by exists []|].
  destruct (simplifyPrefixes_cons p0 rest) as [->|[_ ->]]; [by exists []|].
  destruct IH as [dropped Hd]. exists (p0 :: dropped). simpl. by rewrite <- Hd.
Qed.

Lemma simplifyPrefixes_nil (parts : list string) :
  simplifyPrefixes parts = [] ↔ parts = [].
Proof.
  split; [|by intros ->].
  induction parts as [|p0 rest IH]; [done|].
  destruct (simplifyPrefixes_cons p0 rest) as [->|[Hne ->]]; [done|].
  intros H. by apply IH in H.
Qed.

Lemma simplifyPrefixes_last (parts : list string) :
  last (simplifyPrefixes parts) = last parts.
Proof.
  induction parts as [|p0 rest IH]; [done|].
  destruct (simplifyPrefixes_cons p0 rest) as [->|[Hne ->]]; [done|].
  rewrite IH. by destruct rest.
Qed.

Lemma simplifyPrefixes_head (parts : list string) (p0 p1 : string) (rest : list string) :
  simplifyPrefixes parts = p0 :: p1 :: rest → strings.HasPrefix p1 p0 = false.
Proof.
  induction parts as [|q0 [|q1 qs] IH]; try done.
  change (simplifyPrefixes (q0 :: q1 :: qs))
    with (if strings.HasPrefix q1 q0 then simplifyPrefixes (q1 :: qs)
          else q0 :: q1 :: qs).
  destruct (strings.HasPrefix q1 q0) eqn:Hq; [done|].
  intros [= <- <- <-]. done.
Qed.

(** X6. [simplifyPrefixes] returns a suffix of the parts; it keeps the
    last part, so it returns an empty slice only for an empty one; in
    what it returns the second part does not start with the first; and
    applying it again changes nothing. [SimpleName] is hence [Name], or
    the parts of a non-empty suffix of [NameParts] joined by [":"] when
    that is shorter. *)
Theorem simplifyPrefixes_suffix (parts : list string) :
  (∃ dropped, parts = dropped ++ simplifyPrefixes parts)
  ∧ last (simplifyPrefixes parts) = last parts
  ∧ (simplifyPrefixes parts = [] ↔ parts = [])
  ∧ (∀ p0 p1 rest, simplifyPrefixes parts = p0 :: p1 :: rest →
       strings.HasPrefix p1 p0 = false)
  ∧ simplifyPrefixes (simplifyPrefixes parts) = simplifyPrefixes parts
  ∧ (∀ p, NameParts p = parts →
       SimpleName p = Name p
       ∨ ∃ dropped kept,
           parts = dropped ++ kept ∧ kept ≠ []
           ∧ SimpleName p = strings.Join kept ":"
           ∧ (strings.len (SimpleName p) < strings.len (Name p))%nat).
Proof.
  split; [apply simplifyPrefixes_is_suffix|].
  split; [apply simplifyPrefixes_last|].
  split; [apply simplifyPrefixes_nil|].
  split; [apply simplifyPrefixes_head|].
  split; [apply simplifyPrefixes_fixed|].
  intros p <-. unfold SimpleName, LevelSimpleName.
  destruct (decide (length (NameParts p) = 0)) as [|Hlen]; [by left|].
  destruct (decide (0 > 0)%Z) as [|_]; [lia|].
  destruct (decide (strings.len (Name p)
                    ≤ strings.len (strings.Join (simplifyPrefixes (NameParts p)) ":"))%nat)
    as [|Hlt]; [by left|].
  right. destruct (simplifyPrefixes_is_suffix (NameParts p)) as [dropped Hd].
  exists dropped, (simplifyPrefixes (NameParts p)).
  split; [done|]. split; [|split; [done|lia]].
  rewrite simplifyPrefixes_nil. by destruct (NameParts p).
Qed.

(** X7. [FullName] tells projects apart whose roots have no [":"]: two
    such projects with the same [FullName] have the same [Root] and the
    same [Name]. *)
Theorem FullName_injective (p q : Project) :
  no_colon (Root p) → no_colon (Root q) → FullName p = FullName q →
  Root p = Root q ∧ Name p = Name q.
Proof.
  unfold FullName. intros Hp Hq Heq.
  by apply (first_byte_unique ":"%char) in Heq.
Qed.

Lemma FullName_injective_witness :
  let p := NewProject "r" ":app" in
  let q := AddSize (NewProject "r" ":app") "table" Size_zero in
  Root p = Root q ∧ Name p = Name q.
Proof.
  apply (FullName_injective (NewProject "r" ":app")
           (AddSize (NewProject "r" ":app") "table" Size_zero));
    reflexivity.
Defined.

End names.
(* ===================================================================== *)
(** * The registry: lookups after [Get], identity of nodes *)
(* ===================================================================== *)

Section registry_nodes.
Import archer spec.

Lemma Get_cases ps root name h p ps' h' :
  Get ps root name h = Ok (p, ps', h') →
  root ≠ "" ∧ name ≠ ""
  ∧ ((all ps !! key root name = Some p ∧ ps' = ps ∧ h' = h)
     ∨ (all ps !! key root name = None ∧ p = length (projs h)
        ∧ ps' = {| all := <[key root name := p]> (all ps) |}
        ∧ h' = {| projs := projs h ++ [NewProject root name]; deps := deps h |})).
Proof.
  intros HG. destruct (Get_Ok_inv _ _ _ _ _ _ _ HG) as [Hr Hn].
  split; [done|]. split; [done|].
  destruct (all ps !! key root name) as [q|] eqn:Hk.
  - rewrite (Get_found _ _ _ _ q) in HG by done. simplify_eq. by left.
  - rewrite Get_fresh in HG by done. simplify_eq. by right.
Qed.

(** Keys with newline-free roots are cut in one way only. *)
Lemma key_inj_roots (r1 n1 r2 n2 : string) :
  no_newline r1 → no_newline r2 → key r1 n1 = key r2 n2 → r1 = r2 ∧ n1 = n2.
Proof. intros H1 H2 Heq. by apply (first_byte_unique "010"%char) in Heq. Qed.

Lemma key_inj_plain (r1 n1 r2 n2 : string) :
  no_newline r1 → no_newline n1 → key r2 n2 = key r1 n1 → r2 = r1 ∧ n2 = n1.
Proof.
  intros H1 Hn Heq.
  destruct (strings.contains_byte r2 "010"%char) eqn:H2.
  - apply contains_byte_first in H2 as (a & b & -> & Ha).
    unfold key in Heq. rewrite String_app_assoc, String_app_cons in Heq.
    apply (first_byte_unique "010"%char) in Heq as [-> <-]; [|done|done].
    unfold no_newline in Hn. rewrite !contains_byte_app in Hn.
    simpl in Hn. by rewrite orb_true_r in Hn.
  - by apply (first_byte_unique "010"%char) in Heq.
Qed.

Lemma registry_named_new (h : Heap) : registry_named NewProjects h.
Proof. intros k p H. simpl in H. by rewrite lookup_empty in H. Qed.

Lemma Get_named ps root name h p ps' h' :
  registry_named ps h → Get ps root name h = Ok (p, ps', h') →
  registry_named ps' h'.
Proof.
  intros Hn HG.
  destruct (Get_cases _ _ _ _ _ _ _ HG) as (_ & _ & [(Hk & -> & ->)|(Hk & -> & -> & ->)]);
    [done|].
  intros k q; simpl. destruct (decide (key root name = k)) as [<-|Hne].
  - rewrite lookup_insert_eq. intros [= <-]. exists (NewProject root name).
    by rewrite lookup_app_r, Nat.sub_diag by lia.
  - rewrite lookup_insert_ne by done. intros Hq.
    destruct (Hn _ _ Hq) as (P & HP & HkP). exists P.
    by rewrite lookup_app_l by (by eapply lookup_lt_Some).
Qed.

Lemma populate_named calls ps h ps' h' :
  registry_named ps h → populate calls ps h = Ok (ps', h') → registry_named ps' h'.
Proof.
  revert ps h. induction calls as [|[root name] calls IH]; intros ps h Hn Hp; simpl in Hp.
  - by simplify_eq.
  - destruct (Get ps root name h) as [[[p ps1] h1]|] eqn:HG; [|done].
    rewrite bind_Ok in Hp. eapply IH; [|done]. by eapply Get_named.
Qed.

(** X8. After [Get(root, name)], [GetOrNil] of the key [root], ["\n"],
    [name] returns the node [Get] returned; every other key is looked
    up as before, the objects allocated before are unchanged and no
    edge is added; when the key was present nothing changes at all. *)
Theorem Get_then_GetOrNil ps root name h p ps' h' :
  Get ps root name h = Ok (p, ps', h') →
  GetOrNil ps' (root +:+ strings.nl +:+ name) = Ok (Some p)
  ∧ (∀ k, k ≠ root +:+ strings.nl +:+ name → GetOrNil ps' k = GetOrNil ps k)
  ∧ (∀ q Q, projs h !! q = Some Q → projs h' !! q = Some Q)
  ∧ deps h' = deps h
  ∧ (is_Some (all ps !! (root +:+ strings.nl +:+ name)) → ps' = ps ∧ h' = h)
  ∧ (all ps !! (root +:+ strings.nl +:+ name) = None →
       projs h' = projs h ++ [NewProject root name] ∧ p = length (projs h)).
Proof.
  intros HG. destruct (Get_cases _ _ _ _ _ _ _ HG) as (Hr & Hn & Hc).
  assert (Hkey : root +:+ strings.nl +:+ name ≠ "").
  { destruct root; [done|]. by rewrite String_app_cons. }
  unfold GetOrNil. fold (key root name) in *.
  destruct Hc as [(Hk & -> & ->)|(Hk & -> & -> & ->)]; simpl.
  - rewrite decide_False by (by rewrite String_length_zero).
    rewrite Hk. repeat split; done.
  - rewrite decide_False by (by rewrite String_length_zero).
    rewrite lookup_insert_eq. split; [done|]. split.
    { intros k Hne. by rewrite lookup_insert_ne. }
    split.
    { intros q Q HQ. by rewrite lookup_app_l by (by eapply lookup_lt_Some). }
    split; [done|]. split; [|done].
    rewrite Hk. by intros [? ?].
Qed.

Lemma Get_then_GetOrNil_witness :
  ∃ p ps' h',
    Get NewProjects "r" ":app" empty_heap = Ok (p, ps', h')
    ∧ GetOrNil ps' ("r" +:+ strings.nl +:+ ":app") = Ok (Some p).
Proof.
  eexists _, _, _. split; [reflexivity|].
  eapply (Get_then_GetOrNil NewProjects "r" ":app" empty_heap). reflexivity.
Defined.

(** X9. Two [Get] calls on a well-formed registry, with any further
    [Get] calls between them, return the same node exactly when they
    name the same root and the same name, provided the roots have no
    newline. *)
Theorem Get_same_node_iff ps h r1 n1 r2 n2 calls p1 ps1 h1 ps2 h2 p2 ps3 h3 :
  registry_wf ps h → no_newline r1 → no_newline r2 →
  Get ps r1 n1 h = Ok (p1, ps1, h1) →
  populate calls ps1 h1 = Ok (ps2, h2) →
  Get ps2 r2 n2 h2 = Ok (p2, ps3, h3) →
  (p1 = p2 ↔ r1 = r2 ∧ n1 = n2).
Proof.
  intros Hwf Hr1 Hr2 HG1 Hpop HG2.
  destruct (Get_grows _ _ _ _ _ _ _ Hwf HG1) as (Hwf1 & Hk1 & _ & _).
  destruct (populate_grows _ _ _ _ _ Hwf1 Hpop) as (Hwf2 & Hsub2).
  destruct (Get_grows _ _ _ _ _ _ _ Hwf2 HG2) as (Hwf3 & Hk2 & Hsub3 & _).
  apply Hsub2, Hsub3 in Hk1. split.
  - intros <-. apply key_inj_roots; [done|done|].
    by apply (proj2 Hwf3 _ _ p1).
  - intros [<- <-]. congruence.
Qed.

Lemma Get_same_node_iff_witness :
  ∃ p1 ps1 h1 p2 ps3 h3,
    Get NewProjects "r" ":app" empty_heap = Ok (p1, ps1, h1)
    ∧ Get ps1 "s" ":app" h1 = Ok (p2, ps3, h3)
    ∧ (p1 = p2 ↔ "r" = "s" ∧ ":app" = ":app").
Proof.
  eexists _, _, _, _, _, _. split; [reflexivity|]. split; [reflexivity|].
  eapply (Get_same_node_iff NewProjects empty_heap "r" ":app" "s" ":app" []).
  - apply registry_wf_new.
  - reflexivity.
  - reflexivity.
  - reflexivity.
  - reflexivity.
  - reflexivity.
Defined.

(** X10. When every node of the registry is filed under the key of its
    own [Root] and [Name], as in a registry filled by [Get] alone, this
    still holds after [Get], and the node [Get(root, name)] returns has
    the key of [root] and [name]; its [Root] is [root] and its [Name]
    is [name] when neither contains a newline. A node [Get] creates is
    an ExternalDependency with no dependencies, sizes or configuration. *)
Theorem Get_node_fields ps h root name p ps' h' :
  registry_named ps h → Get ps root name h = Ok (p, ps', h') →
  registry_named ps' h'
  ∧ ∃ P, projs h' !! p = Some P
         ∧ Root P +:+ strings.nl +:+ Name P = root +:+ strings.nl +:+ name
         ∧ (no_newline root → no_newline name → Root P = root ∧ Name P = name)
         ∧ (all ps !! (root +:+ strings.nl +:+ name) = None →
              P = NewProject root name
              ∧ Type_ P = ExternalDependencyType
              ∧ dependencies P = ∅ ∧ size P = ∅ ∧ config P = ∅).
Proof.
  intros Hn HG. split; [by eapply Get_named|].
  pose proof (Get_named _ _ _ _ _ _ _ Hn HG) as Hn'.
  destruct (Get_cases _ _ _ _ _ _ _ HG) as (Hr & Hne & Hc).
  assert (Hk : all ps' !! key root name = Some p).
  { destruct Hc as [(Hk & -> & ->)|(Hk & -> & -> & ->)]; [done|].
    simpl. by rewrite lookup_insert_eq. }
  destruct (Hn' _ _ Hk) as (P & HP & HkP). exists P.
  split; [done|]. split; [done|]. split.
  { intros H1 H2. by apply key_inj_plain. }
  intros Hnone. fold (key root name) in Hnone.
  destruct Hc as [(Hk' & -> & ->)|(_ & -> & -> & ->)]; [congruence|].
  simpl in HP. rewrite lookup_app_r, Nat.sub_diag in HP by lia.
  simpl in HP. injection HP as <-. by repeat split.
Qed.

Lemma Get_node_fields_witness :
  ∃ p ps' h' P,
    Get NewProjects "r" ":app" empty_heap = Ok (p, ps', h')
    ∧ projs h' !! p = Some P ∧ Root P = "r" ∧ Name P = ":app".
Proof.
  destruct (Get_node_fields NewProjects empty_heap "r" ":app" 0
              {| all := {[ key "r" ":app" := 0%nat ]} |}
              {| projs := [NewProject "r" ":app"]; deps := [] |})
    as (_ & P & HP & _ & Hf & _).
  - apply registry_named_new.
  - reflexivity.
  - eexists _, _, _, P. split; [reflexivity|]. split; [exact HP|].
    apply Hf; reflexivity.
Defined.

End registry_nodes.
(* ===================================================================== *)
(** * What the listings contain *)
(* ===================================================================== *)

Section listing_contents.
Import archer spec.
Context (srt : Sorter) (srt_ok : SortContract srt).

Lemma filter_sublist {A} (f : A → bool) (l : list A) : List.filter f l `sublist_of` l.
Proof.
  induction l as [|x l IH]; simpl; [constructor|].
  destruct (f x); by constructor.
Qed.

Lemma mapM_load_project_fst h order vs :
  mapM (load_project h) order = Ok vs → vs.*1 = order.
Proof.
  revert vs. induction order as [|p order IH]; intros vs; simpl.
  - by intros [= <-].
  - destruct (load_project h p) as [[q P]|] eqn:Hl; [|done].
    rewrite bind_Ok. destruct (mapM (load_project h) order) as [ws|]; [|done].
    rewrite bind_Ok. intros [= <-]. rewrite fmap_cons, (IH ws) by done.
    unfold load_project in Hl. destruct (projs h !! p); by simplify_eq.
Qed.

Lemma mapM_load_dependency_edge h order vs :
  mapM (load_dependency h) order = Ok vs → edge <$> vs = order.
Proof.
  revert vs. induction order as [|e order IH]; intros vs; simpl.
  - by intros [= <-].
  - destruct (load_dependency h e) as [v|] eqn:Hv; [|done].
    rewrite bind_Ok. destruct (mapM (load_dependency h) order) as [ws|]; [|done].
    rewrite bind_Ok. intros [= <-]. rewrite fmap_cons, (IH ws) by done. f_equal.
    unfold load_dependency in Hv. destruct (deps h !! e) as [D|]; [|done].
    destruct (load_project h (Source D)) as [[? src]|]; [|done].
    rewrite bind_Ok in Hv.
    destruct (load_project h (Target D)) as [[? tgt]|]; [|done].
    rewrite bind_Ok in Hv. by simplify_eq.
Qed.

Lemma load_dependency_inv h e v :
  load_dependency h e = Ok v →
  ∃ D, deps h !! e = Some D ∧ edge v = e
       ∧ projs h !! Source D = Some (source v) ∧ projs h !! Target D = Some (target v).
Proof.
  unfold load_dependency, load_project. destruct (deps h !! e) as [D|]; [|done].
  destruct (projs h !! Source D) as [src|] eqn:HS; [|done]. rewrite bind_Ok.
  destruct (projs h !! Target D) as [tgt|] eqn:HT; [|done]. rewrite bind_Ok.
  intros [= <-]. by exists D.
Qed.

Lemma mapM_load_dependency_inv h order vs v :
  mapM (load_dependency h) order = Ok vs → v ∈ vs →
  load_dependency h (edge v) = Ok v.
Proof.
  revert vs. induction order as [|e order IH]; intros vs; simpl.
  - intros [= <-] Hin. by apply elem_of_nil in Hin.
  - destruct (load_dependency h e) as [w|] eqn:Hw; [|done].
    rewrite bind_Ok. destruct (mapM (load_dependency h) order) as [ws|]; [|done].
    rewrite bind_Ok. intros [= <-] [->|Hin]%elem_of_cons.
    + destruct (load_dependency_inv _ _ _ Hw) as (D & _ & -> & _). done.
    + by apply (IH ws).
Qed.

Lemma registry_values_NoDup ps h :
  registry_wf ps h → NoDup (map_to_list (all ps)).*2.
Proof.
  intros [_ Hinj]. apply NoDup_fmap_2_strong; [|apply NoDup_map_to_list].
  intros [k1 p1] [k2 p2] H1 H2 Heq. simpl in Heq. subst p2.
  apply elem_of_map_to_list in H1, H2. by rewrite (Hinj _ _ _ H1 H2).
Qed.

Lemma dependencies_values_NoDup h p P :
  heap_wf h → projs h !! p = Some P → NoDup (map_to_list (dependencies P)).*2.
Proof.
  intros Hwf HP. apply NoDup_fmap_2_strong; [|apply NoDup_map_to_list].
  intros [k1 e1] [k2 e2] H1 H2 Heq. simpl in Heq. subst e2.
  apply elem_of_map_to_list in H1, H2.
  destruct (Hwf _ _ _ _ HP H1) as (D1 & T1 & HD1 & _ & HT1 & <-).
  destruct (Hwf _ _ _ _ HP H2) as (D2 & T2 & HD2 & _ & HT2 & <-).
  by simplify_eq.
Qed.

(** The edges [ListDependencies] returns for a project, whatever order
    the map is visited in. *)
Lemma ListDependencies_in_contents h p P order filter :
  heap_wf h → projs h !! p = Some P →
  order ≡ₚ (map_to_list (dependencies P)).*2 →
  ∃ out,
    ListDependencies_in order filter h = Ok out
    ∧ NoDup out
    ∧ ∀ e, e ∈ out
           ↔ ∃ k D T, dependencies P !! k = Some e ∧ deps h !! e = Some D
                      ∧ projs h !! Target D = Some T ∧ passes filter T = true.
Proof.
  intros Hwf HP Hperm.
  destruct (load_dependencies h p P order Hwf HP) as (vs & Hvs & Hsrc).
  { intros e He. rewrite Hperm in He.
    apply list_elem_of_fmap in He as ([k e'] & -> & Hin).
    apply elem_of_map_to_list in Hin. by exists k. }
  pose proof (mapM_load_dependency_edge _ _ _ Hvs) as Hedge.
  exists (edge <$> sortDependencies (List.filter (λ v, passes filter (target v)) vs)).
  split; [unfold ListDependencies_in; by rewrite Hvs|].
  unfold sortDependencies. rewrite sort_perm. split.
  - eapply sublist_NoDup; [|apply fmap_sublist, filter_sublist].
    rewrite Hedge, Hperm. by eapply dependencies_values_NoDup.
  - intros e. rewrite list_elem_of_fmap. split.
    + intros (v & -> & Hv). rewrite sort_perm in Hv.
      apply list_elem_of_In, filter_In in Hv as [Hv Hpass].
      apply list_elem_of_In in Hv.
      pose proof (mapM_load_dependency_inv _ _ _ _ Hvs Hv) as Hload.
      destruct (load_dependency_inv _ _ _ Hload) as (D & HD & _ & _ & HT).
      assert (edge v ∈ order) as Hin by (rewrite <- Hedge; by apply list_elem_of_fmap_2).
      rewrite Hperm in Hin. apply list_elem_of_fmap in Hin as ([k e'] & He & Hin).
      apply elem_of_map_to_list in Hin. simpl in He. subst e'.
      by exists k, D, (target v).
    + intros (k & D & T & Hk & HD & HT & Hpass).
      assert (e ∈ order) as Hin.
      { rewrite Hperm. apply list_elem_of_fmap. exists (k, e).
        split; [done|]. by apply elem_of_map_to_list. }
      rewrite <- Hedge in Hin. apply list_elem_of_fmap in Hin as (v & -> & Hv).
      exists v. split; [done|]. rewrite sort_perm. apply list_elem_of_In, filter_In.
      split; [by apply list_elem_of_In|].
      pose proof (mapM_load_dependency_inv _ _ _ _ Hvs Hv) as Hload.
      destruct (load_dependency_inv _ _ _ Hload) as (D' & HD' & _ & _ & HT').
      by simplify_eq.
Qed.

(** X11. Whatever order the map is visited in and whatever [sort.Slice]
    does within its contract, [ListProjects] on a well-formed registry
    returns every registered node that passes the filter exactly once
    and nothing else: with [FilterAll] as many nodes as the registry has
    keys, with [FilterExcludeExternal] those whose type is not
    ExternalDependency. *)
Theorem ListProjects_contents ps h order filter :
  registry_wf ps h → order ≡ₚ (map_to_list (all ps)).*2 →
  ∃ out,
    ListProjects_in order filter h = Ok out
    ∧ NoDup out
    ∧ (∀ p, p ∈ out
            ↔ ∃ k P, all ps !! k = Some p ∧ projs h !! p = Some P
                     ∧ (filter = FilterExcludeExternal →
                          Type_ P ≠ ExternalDependencyType))
    ∧ (filter = FilterAll → length out = base.size (all ps)).
Proof.
  intros Hwf Hperm.
  destruct (load_projects h order) as (vs & Hvs & Hall).
  { intros p Hp. rewrite Hperm in Hp.
    apply list_elem_of_fmap in Hp as ([k q] & -> & Hin).
    apply elem_of_map_to_list in Hin. by eapply (proj1 Hwf). }
  pose proof (mapM_load_project_fst _ _ _ Hvs) as Hfst.
  assert (Hpass : ∀ P, passes filter P = true
                       ↔ (filter = FilterExcludeExternal →
                            Type_ P ≠ ExternalDependencyType)).
  { intros P. unfold passes, IsExternalDependency.
    destruct filter, (Type_ P); simpl; split; try done; try congruence.
    intros H. by destruct H. }
  exists (sortProjects (List.filter (λ v, passes filter v.2) vs)).*1.
  split; [unfold ListProjects_in; by rewrite Hvs|].
  unfold sortProjects. rewrite sort_perm. split; [|split].
  - eapply sublist_NoDup; [|apply fmap_sublist, filter_sublist].
    rewrite Hfst, Hperm. by eapply registry_values_NoDup.
  - intros p. rewrite list_elem_of_fmap. split.
    + intros ([q P] & -> & Hv). rewrite sort_perm in Hv.
      apply list_elem_of_In, filter_In in Hv as [Hv Hp].
      apply list_elem_of_In in Hv. simpl in *.
      assert (q ∈ order) as Hin.
      { rewrite <- Hfst. by apply (list_elem_of_fmap_2 fst _ (q, P)). }
      rewrite Hperm in Hin. apply list_elem_of_fmap in Hin as ([k q'] & -> & Hin).
      apply elem_of_map_to_list in Hin. exists k, P.
      split; [done|]. split; [by apply (Hall (q', P))|]. by apply Hpass.
    + intros (k & P & Hk & HP & Hf).
      assert (p ∈ order) as Hin.
      { rewrite Hperm. apply list_elem_of_fmap. exists (k, p).
        split; [done|]. by apply elem_of_map_to_list. }
      rewrite <- Hfst in Hin. apply list_elem_of_fmap in Hin as ([q Q] & -> & Hv).
      exists (q, Q). split; [done|]. rewrite sort_perm. apply list_elem_of_In, filter_In.
      split; [by apply list_elem_of_In|]. simpl.
      pose proof (Hall _ Hv) as HQ. simpl in *. apply Hpass. by simplify_eq.
  - intros ->. rewrite length_fmap.
    assert (List.filter (λ v : nat * Project, passes FilterAll v.2) vs = vs) as ->.
    { clear. induction vs as [|v vs IH]; simpl; [done|]. by rewrite IH. }
    rewrite <- (length_fmap fst), Hfst, Hperm, length_fmap. apply length_map_to_list.
Qed.

(** X12. After [p.AddDependency(d)] on well-formed objects,
    [ListDependencies] of [p] with [FilterAll] returns the new edge,
    the edges [p] held under other target names, and nothing else, each
    once; the edge formerly held under the name of [d] is no longer
    listed. *)
Theorem AddDependency_then_list h p d P D e h1 :
  heap_wf h → projs h !! p = Some P → projs h !! d = Some D →
  AddDependency p d h = Ok (e, h1) →
  ∃ P1, projs h1 !! p = Some P1
    ∧ ∀ order, order ≡ₚ (map_to_list (dependencies P1)).*2 →
      ∃ out,
        ListDependencies_in order FilterAll h1 = Ok out
        ∧ NoDup out
        ∧ e ∈ out
        ∧ (∀ e0, e0 ∈ out
                 ↔ e0 = e ∨ ∃ k, k ≠ Name D ∧ dependencies P !! k = Some e0)
        ∧ (∀ e0, dependencies P !! Name D = Some e0 → e0 ∉ out).
Proof.
  intros Hwf HP HD HA.
  pose proof (AddDependency_heap_wf _ _ _ _ _ Hwf HA) as Hwf1.
  rewrite (AddDependency_Ok _ _ _ _ _ HP HD) in HA. injection HA as <- <-.
  exists (set_dependencies P (<[Name D := length (deps h)]> (dependencies P))). split.
  { simpl. apply list_lookup_insert_eq. by eapply lookup_lt_Some. }
  intros order Hperm.
  destruct (ListDependencies_in_contents _ p
              (set_dependencies P (<[Name D := length (deps h)]> (dependencies P)))
              order FilterAll Hwf1)
    as (out & Hout & Hnd & Hmem); [|exact Hperm|].
  { simpl. apply list_lookup_insert_eq. by eapply lookup_lt_Some. }
  simpl in Hmem.
  assert (Hiff : ∀ e0, e0 ∈ out
                 ↔ e0 = length (deps h)
                   ∨ ∃ k, k ≠ Name D ∧ dependencies P !! k = Some e0).
  { intros e0. rewrite Hmem. split.
    - intros (k & D0 & T & Hk & _). destruct (decide (Name D = k)) as [<-|Hne].
      + rewrite lookup_insert_eq in Hk. left. congruence.
      + rewrite lookup_insert_ne in Hk by done. right. by exists k.
    - intros [->|(k & Hne & Hk)].
      + exists (Name D), {| Source := p; Target := d; dconfig := ∅ |}.
        destruct (decide (p = d)) as [->|Hpd].
        * eexists. rewrite lookup_insert_eq.
          rewrite lookup_app_r, Nat.sub_diag by lia.
          split; [done|]. split; [done|]. split; [|done].
          simpl. apply list_lookup_insert_eq. by eapply lookup_lt_Some.
        * exists D. rewrite lookup_insert_eq.
          rewrite lookup_app_r, Nat.sub_diag by lia.
          split; [done|]. split; [done|]. split; [|done].
          simpl. by rewrite list_lookup_insert_ne.
      + destruct (Hwf _ _ _ _ HP Hk) as (D0 & T & HD0 & HS & HT & HN).
        exists k, D0. rewrite lookup_insert_ne by done.
        rewrite lookup_app_l by (by eapply lookup_lt_Some).
        destruct (decide (p = Target D0)) as [Heq|Hpt].
        * eexists. split; [done|]. split; [done|]. split; [|done].
          rewrite <- Heq. apply list_lookup_insert_eq. by eapply lookup_lt_Some.
        * exists T. split; [done|]. split; [done|]. split; [|done].
          by rewrite list_lookup_insert_ne. }
  exists out. split; [exact Hout|]. split; [exact Hnd|].
  split; [apply Hiff; by left|]. split; [exact Hiff|].
  intros e0 He0 Hin. apply Hiff in Hin as [->|(k & Hne & Hk)].
  - destruct (Hwf _ _ _ _ HP He0) as (D0 & _ & HD0 & _).
    apply lookup_lt_Some in HD0. lia.
  - destruct (Hwf _ _ _ _ HP He0) as (D0 & T0 & HD0 & _ & HT0 & HN0).
    destruct (Hwf _ _ _ _ HP Hk) as (D1 & T1 & HD1 & _ & HT1 & HN1).
    simplify_eq.
Qed.

End listing_contents.

Section listing_contents_examples.
Import archer spec.
Local Existing Instance insertion_Sorter.

Lemma ListProjects_contents_witness :
  ∃ ps h out,
    populate [("r", ":app"); ("r", ":core")] NewProjects empty_heap = Ok (ps, h)
    ∧ ListProjects ps FilterAll h = Ok out
    ∧ NoDup out ∧ length out = 2%nat.
Proof.
  destruct (populate [("r", ":app"); ("r", ":core")] NewProjects empty_heap)
    as [[ps h]|] eqn:Hp; [|discriminate].
  destruct (populate_grows _ _ _ _ _ (registry_wf_new empty_heap) Hp) as [Hwf _].
  destruct (ListProjects_contents insertion_Sorter insertion_sort_contract
              ps h (map_to_list (all ps)).*2 FilterAll Hwf (reflexivity _))
    as (out & Hout & Hnd & _ & Hlen).
  exists ps, h, out. split; [reflexivity|]. split; [exact Hout|].
  split; [exact Hnd|]. rewrite Hlen by reflexivity.
  vm_compute in Hp. injection Hp as <- _. reflexivity.
Defined.

Lemma AddDependency_then_list_witness :
  let h := {| projs := [NewProject "r" "a"; NewProject "r" "b"]; deps := [] |} in
  ∃ e h1 out,
    AddDependency 0 1 h = Ok (e, h1)
    ∧ ListDependencies 0 FilterAll h1 = Ok out
    ∧ e ∈ out.
Proof.
  intros h.
  destruct (AddDependency_then_list insertion_Sorter insertion_sort_contract
              h 0 1 (NewProject "r" "a") (NewProject "r" "b") 0
              {| projs := [set_dependencies (NewProject "r" "a") {[ "b" := 0%nat ]};
                           NewProject "r" "b"];
                 deps := [ {| Source := 0; Target := 1; dconfig := ∅ |} ] |})
    as (P1 & HP1 & Hlist).
  - intros [|[|p]] P k e HP Hd; simpl in HP; simplify_eq; simpl in Hd;
      by rewrite lookup_empty in Hd.
  - reflexivity.
  - reflexivity.
  - reflexivity.
  - destruct (Hlist (map_to_list (dependencies P1)).*2 (reflexivity _))
      as (out & Hout & _ & Hin & _).
    eexists _, _, out. split; [reflexivity|]. split; [|exact Hin].
    unfold ListDependencies. simpl in HP1. injection HP1 as <-.
    exact Hout.
Defined.

End listing_contents_examples.
(* ===================================================================== *)
(** * The [projects] report: what the names are *)
(* ===================================================================== *)

Section project_names.
Import regexp archer gradle spec.

Lemma lists_names seen lines names :
  lists seen lines names →
  (length names ≤ length lines)%nat
  ∧ ∀ n, n ∈ names → ∃ l, l ∈ lines ∧ (root_line l n ∨ proj_line l n).
Proof.
  induction 1 as [seen|l name rest names Hl _ [IHlen IH]
                 |seen l name rest names Hl _ [IHlen IH]
                 |seen l rest names _ _ _ [IHlen IH]]; simpl.
  - split; [done|]. intros n Hn. by apply elem_of_nil in Hn.
  - split; [lia|]. intros n [->|Hn]%elem_of_cons.
    + exists l. split; [left|by left].
    + destruct (IH n Hn) as (l' & Hin & Hl'). exists l'. split; [by right|done].
  - split; [lia|]. intros n [->|Hn]%elem_of_cons.
    + exists l. split; [left|by right].
    + destruct (IH n Hn) as (l' & Hin & Hl'). exists l'. split; [by right|done].
  - split; [lia|]. intros n Hn.
    destruct (IH n Hn) as (l' & Hin & Hl'). exists l'. split; [by right|done].
Qed.

(** X13. Every name [parseProjects] returns is taken from a line of the
    report, a root line or a project line; it is not empty and holds no
    quote, so [Get] accepts it under any non-empty root; and there are
    at most as many names as lines. *)
Theorem parseProjects_names (content : string) :
  let names := (parseProjects content).1 in
  let lines := strings.Split content "010"%char in
  (length names ≤ length lines)%nat
  ∧ ∀ n, n ∈ names →
      n ≠ "" ∧ all_bytes not_quote n = true
      ∧ (∃ l, l ∈ lines
              ∧ (l = "Root project '" +:+ n +:+ "'"
                 ∨ ∃ pre, l = pre +:+ "Project '" +:+ n +:+ "'"
                          ∧ pre ≠ "" ∧ all_bytes tree_char pre = true))
      ∧ ∀ ps h root, root ≠ "" → ∃ r, Get ps root n h = Ok r.
Proof.
  intros names lines. subst names lines. unfold parseProjects. simpl.
  destruct (parseProjects_fold (strings.Split content "010"%char) [] false)
    as (names & seen' & -> & HL).
  simpl. destruct (lists_names _ _ _ HL) as [Hlen Hfrom].
  split; [done|]. intros n Hn. destruct (Hfrom n Hn) as (l & Hin & Hl).
  assert (n ≠ "" ∧ all_bytes not_quote n = true) as [Hne Hq].
  { destruct Hl as [(_ & ? & ?)|(pre & _ & _ & _ & ? & ?)]; done. }
  split; [done|]. split; [done|]. split.
  - exists l. split; [done|].
    destruct Hl as [(-> & _ & _)|(pre & -> & ? & ? & _ & _)]; [by left|right].
    by exists pre.
  - intros ps h root Hroot. destruct (all ps !! key root n) eqn:Hk.
    + eexists. by apply Get_found.
    + eexists. by apply Get_fresh.
Qed.

End project_names.
(* ===================================================================== *)
(** * The [dependencies] report: header, end of the tree, invariants *)
(* ===================================================================== *)

Section dependency_report.
Import regexp archer gradle spec.

Local Ltac inv_matches :=
  repeat match goal with
    | H : matches (Cat _ _) _ _ _ _ |- _ => inversion H; subst; clear H
    | H : matches (Alt _ _) _ _ _ _ |- _ => inversion H; subst; clear H
    | H : matches (Cap _) _ _ _ _ |- _ => inversion H; subst; clear H
    | H : matches (Lit _) _ _ _ _ |- _ => inversion H; subst; clear H
    | H : matches (Plus _) _ _ _ _ |- _ => inversion H; subst; clear H
    | H : matches Eot _ _ _ _ |- _ => inversion H; subst; clear H
    | H : matches Bot _ _ _ _ |- _ => inversion H; subst; clear H
    end.

Lemma rootProjRE_decl l m :
  FindStringSubmatch rootProjRE l = Some m → ∃ name, root_decl l name ∧ m = [l; name].
Proof.
  intros H. apply FindStringSubmatch_sound in H as (s' & c & HM & ->); [|done].
  unfold rootProjRE in HM. inv_matches.
  - rewrite take_app_sub. change (String.length "") with 0%nat. rewrite take_all.
    exists a. split; [|done]. split; [by left|done].
  - rewrite take_app_sub. change (String.length "") with 0%nat. rewrite take_all.
    exists a. split; [|done]. split; [by right|done].
Qed.

Lemma root_decl_unique l n1 n2 : root_decl l n1 → root_decl l n2 → n1 = n2.
Proof.
  intros ([->| ->] & _ & H1) ([Heq|Heq] & _ & H2); try done.
  - apply (inj (String.app _)) in Heq.
    by destruct (run_split_unique not_quote n1 n2 "'" "'" H1 H2) as [-> _];
      [intros c t ?; by simplify_eq..|done|].
  - apply (inj (String.app _)) in Heq.
    by destruct (run_split_unique not_quote n1 n2 "'" "'" H1 H2) as [-> _];
      [intros c t ?; by simplify_eq..|done|].
Qed.

Lemma rootProjRE_decl_complete l name :
  root_decl l name → FindStringSubmatch rootProjRE l = Some [l; name].
Proof.
  intros Hl. assert (is_Some (FindStringSubmatch rootProjRE l)) as [m Hm].
  { destruct Hl as ([-> | ->] & Hne & Hall).
    - eapply (FindStringSubmatch_complete _ _ ""); [done|]. unfold rootProjRE.
      eapply matches_Cat; [|apply matches_Eot].
      eapply matches_Cat; [|apply (matches_Lit "'" _ "")].
      eapply matches_Cat; [|apply matches_Cap, (matches_Plus _ _ name "'"); done].
      eapply matches_Cat; [|apply (matches_Lit " '")].
      eapply matches_Cat; [apply matches_Bot|].
      apply matches_Alt_l. apply (matches_Lit "Root project").
    - eapply (FindStringSubmatch_complete _ _ ""); [done|]. unfold rootProjRE.
      eapply matches_Cat; [|apply matches_Eot].
      eapply matches_Cat; [|apply (matches_Lit "'" _ "")].
      eapply matches_Cat; [|apply matches_Cap, (matches_Plus _ _ name "'"); done].
      eapply matches_Cat; [|apply (matches_Lit " '")].
      eapply matches_Cat; [apply matches_Bot|].
      apply matches_Alt_r. apply (matches_Lit "Project"). }
  rewrite Hm. destruct (rootProjRE_decl _ _ Hm) as (name' & Hl' & ->).
  by rewrite (root_decl_unique _ _ _ Hl Hl').
Qed.

Lemma rootProjRE_None l :
  FindStringSubmatch rootProjRE l = None ↔ ∀ name, ¬ root_decl l name.
Proof.
  split.
  - intros HN name Hl. by rewrite (rootProjRE_decl_complete _ _ Hl) in HN.
  - intros Hno. destruct (FindStringSubmatch rootProjRE l) as [m|] eqn:Hm; [|done].
    destruct (rootProjRE_decl _ _ Hm) as (name & Hl & _). by destruct (Hno name).
Qed.


(** What one round of the loop can be: a round that leaves the registry,
    the objects and the stack alone; the round of the root declaration;
    the round of a dependency line. *)
Lemma parseDeps_line_inv rootProj l v r :
  parseDeps_line rootProj l v = Ok r →
  (projects (vars_of r) = projects v ∧ heap (vars_of r) = heap v
   ∧ stack (vars_of r) = stack v
   ∧ (state v = waitingRoot → r = Continue v)
   ∧ (state (vars_of r) = waitingRoot → state v = waitingRoot))
  ∨ (state v = waitingRoot
     ∧ ∃ name p ps1 h1,
         root_decl l name
         ∧ Get (projects v) rootProj name (heap v) = Ok (p, ps1, h1)
         ∧ r = Continue (mkVars ps1 h1 waitingDeps (mkPd p 0 :: stack v)))
  ∨ (state v ≠ waitingRoot
     ∧ ∃ m p ps1 h1 lp stk lp' e h2,
         FindStringSubmatch depRE l = Some m
         ∧ Get (projects v) rootProj (group m 2) (heap v) = Ok (p, ps1, h1)
         ∧ utils_Last (stack v) = Ok lp
         ∧ unwind (strings.len (group m 1)) (stack v) lp = Ok (stk, lp')
         ∧ AddDependency (proj lp') p h1 = Ok (e, h2)
         ∧ r = Continue (mkVars ps1 h2 parsingDeps
                           (mkPd p (strings.len (group m 1)) :: stk))).
Proof.
  unfold parseDeps_line. destruct (decide (state v = waitingRoot)) as [Hs|Hs].
  - destruct (FindStringSubmatch rootProjRE l) as [m|] eqn:Hm.
    + destruct (rootProjRE_decl _ _ Hm) as (name & Hl & ->).
      change (group [l; name] 1) with name.
      destruct (Get (projects v) rootProj name (heap v)) as [[[p ps1] h1]|] eqn:HG;
        [|done].
      rewrite bind_Ok. intros [= <-]. right; left. split; [done|].
      by exists name, p, ps1, h1.
    + intros [= <-]. left. done.
  - set (st := if decide (state v = waitingDeps)
               then if strings.HasPrefix l "\---" || strings.HasPrefix l "+---"
                    then parsingDeps else state v
               else state v).
    assert (Hst : st ≠ waitingRoot).
    { subst st. repeat case_decide; try done. by destruct (_ || _). }
    destruct (decide (st = parsingDeps)) as [Hp|Hp].
    + destruct (decide (strings.len l = 0)).
      { intros [= <-]. left. simpl. by repeat split. }
      destruct (FindStringSubmatch depRE l) as [m|] eqn:Hm.
      * destruct (Get (projects v) rootProj (group m 2) (heap v))
          as [[[p ps1] h1]|] eqn:HG; [|done].
        rewrite bind_Ok.
        destruct (utils_Last (stack v)) as [lp|] eqn:HL; [|done].
        rewrite bind_Ok.
        destruct (unwind (strings.len (group m 1)) (stack v) lp)
          as [[stk lp']|] eqn:HU; [|done].
        rewrite bind_Ok.
        destruct (AddDependency (proj lp') p h1) as [[e h2]|] eqn:HA; [|done].
        rewrite bind_Ok. intros [= <-]. right; right. split; [done|].
        exists m, p, ps1, h1, lp, stk, lp', e, h2. rewrite Hp. by repeat split.
      * intros [= <-]. left. simpl. by repeat split.
    + intros [= <-]. left. simpl. by repeat split.
Qed.


Lemma set_dependencies_twice (P : Project) (d1 d2 : gmap string nat) :
  set_dependencies (set_dependencies P d1) d2 = set_dependencies P d2.
Proof. done. Qed.

Lemma grown_refl rootProj ps h : grown rootProj ps h ps h.
Proof.
  split; [done|]. split; [|split; [|done]].
  - intros p P HP. exists P. split; [done|]. by destruct P.
  - intros p P' Hlen HP. apply lookup_lt_Some in HP. lia.
Qed.

Lemma grown_length rootProj ps h ps' h' :
  grown rootProj ps h ps' h' → (length (projs h) ≤ length (projs h'))%nat.
Proof.
  intros (_ & Hold & _ & _).
  destruct (decide (length (projs h) = 0)%nat) as [|Hne]; [lia|].
  destruct (lookup_lt_is_Some_2 (projs h) (length (projs h) - 1)) as [P HP]; [lia|].
  destruct (Hold _ _ HP) as (P' & HP' & _). apply lookup_lt_Some in HP'. lia.
Qed.

Lemma grown_trans rootProj ps h ps1 h1 ps2 h2 :
  grown rootProj ps h ps1 h1 → grown rootProj ps1 h1 ps2 h2 →
  grown rootProj ps h ps2 h2.
Proof.
  intros H1 H2. pose proof (grown_length _ _ _ _ _ H1) as Hlen.
  destruct H1 as (Hk1 & Ho1 & Hn1 & He1), H2 as (Hk2 & Ho2 & Hn2 & He2).
  split; [by auto|]. split; [|split; [|by auto]].
  - intros p P HP. destruct (Ho1 _ _ HP) as (P1 & HP1 & Heq1).
    destruct (Ho2 _ _ HP1) as (P2 & HP2 & Heq2). exists P2. split; [done|].
    transitivity (set_dependencies P1 (dependencies P)); [|done].
    by rewrite <- Heq2.
  - intros p P2 Hp HP2.
    destruct (decide (p < length (projs h1))%nat) as [Hlt|Hge].
    + destruct (lookup_lt_is_Some_2 (projs h1) p Hlt) as [P1 HP1].
      destruct (Ho2 _ _ HP1) as (P2' & HP2' & Heq2). simplify_eq.
      pose proof (Hn1 _ _ Hp HP1) as Hnew. rewrite <- Heq2 in Hnew.
      rewrite set_dependencies_twice in Hnew. rewrite Hnew. by rewrite <- Heq2.
    + apply (Hn2 p); [lia|done].
Qed.

Lemma Get_grown rootProj ps name h p ps' h' :
  Get ps rootProj name h = Ok (p, ps', h') → grown rootProj ps h ps' h'.
Proof.
  intros HG.
  destruct (Get_cases _ _ _ _ _ _ _ HG) as (_ & _ & [(Hk & -> & ->)|(Hk & -> & -> & ->)]);
    [apply grown_refl|].
  split; [|split; [|split; [|done]]]; simpl.
  - intros k q Hq. rewrite lookup_insert_ne; [done|]. congruence.
  - intros q Q HQ. exists Q. rewrite lookup_app_l by (by eapply lookup_lt_Some).
    split; [done|]. by destruct Q.
  - intros q Q' Hlen HQ. pose proof (lookup_lt_Some _ _ _ HQ) as Hlt.
    rewrite length_app in Hlt. simpl in Hlt.
    assert (q = length (projs h)) as -> by lia.
    rewrite lookup_app_r, Nat.sub_diag in HQ by lia.
    simpl in HQ. by injection HQ as <-.
Qed.

Lemma AddDependency_grown rootProj ps q p h e h' :
  AddDependency q p h = Ok (e, h') → grown rootProj ps h ps h'.
Proof.
  unfold AddDependency.
  destruct (projs h !! q) as [Q|] eqn:HQ; [|done].
  destruct (projs h !! p) as [P|] eqn:HP; [|done].
  intros [= <- <-]. split; [done|]. split; [|split]; simpl.
  - intros x X HX. destruct (decide (q = x)) as [<-|Hne].
    + eexists. split; [apply list_lookup_insert_eq; by eapply lookup_lt_Some|].
      rewrite HQ in HX. injection HX as <-. by destruct Q.
    + exists X. rewrite list_lookup_insert_ne by done. split; [done|]. by destruct X.
  - intros x X' Hlen HX. apply lookup_lt_Some in HX. rewrite length_insert in HX. lia.
  - intros e0 D HD. by rewrite lookup_app_l by (by eapply lookup_lt_Some).
Qed.

Lemma parseDeps_line_grown rootProj l v r :
  parseDeps_line rootProj l v = Ok r →
  grown rootProj (projects v) (heap v) (projects (vars_of r)) (heap (vars_of r)).
Proof.
  intros H. apply parseDeps_line_inv in H
    as [(-> & -> & _)|[(_ & name & p & ps1 & h1 & _ & HG & ->)
                      |(_ & m & p & ps1 & h1 & lp & stk & lp' & e & h2
                          & _ & HG & _ & _ & HA & ->)]]; simpl.
  - apply grown_refl.
  - by eapply Get_grown.
  - eapply grown_trans; [by eapply Get_grown|by eapply AddDependency_grown].
Qed.

Lemma parseDeps_loop_grown rootProj lines v err v' :
  parseDeps_loop rootProj lines v = Ok (err, v') →
  grown rootProj (projects v) (heap v) (projects v') (heap v').
Proof.
  revert v. induction lines as [|l lines IH]; intros v; simpl.
  - intros [= <- <-]. apply grown_refl.
  - destruct (parseDeps_line rootProj l v) as [r|] eqn:Hr; [|done].
    rewrite bind_Ok. pose proof (parseDeps_line_grown _ _ _ _ Hr) as Hg.
    destruct r as [v1|v1|e1 v1]; simpl in Hg.
    + intros H. eapply grown_trans; [done|by apply IH].
    + by intros [= <- <-].
    + by intros [= <- <-].
Qed.

(** X14. Whatever the report and whether it ends with an error or not,
    [parseDeps] only adds: every key of the registry keeps its node,
    every project that was there keeps all its fields but its dependency
    map, every edge object that was there stays as it was, and every
    project it creates has [rootProj] as [Root], is an
    ExternalDependency and has no size and no configuration. *)
Theorem parseDeps_only_adds ps content rootProj h err ps' h' :
  parseDeps ps content rootProj h = Ok (err, ps', h') →
  (∀ k p, all ps !! k = Some p → all ps' !! k = Some p)
  ∧ (∀ p P, projs h !! p = Some P →
       ∃ P', projs h' !! p = Some P' ∧ set_dependencies P' (dependencies P) = P)
  ∧ (∀ e D, deps h !! e = Some D → deps h' !! e = Some D)
  ∧ (∀ p P', (length (projs h) ≤ p)%nat → projs h' !! p = Some P' →
       Root P' = rootProj ∧ Type_ P' = ExternalDependencyType
       ∧ size P' = ∅ ∧ config P' = ∅ ∧ NameParts P' = []).
Proof.
  unfold parseDeps.
  destruct (parseDeps_loop rootProj (strings.Split content "010"%char)
              (mkVars ps h waitingRoot [])) as [[err' v']|] eqn:HL; [|done].
  rewrite bind_Ok. intros [= <- <- <-].
  destruct (parseDeps_loop_grown _ _ _ _ _ HL) as (Hk & Ho & Hn & He). simpl in *.
  split; [done|]. split; [done|]. split; [done|].
  intros p P' Hlen HP. specialize (Hn _ _ Hlen HP).
  split; [exact (f_equal Root Hn)|]. split; [exact (f_equal Type_ Hn)|].
  split; [exact (f_equal size Hn)|]. split; [exact (f_equal config Hn)|].
  exact (f_equal NameParts Hn).
Qed.

Lemma parseDeps_only_adds_witness :
  let content := strings.Join ["Root project ':app'"; "+--- project :core"; ""]
                   strings.nl in
  ∃ ps' h',
    parseDeps {| all := {[ key "db" "t" := 0%nat ]} |} content "r"
      {| projs := [NewProject "db" "t"]; deps := [] |} = Ok (None, ps', h')
    ∧ all ps' !! key "db" "t" = Some 0%nat.
Proof.
  intros content. eexists _, _. split; [by vm_compute|].
  eapply (parseDeps_only_adds {| all := {[ key "db" "t" := 0%nat ]} |} content "r"
            {| projs := [NewProject "db" "t"]; deps := [] |}).
  - by vm_compute.
  - reflexivity.
Defined.


Lemma after_lines_no_root rootProj lines v :
  state v = waitingRoot → (∀ l name, l ∈ lines → ¬ root_decl l name) →
  after_lines rootProj lines v v.
Proof.
  intros Hs. induction lines as [|l lines IH]; intros Hno; [constructor|].
  apply (after_cons _ _ _ _ v).
  - rewrite parseDeps_line_waitingRoot by done.
    assert (FindStringSubmatch rootProjRE l = None) as ->; [|done].
    apply rootProjRE_None. intros name. apply Hno. left.
  - apply IH. intros x name Hx. apply Hno. by right.
Qed.

Lemma first_root_decl (lines : list string) :
  (∃ l name, l ∈ lines ∧ root_decl l name) →
  ∃ a l name b, lines = a ++ l :: b ∧ root_decl l name
                ∧ ∀ x n, x ∈ a → ¬ root_decl x n.
Proof.
  induction lines as [|x lines IH]; intros (l & name & Hin & Hl).
  - by apply elem_of_nil in Hin.
  - destruct (FindStringSubmatch rootProjRE x) as [m|] eqn:Hm.
    + destruct (rootProjRE_decl _ _ Hm) as (n & Hx & _).
      exists [], x, n, lines. split; [done|]. split; [done|].
      intros y ? Hy. by apply elem_of_nil in Hy.
    + pose proof (proj1 (rootProjRE_None x) Hm) as Hno.
      apply elem_of_cons in Hin as [->|Hin]; [by destruct (Hno name)|].
      destruct IH as (a & l' & n' & b & -> & Hl' & Ha); [by exists l, name|].
      exists (x :: a), l', n', b. split; [done|]. split; [done|].
      intros y n [->|Hy]%elem_of_cons; [apply Hno|by apply Ha].
Qed.

Lemma parseDeps_loop_no_root rootProj lines v :
  state v = waitingRoot → (∀ l name, l ∈ lines → ¬ root_decl l name) →
  parseDeps_loop rootProj lines v = Ok (None, v).
Proof.
  intros Hs Hno. rewrite <- (app_nil_r lines).
  by rewrite (parseDeps_loop_app _ _ _ _ v) by (by apply after_lines_no_root).
Qed.

(** X15. A report without a root declaration (no line
    [Root project '...'] or [Project '...']) is read to its end without
    effect: [parseDeps] returns no error and leaves the registry and the
    objects as they were, whatever else the lines hold and even when
    [rootProj] is empty. *)
Theorem parseDeps_no_root ps content rootProj h :
  (∀ l name, l ∈ strings.Split content "010"%char → ¬ root_decl l name) →
  parseDeps ps content rootProj h = Ok (None, ps, h).
Proof.
  intros Hno. unfold parseDeps.
  by rewrite parseDeps_loop_no_root.
Qed.

Lemma parseDeps_no_root_witness :
  parseDeps NewProjects
    (strings.Join ["+--- project :core"; "no such line"; ""] strings.nl) ""
    empty_heap
  = Ok (None, NewProjects, empty_heap).
Proof.
  apply parseDeps_no_root. intros l name Hl.
  apply (proj1 (rootProjRE_None l)).
  vm_compute in Hl.
  repeat (apply elem_of_cons in Hl as [->|Hl]; [by vm_compute|]).
  by apply elem_of_nil in Hl.
Defined.

(** X16. On a well-formed registry [parseDeps] panics exactly when
    [rootProj] is empty and the report has a root declaration; the
    panic is that of [Get], ["empty root not supported"]. *)
Theorem parseDeps_panics_iff ps content rootProj h :
  registry_wf ps h → heap_wf h →
  ((∃ msg, parseDeps ps content rootProj h = Panic msg)
   ↔ rootProj = ""
     ∧ ∃ l name, l ∈ strings.Split content "010"%char ∧ root_decl l name)
  ∧ ∀ msg, parseDeps ps content rootProj h = Panic msg →
      msg = "empty root not supported".
Proof.
  intros Hreg Hheap.
  assert (Hpanic : rootProj = "" →
            (∃ l name, l ∈ strings.Split content "010"%char ∧ root_decl l name) →
            parseDeps ps content rootProj h = Panic "empty root not supported").
  { intros -> Hex. apply first_root_decl in Hex as (a & l & name & b & Heq & Hl & Ha).
    unfold parseDeps. rewrite Heq.
    rewrite (parseDeps_loop_app _ _ _ _ (mkVars ps h waitingRoot []))
      by (by apply after_lines_no_root).
    simpl. rewrite parseDeps_line_waitingRoot by done.
    by rewrite (rootProjRE_decl_complete _ _ Hl). }
  assert (Hcases : (rootProj = ""
                    ∧ ∃ l name, l ∈ strings.Split content "010"%char ∧ root_decl l name)
                   ∨ ∃ r, parseDeps ps content rootProj h = Ok r).
  { destruct (decide (rootProj = "")) as [->|Hne].
    - destruct (decide (Exists (λ l, is_Some (FindStringSubmatch rootProjRE l))
                          (strings.Split content "010"%char))) as [Hex|Hno].
      + left. split; [done|]. apply Exists_exists in Hex as (l & Hin & [m Hm]).
        destruct (rootProjRE_decl _ _ Hm) as (name & Hl & _). by exists l, name.
      + right. eexists. unfold parseDeps. rewrite parseDeps_loop_no_root; [done..|].
        intros l name Hin Hl.
        apply Hno, Exists_exists. exists l. split; [done|].
        by rewrite (rootProjRE_decl_complete _ _ Hl).
    - right. destruct (parseDeps_returns ps h content rootProj Hne Hreg Hheap)
        as (err & ps' & h' & -> & _). by eexists. }
  split; [split|].
  - intros [msg Hmsg]. destruct Hcases as [?|[r Hr]]; [done|congruence].
  - intros [-> Hex]. eexists. by apply Hpanic.
  - intros msg Hmsg. destruct Hcases as [[-> Hex]|[r Hr]]; [|congruence].
    rewrite Hpanic in Hmsg by done. congruence.
Qed.

Lemma parseDeps_panics_iff_witness :
  parseDeps NewProjects
    (strings.Join ["Project ':app'"; "+--- project :core"; ""] strings.nl) ""
    empty_heap
  = Panic "empty root not supported".
Proof.
  destruct (parseDeps_panics_iff NewProjects
              (strings.Join ["Project ':app'"; "+--- project :core"; ""] strings.nl)
              "" empty_heap (registry_wf_new empty_heap) heap_wf_empty) as [_ Hmsg].
  destruct (parseDeps NewProjects _ "" empty_heap) as [r|msg] eqn:Hp.
  - by vm_compute in Hp.
  - by rewrite (Hmsg msg).
Defined.


Lemma parseDeps_line_state rootProj l v r :
  parseDeps_line rootProj l v = Ok r → state (vars_of r) = next_state l (state v).
Proof.
  unfold parseDeps_line, next_state, marker.
  destruct (decide (state v = waitingRoot)) as [Hs|Hs].
  - rewrite Hs. destruct (FindStringSubmatch rootProjRE l) as [m|].
    + destruct (Get _ _ _ _) as [[[p ps1] h1]|]; [|done].
      rewrite bind_Ok. by intros [= <-].
    + by intros [= <-].
  - destruct (state v) eqn:Hst; [done| |].
    + destruct (strings.HasPrefix l "\---" || strings.HasPrefix l "+---"); simpl.
      * destruct (decide (strings.len l = 0)); [by intros [= <-]|].
        destruct (FindStringSubmatch depRE l) as [m|]; [|by intros [= <-]].
        destruct (Get _ _ _ _) as [[[p ps1] h1]|]; [|done]. rewrite bind_Ok.
        destruct (utils_Last _) as [lp|]; [|done]. rewrite bind_Ok.
        destruct (unwind _ _ _) as [[stk lp']|]; [|done]. rewrite bind_Ok.
        destruct (AddDependency _ _ _) as [[e h2]|]; [|done]. rewrite bind_Ok.
        by intros [= <-].
      * by intros [= <-].
    + simpl.
      destruct (decide (strings.len l = 0)); [by intros [= <-]|].
      destruct (FindStringSubmatch depRE l) as [m|]; [|by intros [= <-]].
      destruct (Get _ _ _ _) as [[[p ps1] h1]|]; [|done]. rewrite bind_Ok.
      destruct (utils_Last _) as [lp|]; [|done]. rewrite bind_Ok.
      destruct (unwind _ _ _) as [[stk lp']|]; [|done]. rewrite bind_Ok.
      destruct (AddDependency _ _ _) as [[e h2]|]; [|done]. rewrite bind_Ok.
      by intros [= <-].
Qed.

Lemma after_lines_app_inv rootProj x y v v' :
  after_lines rootProj (x ++ y) v v' →
  ∃ v1, after_lines rootProj x v v1 ∧ after_lines rootProj y v1 v'.
Proof.
  revert v. induction x as [|l x IH]; intros v H; simpl in H.
  - exists v. split; [constructor|done].
  - inversion H as [|? ? ? v1 ? Hl Hrest]; subst.
    destruct (IH _ Hrest) as (v2 & Hx & Hy). exists v2.
    split; [by econstructor|done].
Qed.

Lemma after_lines_state rootProj pre v v' :
  after_lines rootProj pre v v' → state v' = foldl (λ s l, next_state l s) (state v) pre.
Proof.
  induction 1 as [v|l rest v v1 v2 Hl _ IH]; simpl; [done|].
  pose proof (parseDeps_line_state _ _ _ _ Hl) as Hs. simpl in Hs.
  by rewrite IH, Hs.
Qed.

Lemma next_state_parsing (lines : list string) :
  foldl (λ s l, next_state l s) parsingDeps lines = parsingDeps.
Proof. induction lines as [|l lines IH]; simpl; done. Qed.

Lemma next_state_marker (lines : list string) (m : string) (s : parseState) :
  s ≠ waitingRoot → m ∈ lines → marker m = true →
  foldl (λ s l, next_state l s) s lines = parsingDeps.
Proof.
  revert s. induction lines as [|l lines IH]; intros s Hs Hin Hm.
  - by apply elem_of_nil in Hin.
  - simpl. destruct s; [done| |by apply next_state_parsing].
    apply elem_of_cons in Hin as [<-|Hin].
    + simpl. rewrite Hm. apply next_state_parsing.
    + apply IH; [|done..]. simpl. by destruct (marker l).
Qed.

Lemma next_state_root (lines : list string) (s : parseState) :
  s ≠ waitingRoot → foldl (λ s l, next_state l s) s lines ≠ waitingRoot.
Proof.
  revert s. induction lines as [|l lines IH]; intros s Hs; simpl; [done|].
  apply IH. destruct s; simpl; [done|by destruct (marker l)|done].
Qed.

(** The loop either leaves within the lines [pre], with a result that
    does not depend on what follows them, or goes through them. *)
Lemma parseDeps_loop_prefix rootProj pre v :
  (∃ res, ∀ rest, parseDeps_loop rootProj (pre ++ rest) v = res)
  ∨ (∃ v', after_lines rootProj pre v v').
Proof.
  revert v. induction pre as [|l pre IH]; intros v.
  - right. exists v. constructor.
  - destruct (parseDeps_line rootProj l v) as [[v1|v1|err v1]|msg] eqn:Hl.
    + destruct (IH v1) as [[res Hres]|[v' Hv']].
      * left. exists res. intros rest. simpl. by rewrite Hl, bind_Ok.
      * right. exists v'. by econstructor.
    + left. eexists. intros rest. simpl. by rewrite Hl, bind_Ok.
    + left. eexists. intros rest. simpl. by rewrite Hl, bind_Ok.
    + left. exists (Panic msg). intros rest. simpl. by rewrite Hl.
Qed.

Lemma after_lines_header rootProj b ps h stk :
  (∀ x, x ∈ b → marker x = false) →
  after_lines rootProj b (mkVars ps h waitingDeps stk) (mkVars ps h waitingDeps stk).
Proof.
  induction b as [|l b IH]; intros Hb; [constructor|].
  econstructor; [|apply IH; intros x Hx; apply Hb; by right].
  rewrite parseDeps_line_waitingDeps; [done|done|]. apply Hb. left.
Qed.

(** X17. The lines before the root declaration and the lines between it
    and the first line starting with a branch marker are skipped,
    whatever they hold: the report without them is parsed to the same
    result. *)
Theorem parseDeps_header_skipped ps h rootProj c1 c2 a r name b rest :
  strings.Split c1 "010"%char = a ++ r :: b ++ rest →
  strings.Split c2 "010"%char = r :: rest →
  (∀ x n, x ∈ a → ¬ root_decl x n) → root_decl r name →
  (∀ x, x ∈ b → marker x = false) →
  parseDeps ps c1 rootProj h = parseDeps ps c2 rootProj h.
Proof.
  intros H1 H2 Ha Hr Hb. unfold parseDeps. rewrite H1, H2.
  rewrite (parseDeps_loop_app _ _ _ _ (mkVars ps h waitingRoot []))
    by (apply after_lines_no_root; [done|]; intros l n Hl; by apply Ha).
  simpl. rewrite parseDeps_line_waitingRoot by done.
  rewrite (rootProjRE_decl_complete _ _ Hr). change (group [r; name] 1) with name.
  simpl. destruct (Get ps rootProj name h) as [[[p ps1] h1]|]; [|done].
  rewrite !bind_Ok.
  by rewrite (parseDeps_loop_app _ _ _ _ _ (after_lines_header _ _ _ _ _ Hb)).
Qed.

Lemma parseDeps_header_skipped_witness :
  parseDeps NewProjects
    (strings.Join ["> Task :app:dependencies"; "Project ':app'"; "compileClasspath";
                   "+--- project :core"; ""] strings.nl) "r" empty_heap
  = parseDeps NewProjects
      (strings.Join ["Project ':app'"; "+--- project :core"; ""] strings.nl) "r"
      empty_heap.
Proof.
  apply (parseDeps_header_skipped _ _ _ _ _ ["> Task :app:dependencies"]
           "Project ':app'" ":app" ["compileClasspath"] ["+--- project :core"; ""]).
  - reflexivity.
  - reflexivity.
  - intros x n ->%list_elem_of_singleton. by apply (proj1 (rootProjRE_None _)).
  - split; [by right|done].
  - by intros x ->%list_elem_of_singleton.
Defined.

(** X18. Once a root declaration and, after it, a line starting with a
    branch marker have been read, the first empty line ends the parse:
    what follows it is not read, so the result is the same whatever
    follows. *)
Theorem parseDeps_stops_at_blank ps h rootProj c1 c2 a r name b m c post :
  strings.Split c1 "010"%char = (a ++ r :: b ++ m :: c) ++ "" :: post →
  strings.Split c2 "010"%char = (a ++ r :: b ++ m :: c) ++ [""] →
  root_decl r name → marker m = true →
  parseDeps ps c1 rootProj h = parseDeps ps c2 rootProj h.
Proof.
  intros H1 H2 Hr Hm. unfold parseDeps. rewrite H1, H2.
  destruct (parseDeps_loop_prefix rootProj (a ++ r :: b ++ m :: c)
              (mkVars ps h waitingRoot [])) as [[res Hres]|[v' Hv']].
  { by rewrite !Hres. }
  rewrite !(parseDeps_loop_app _ _ _ _ _ Hv').
  assert (state v' = parsingDeps) as Hst.
  { apply after_lines_app_inv in Hv' as (v1 & Ha & Hv').
    inversion Hv' as [|? ? ? v2 ? Hl Hrest]; subst.
    rewrite (after_lines_state _ _ _ _ Hrest).
    apply (next_state_marker _ m); [|by apply elem_of_app; right; left|done].
    pose proof (parseDeps_line_state _ _ _ _ Hl) as Hs2. simpl in Hs2. rewrite Hs2.
    destruct (state v1); simpl; [|by destruct (marker r)|done].
    by rewrite (rootProjRE_decl_complete _ _ Hr). }
  simpl. by rewrite !parseDeps_line_blank, !bind_Ok.
Qed.

Lemma parseDeps_stops_at_blank_witness :
  parseDeps NewProjects
    (strings.Join ["Project ':app'"; "+--- project :core"; ""; "not a dependency line"]
       strings.nl) "r" empty_heap
  = parseDeps NewProjects
      (strings.Join ["Project ':app'"; "+--- project :core"; ""] strings.nl) "r"
      empty_heap.
Proof.
  apply (parseDeps_stops_at_blank _ _ _ _ _ [] "Project ':app'" ":app" []
           "+--- project :core" [] ["not a dependency line"]).
  - reflexivity.
  - reflexivity.
  - split; [by right|done].
  - reflexivity.
Defined.


Lemma unwind_inv new_depth stk lp stk' lp' :
  unwind new_depth stk lp = Ok (stk', lp') → head stk = Some lp →
  ∃ dropped, stk = dropped ++ stk' ∧ head stk' = Some lp'
             ∧ (depth lp' < new_depth)%nat.
Proof.
  revert lp. induction stk as [|x rest IH]; intros lp HU Hhead; [done|].
  simpl in Hhead. injection Hhead as ->. rewrite unwind_unfold in HU.
  destruct (decide (new_depth ≤ depth lp)%nat) as [Hle|Hgt].
  - simpl in HU. destruct rest as [|lp2 rest2]; [done|].
    simpl in HU. destruct (IH lp2 HU) as (dropped & Hd & Hh & Hlt); [done|].
    exists (lp :: dropped). split; [by rewrite Hd at 1|done].
  - injection HU as <- <-. exists []. split; [done|]. split; [done|lia].
Qed.

Lemma stack_sorted_length (top : pd) (rest : list pd) :
  stack_sorted (top :: rest) → (length rest ≤ depth top)%nat.
Proof.
  revert top. induction rest as [|x rest IH]; intros top Hs; simpl; [lia|].
  apply StronglySorted_inv in Hs as [Hs Hall].
  specialize (IH x Hs). apply Forall_cons in Hall as [Hx _]. lia.
Qed.

(** What holds of the stack before every line. *)
Lemma parseDeps_line_stack rootProj l v v1 :
  parseDeps_line rootProj l v = Ok (Continue v1) →
  stack_sorted (stack v) →
  (state v = waitingRoot → stack v = []) →
  (state v ≠ waitingRoot →
     ∃ above root, stack v = above ++ [root] ∧ depth root = 0%nat
                   ∧ ∀ x, x ∈ above → (1 ≤ depth x)%nat) →
  stack_sorted (stack v1)
  ∧ (state v1 = waitingRoot → stack v1 = [])
  ∧ (state v1 ≠ waitingRoot →
       ∃ above root, stack v1 = above ++ [root] ∧ depth root = 0%nat
                     ∧ ∀ x, x ∈ above → (1 ≤ depth x)%nat).
Proof.
  intros Hl Hsorted Hempty Hbottom.
  destruct (parseDeps_line_inv _ _ _ _ Hl)
    as [(_ & _ & Hstk & Hsame & Hback)
       |[(Hs & name & p & ps1 & h1 & _ & _ & Heq)
        |(Hs & m & p & ps1 & h1 & lp & stk & lp' & e & h2
             & Hm & _ & HL & HU & _ & Heq)]]; simpl in *.
  - rewrite Hstk. split; [done|]. split; [by auto|].
    intros Hne. apply Hbottom. intros Hw. apply Hne.
    specialize (Hsame Hw). by simplify_eq.
  - injection Heq as ->. simpl. rewrite (Hempty Hs). split; [|split; [done|]].
    + repeat constructor.
    + intros _. exists [], (mkPd p 0). split; [done|]. split; [done|].
      intros x Hx. by apply elem_of_nil in Hx.
  - injection Heq as ->. simpl. split; [|split; [done|intros _]].
    + destruct (stack v) as [|top rest] eqn:Hstack; [done|].
      simpl in HL. injection HL as ->.
      destruct (unwind_inv _ _ _ _ _ HU) as (dropped & Hd & Hh & Hlt); [done|].
      rewrite Hd in Hsorted. apply StronglySorted_app_1_r in Hsorted.
      constructor; [done|]. simpl.
      destruct stk as [|y stk]; [done|]. simpl in Hh. injection Hh as ->.
      apply StronglySorted_inv in Hsorted as [_ Hall].
      constructor; [done|]. eapply Forall_impl; [exact Hall|]. simpl. intros z Hz. lia.
    + destruct (Hbottom Hs) as (above & root & Hstack & Hroot & Habove).
      destruct (stack v) as [|top rest] eqn:Hstack'; [done|].
      simpl in HL. injection HL as ->.
      destruct (unwind_inv _ _ _ _ _ HU) as (dropped & Hd & Hh & _); [done|].
      destruct stk as [|y stk _] using rev_ind; [done|].
      rewrite Hd, app_assoc in Hstack. apply app_inj_tail in Hstack as [<- ->].
      exists (mkPd p (strings.len (group m 1)) :: stk), root.
      split; [done|]. split; [done|].
      destruct (depRE_sound _ _ Hm) as (whole & pre & id & -> & Hpre & _).
      change (group [whole; pre; id] 1) with pre.
      intros x [->|Hx]%elem_of_cons.
      * simpl. unfold strings.len. destruct pre; [done|simpl; lia].
      * apply Habove. apply elem_of_app. by right.
Qed.

Lemma unwind_Ok_pop_while new_depth stk lp stk' lp' :
  unwind new_depth stk lp = Ok (stk', lp') → head stk = Some lp →
  stk' = pop_while new_depth stk.
Proof.
  revert lp. induction stk as [|x rest IH]; intros lp HU Hhead; [done|].
  simpl in Hhead. injection Hhead as ->. rewrite unwind_unfold in HU. simpl.
  destruct (decide (new_depth ≤ depth lp)%nat) as [Hle|Hgt].
  - simpl in HU. destruct rest as [|lp2 rest2]; [done|].
    simpl in HU. by apply (IH lp2).
  - by injection HU as <- <-.
Qed.

Lemma pop_entries_of rootProj ps new_depth stk es :
  Forall2 (entry_of rootProj ps) stk es →
  Forall2 (entry_of rootProj ps) (pop_while new_depth stk) (pop_entries new_depth es).
Proof.
  induction 1 as [|x e stk es [Hnode Hdepth] Hrest IH]; simpl; [constructor|].
  rewrite Hdepth. destruct (decide (new_depth ≤ e.2)%nat); [done|].
  constructor; [by split|done].
Qed.

Lemma entry_of_mono rootProj ps ps' stk es :
  (∀ k p, all ps !! k = Some p → all ps' !! k = Some p) →
  Forall2 (entry_of rootProj ps) stk es → Forall2 (entry_of rootProj ps') stk es.
Proof.
  intros Hsub Hall. eapply Forall2_impl; [exact Hall|].
  intros x e [Hnode Hdepth]. split; [by apply Hsub|done].
Qed.

Lemma chain_snoc (root : string) (es : list (string * nat)) (e : string * nat) :
  chain root (es ++ [e]) = e :: pop_entries e.2 (chain root es).
Proof. unfold chain. by rewrite fold_left_app. Qed.

Lemma Get_key ps root name h p ps' h' :
  Get ps root name h = Ok (p, ps', h') →
  all ps' !! key root name = Some p
  ∧ ∀ k q, all ps !! k = Some q → all ps' !! k = Some q.
Proof.
  intros HG.
  destruct (Get_cases _ _ _ _ _ _ _ HG) as (_ & _ & [(Hk & -> & ->)|(Hk & -> & -> & ->)]).
  - done.
  - simpl. split; [by rewrite lookup_insert_eq|].
    intros k q Hq. rewrite lookup_insert_ne; [done|congruence].
Qed.

(** One more line read keeps [stack_inv]. *)
Lemma parseDeps_line_stack_inv rootProj seen l v v1 :
  parseDeps_line rootProj l v = Ok (Continue v1) →
  stack_inv rootProj seen v → stack_inv rootProj (seen ++ [l]) v1.
Proof.
  intros Hl. unfold stack_inv at 1.
  destruct (decide (state v = waitingRoot)) as [Hs|Hs].
  - intros [Hstack Hno]. rewrite parseDeps_line_waitingRoot in Hl by done.
    destruct (FindStringSubmatch rootProjRE l) as [m|] eqn:Hm.
    + destruct (rootProjRE_decl _ _ Hm) as (name & Hroot & ->).
      change (group [l; name] 1) with name in Hl.
      destruct (Get (projects v) rootProj name (heap v)) as [[[p ps1] h1]|] eqn:HG;
        [|done].
      rewrite bind_Ok in Hl. injection Hl as <-.
      unfold stack_inv. simpl. exists seen, l, name, [], [].
      split; [done|]. split; [done|]. split; [done|].
      split; [intros x Hx; by apply elem_of_nil in Hx|].
      split; [done|]. split; [done|]. split; [constructor|].
      rewrite Hstack. constructor; [|constructor].
      destruct (Get_key _ _ _ _ _ _ _ HG) as [Hk _]. split; [exact Hk|done].
    + injection Hl as <-. unfold stack_inv. rewrite decide_True by done.
      split; [done|]. intros x name [Hx|Hx]%elem_of_app.
      * by apply Hno.
      * apply list_elem_of_singleton in Hx as ->. by apply rootProjRE_None.
  - intros (a & r & name & b & c & -> & Ha & Hr & Hb & Hc & Hmark & Hall & Hstk).
    assert (Hcases : (state v = waitingDeps ∧ marker l = false) ∨ parsing v l).
    { destruct (state v) eqn:Hst; [done| |right; by left].
      destruct (marker l) eqn:Hml; [right; right; by rewrite Hst|by left]. }
    destruct Hcases as [[Hst Hml]|Hp].
    + rewrite parseDeps_line_waitingDeps in Hl by done. injection Hl as <-.
      unfold stack_inv. simpl. rewrite (proj1 Hc Hst) in *.
      exists a, r, name, (b ++ [l]), [].
      split; [by rewrite !app_nil_r, <- app_assoc|]. split; [done|]. split; [done|].
      split.
      { intros x [Hx|Hx]%elem_of_app; [by apply Hb|].
        by apply list_elem_of_singleton in Hx as ->. }
      split; [done|]. split; [done|]. split; [constructor|done].
    + assert (l ≠ "") as Hne.
      { intros ->. destruct Hp as [Hst|[_ Hml]]; [|done].
        by rewrite parseDeps_line_blank in Hl. }
      rewrite parseDeps_line_parsing in Hl by done.
      destruct (FindStringSubmatch depRE l) as [m|] eqn:Hm; [|done]. simpl in Hl.
      destruct (Get (projects v) rootProj (group m 2) (heap v))
        as [[[p ps1] h1]|] eqn:HG; [|done].
      rewrite bind_Ok in Hl.
      destruct (utils_Last (stack v)) as [lp|] eqn:HL; [|done]. rewrite bind_Ok in Hl.
      destruct (unwind (strings.len (group m 1)) (stack v) lp)
        as [[stk lp']|] eqn:HU; [|done].
      rewrite bind_Ok in Hl.
      destruct (AddDependency (proj lp') p h1) as [[e h2]|] eqn:HA; [|done].
      rewrite bind_Ok in Hl. injection Hl as <-.
      assert (head (stack v) = Some lp) as Hhead.
      { destruct (stack v); [done|]. simpl in HL. by injection HL as ->. }
      rewrite (unwind_Ok_pop_while _ _ _ _ _ HU Hhead).
      destruct (Get_key _ _ _ _ _ _ _ HG) as [Hk Hsub].
      assert (line_entry l = Some (group m 2, strings.len (group m 1))) as Hentry.
      { unfold line_entry. by rewrite Hm. }
      unfold stack_inv. simpl. exists a, r, name, b, (c ++ [l]).
      split; [rewrite <- app_assoc; simpl; by rewrite <- app_assoc|].
      split; [done|]. split; [done|].
      split; [done|]. split; [split; [done|by destruct c]|].
      split.
      { intros l0 c' Hc'. destruct c as [|l1 c1].
        - injection Hc' as <- <-. destruct Hp as [Hst|[_ Hml]]; [|done].
          destruct Hs. assert (state v = waitingDeps) as Hw by (by apply Hc).
          congruence.
        - injection Hc' as <- <-. by apply (Hmark l1 c1). }
      split.
      { apply Forall_app. split; [done|]. constructor; [by rewrite Hentry|constructor]. }
      rewrite omap_app. simpl. rewrite Hentry. simpl. rewrite chain_snoc. simpl.
      constructor; [by split|].
      apply pop_entries_of. by eapply entry_of_mono.
Qed.

Lemma after_lines_stack_inv rootProj seen pre v v' :
  after_lines rootProj pre v v' →
  stack_inv rootProj seen v → stack_inv rootProj (seen ++ pre) v'.
Proof.
  intros Hafter. revert seen.
  induction Hafter as [v|l rest v v1 v2 Hl _ IH]; intros seen Hinv.
  - by rewrite app_nil_r.
  - rewrite (cons_middle l seen rest), app_assoc. apply IH.
    by apply (parseDeps_line_stack_inv _ _ _ _ _ Hl).
Qed.

Lemma pop_entries_bottom (new_depth : nat) (above : list (string * nat)) (root : string) :
  (1 ≤ new_depth)%nat →
  ∃ above', pop_entries new_depth (above ++ [(root, 0%nat)]) = above' ++ [(root, 0%nat)].
Proof.
  intros Hd. induction above as [|e above IH]; simpl.
  - rewrite decide_False by lia. by exists [].
  - destruct (decide (new_depth ≤ e.2)%nat); [done|]. by exists (e :: above).
Qed.

Lemma chain_bottom (root : string) (es : list (string * nat)) :
  Forall (λ e, (1 ≤ e.2)%nat) es → ∃ above, chain root es = above ++ [(root, 0%nat)].
Proof.
  induction es as [|e es IH] using rev_ind; intros Hall.
  - by exists [].
  - apply Forall_app in Hall as [Hes He]. apply Forall_cons in He as [He _].
    destruct (IH Hes) as [above Habove]. rewrite chain_snoc, Habove.
    destruct (pop_entries_bottom e.2 above root He) as [above' ->].
    by exists (e :: above').
Qed.

Lemma line_entry_depth (l : string) (e : string * nat) :
  line_entry l = Some e → (1 ≤ e.2)%nat.
Proof.
  unfold line_entry. destruct (FindStringSubmatch depRE l) as [m|] eqn:Hm; [|done].
  simpl. intros [= <-]. simpl.
  destruct (depRE_sound _ _ Hm) as (whole & pre & id & -> & Hpre & _).
  change (group [whole; pre; id] 1) with pre.
  unfold strings.len. destruct pre; [done|simpl; lia].
Qed.

(** A line read after the root declaration leaves the bottom entry of
    the stack where it is. *)
Lemma parseDeps_line_last rootProj l v v1 :
  parseDeps_line rootProj l v = Ok (Continue v1) → state v ≠ waitingRoot →
  (∃ above root, stack v = above ++ [root] ∧ depth root = 0%nat) →
  last (stack v1) = last (stack v).
Proof.
  intros Hl Hs (above & root & Hstack & Hroot).
  destruct (parseDeps_line_inv _ _ _ _ Hl)
    as [(_ & _ & Hsame & _)
       |[(Hw & _)
        |(_ & m & p & ps1 & h1 & lp & stk & lp' & e & h2
            & Hm & _ & HL & HU & _ & Heq)]]; simpl in *.
  - by rewrite Hsame.
  - done.
  - injection Heq as ->. simpl.
    assert (head (stack v) = Some lp) as Hhead.
    { destruct (stack v); [done|]. simpl in HL. by injection HL as ->. }
    rewrite (unwind_Ok_pop_while _ _ _ _ _ HU Hhead), Hstack.
    assert (1 ≤ strings.len (group m 1))%nat as Hd.
    { apply (line_entry_depth l (group m 2, strings.len (group m 1))).
      unfold line_entry. by rewrite Hm. }
    destruct (pop_while_bottom (strings.len (group m 1)) above root Hroot Hd)
      as (above' & -> & _).
    by rewrite (app_comm_cons above'), !last_snoc.
Qed.

Lemma after_lines_last rootProj more v v' :
  after_lines rootProj more v v' → state v ≠ waitingRoot →
  stack_sorted (stack v) →
  (∃ above root, stack v = above ++ [root] ∧ depth root = 0%nat
                 ∧ ∀ x, x ∈ above → (1 ≤ depth x)%nat) →
  last (stack v') = last (stack v).
Proof.
  induction 1 as [v|l rest v v1 v2 Hl _ IH]; intros Hs Hsorted Hbottom; [done|].
  destruct (parseDeps_line_stack _ _ _ _ Hl Hsorted) as (Hsorted1 & _ & Hbottom1);
    [done|done|].
  assert (state v1 ≠ waitingRoot) as Hs1.
  { pose proof (parseDeps_line_state _ _ _ _ Hl) as Hst. simpl in Hst. rewrite Hst.
    destruct (state v); simpl; [done|by destruct (marker l)|done]. }
  rewrite IH by auto. apply (parseDeps_line_last _ _ _ _ Hl Hs).
  destruct Hbottom as (above & root & ? & ? & _). by exists above, root.
Qed.

(** X19. Before every line of a report the depths on the stack of
    [parseDeps] grow strictly from the bottom entry to the top one. The
    stack is empty exactly while the root declaration is awaited, which
    is while no line read was one; afterwards its bottom entry has depth
    0 and every entry above it has depth at least 1, so the stack never
    holds more entries than one more than the depth of its top entry.
    The entries point to the right nodes: the lines read are those
    before the first root declaration, that declaration, the lines
    skipped up to the first branch marker and the dependency lines, and
    the stack is the one the design document describes for these
    dependency lines (the root pushed at depth 0, each line popping while
    its depth is at most the depth of the top entry and then pushing
    its identifier and depth), every entry pointing to the node the
    registry holds for its identifier under [rootProj]; the bottom entry
    points to the node of the declared root. It is never popped: the
    lines read later leave the bottom entry as it is. *)
Theorem parseDeps_stack_invariant rootProj pre ps h v :
  after_lines rootProj pre (mkVars ps h waitingRoot []) v →
  stack_sorted (stack v)
  ∧ (state v = waitingRoot ↔ stack v = [])
  ∧ (∀ above root, stack v = above ++ [root] →
       depth root = 0%nat ∧ ∀ x, x ∈ above → (1 ≤ depth x)%nat)
  ∧ (∀ top rest, stack v = top :: rest → (length rest ≤ depth top)%nat)
  ∧ (state v = waitingRoot → ∀ l name, l ∈ pre → ¬ root_decl l name)
  ∧ (state v ≠ waitingRoot →
       ∃ a r name b c above root,
         pre = a ++ r :: b ++ c
         ∧ (∀ x n, x ∈ a → ¬ root_decl x n) ∧ root_decl r name
         ∧ (∀ x, x ∈ b → marker x = false)
         ∧ (state v = waitingDeps ↔ c = [])
         ∧ (∀ l c', c = l :: c' → marker l = true)
         ∧ Forall (λ l, is_Some (line_entry l)) c
         ∧ Forall2 (λ x e, all (projects v) !! (rootProj +:+ strings.nl +:+ e.1)
                           = Some (proj x)
                           ∧ depth x = e.2)
             (stack v) (chain name (omap line_entry c))
         ∧ stack v = above ++ [root]
         ∧ all (projects v) !! (rootProj +:+ strings.nl +:+ name) = Some (proj root))
  ∧ (∀ more v', after_lines rootProj more v v' → stack v ≠ [] →
       last (stack v') = last (stack v)).
Proof.
  intros Hafter.
  assert (stack_sorted (stack v)
          ∧ (state v = waitingRoot → stack v = [])
          ∧ (state v ≠ waitingRoot →
               ∃ above root, stack v = above ++ [root] ∧ depth root = 0%nat
                             ∧ ∀ x, x ∈ above → (1 ≤ depth x)%nat))
    as (Hsorted & Hempty & Hbottom).
  { remember (mkVars ps h waitingRoot []) as v0 eqn:Hv0.
    assert (stack_sorted (stack v0)
            ∧ (state v0 = waitingRoot → stack v0 = [])
            ∧ (state v0 ≠ waitingRoot →
                 ∃ above root, stack v0 = above ++ [root] ∧ depth root = 0%nat
                               ∧ ∀ x, x ∈ above → (1 ≤ depth x)%nat)) as Hinit.
    { subst v0. simpl. split; [constructor|]. split; done. }
    clear Hv0. induction Hafter as [v|l rest v v1 v2 Hl _ IH]; [done|].
    apply IH. destruct Hinit as (H1 & H2 & H3).
    by apply (parseDeps_line_stack _ _ _ _ Hl). }
  assert (stack_inv rootProj pre v) as Hinv.
  { apply (after_lines_stack_inv rootProj [] pre _ _ Hafter).
    unfold stack_inv. simpl. split; [done|]. intros l name Hl. by apply elem_of_nil in Hl. }
  assert (Hiff : state v = waitingRoot ↔ stack v = []).
  { split; [done|]. intros Hnil. destruct (decide (state v = waitingRoot)); [done|].
    destruct Hbottom as (above & root & Hstack & _); [done|].
    rewrite Hnil in Hstack. by destruct above. }
  split; [done|]. split; [done|]. split; [|split; [|split; [|split]]].
  - intros above root Hstack.
    destruct Hbottom as (above' & root' & Hstack' & Hroot & Habove).
    { intros Hw. rewrite (Hempty Hw) in Hstack. by destruct above. }
    rewrite Hstack in Hstack'. by apply app_inj_tail in Hstack' as [-> ->].
  - intros top rest Hstack. apply stack_sorted_length. by rewrite <- Hstack.
  - intros Hw. unfold stack_inv in Hinv. rewrite decide_True in Hinv by done.
    apply Hinv.
  - intros Hs. unfold stack_inv in Hinv. rewrite decide_False in Hinv by done.
    destruct Hinv as (a & r & name & b & c & Hpre & Ha & Hr & Hb & Hc & Hmark & Hall & Hstk).
    destruct (chain_bottom name (omap line_entry c)) as [above_e Hchain].
    { apply Forall_forall. intros e (l & _ & He)%list_elem_of_omap.
      by apply (line_entry_depth l). }
    pose proof Hstk as Hstk'. rewrite Hchain in Hstk'.
    apply Forall2_app_inv_r in Hstk' as (above & bottom & _ & Hbot & Hstack).
    apply Forall2_cons_inv_r in Hbot as (root & rest & [Hnode _] & Hrest & ->).
    apply Forall2_nil_inv_r in Hrest as ->.
    exists a, r, name, b, c, above, root.
    split; [exact Hpre|]. split; [exact Ha|]. split; [exact Hr|]. split; [exact Hb|].
    split; [exact Hc|]. split; [exact Hmark|]. split; [exact Hall|].
    split; [exact Hstk|]. split; [exact Hstack|exact Hnode].
  - intros more v' Hmore Hne. apply (after_lines_last _ _ _ _ Hmore); [|done|].
    + intros Hw. by apply Hne, Hempty.
    + apply Hbottom. intros Hw. by apply Hne, Hempty.
Qed.

Lemma parseDeps_stack_invariant_witness :
  ∃ v root,
    after_lines "r" ["Project ':app'"; "+--- project :core"; "|    \--- com.y:z:1"]
      (mkVars NewProjects empty_heap waitingRoot []) v
    ∧ stack_sorted (stack v)
    ∧ last (stack v) = Some root
    ∧ all (projects v) !! ("r" +:+ strings.nl +:+ ":app") = Some (proj root).
Proof.
  assert (∃ v, after_lines "r"
                 ["Project ':app'"; "+--- project :core"; "|    \--- com.y:z:1"]
                 (mkVars NewProjects empty_heap waitingRoot []) v
               ∧ state v = parsingDeps) as (v & Hafter & Hst).
  { eexists. split.
    - eapply after_cons; [by vm_compute|].
      eapply after_cons; [by vm_compute|].
      eapply after_cons; [by vm_compute|]. apply after_nil.
    - reflexivity. }
  destruct (parseDeps_stack_invariant "r" _ NewProjects empty_heap v Hafter)
    as (Hsorted & _ & _ & _ & _ & Hnodes & _).
  destruct Hnodes as (a & r & name & b & c & above & root
                        & Hpre & Ha & Hr & _ & _ & _ & _ & _ & Hstack & Hroot).
  { by rewrite Hst. }
  assert (name = ":app") as ->.
  { destruct a as [|x a].
    - simpl in Hpre. injection Hpre as <- _.
      apply (root_decl_unique "Project ':app'"); [done|]. split; [by right|done].
    - simpl in Hpre. injection Hpre as <- _. destruct (Ha "Project ':app'" ":app").
      + left.
      + split; [by right|done]. }
  exists v, root. split; [exact Hafter|]. split; [exact Hsorted|].
  split; [by rewrite Hstack, last_snoc|exact Hroot].
Defined.

End dependency_report.

(* ===================================================================== *)
(** * The MySQL importer *)
(* ===================================================================== *)

Section importer.
Import archer mysql spec.

Lemma Get_plain ps root name h :
  plain root → plain name → ∃ p ps' h', Get ps root name h = Ok (p, ps', h').
Proof.
  intros [Hr _] [Hn _]. destruct (all ps !! key root name) eqn:Hk.
  - eexists _, _, _. by apply Get_found.
  - eexists _, _, _. by apply Get_fresh.
Qed.

Lemma Get_import_wf ps root name h p ps' h' :
  import_wf ps h → Get ps root name h = Ok (p, ps', h') →
  import_wf ps' h'
  ∧ all ps' !! key root name = Some p
  ∧ (∀ k q, all ps !! k = Some q → all ps' !! k = Some q)
  ∧ (∀ q Q, projs h !! q = Some Q → projs h' !! q = Some Q)
  ∧ deps h' = deps h.
Proof.
  intros (Hreg & Hheap & Hnamed) HG.
  destruct (Get_grows _ _ _ _ _ _ _ Hreg HG) as (Hreg' & Hk & Hsub & _).
  split; [|split; [done|split; [done|]]].
  - split; [done|]. split; [by eapply Get_heap_wf|by eapply Get_named].
  - destruct (Get_cases _ _ _ _ _ _ _ HG) as (_ & _ & [(_ & -> & ->)|(_ & -> & -> & ->)]);
      [done|]. simpl. split; [|done].
    intros q Q HQ. by rewrite lookup_app_l by (by eapply lookup_lt_Some).
Qed.

Lemma AddDependency_import_wf ps p d h e h' :
  import_wf ps h → AddDependency p d h = Ok (e, h') → import_wf ps h'.
Proof.
  intros (Hreg & Hheap & Hnamed) HA.
  split; [|split; [by eapply AddDependency_heap_wf|]].
  - eapply registry_wf_length; [done|]. by rewrite (AddDependency_length _ _ _ _ _ HA).
  - intros k q Hq. destruct (Hnamed _ _ Hq) as (Q & HQ & Hkey).
    unfold AddDependency in HA.
    destruct (projs h !! p) as [P|] eqn:HP; [|done].
    destruct (projs h !! d) as [D|] eqn:HD; [|done].
    injection HA as <- <-. simpl. destruct (decide (p = q)) as [->|Hne].
    + eexists. split; [apply list_lookup_insert_eq; by eapply lookup_lt_Some|].
      by simplify_eq.
    + exists Q. by rewrite list_lookup_insert_ne.
Qed.

Lemma named_fields ps h root name p P :
  registry_named ps h → plain root → plain name →
  all ps !! key root name = Some p → projs h !! p = Some P →
  Root P = root ∧ Name P = name.
Proof.
  intros Hnamed [_ Hr] [_ Hn] Hk HP.
  destruct (Hnamed _ _ Hk) as (P' & HP' & Hkey). simplify_eq.
  by apply key_inj_plain.
Qed.

(** One foreign key row: the call returns, the edge is there, and the
    edges of the rows before are still there. *)
Lemma importFKs_row_spec fk ps h toSave :
  import_wf ps h → fk_plain fk →
  ∃ ps' h',
    importFKs_row fk (ps, h, toSave)
    = Ok (ps', h', {[ (fk_schemaName fk, fk_tableName fk) ]} ∪ toSave)
    ∧ import_wf ps' h'
    ∧ fk_edge fk ps' h'
    ∧ (∀ k q, all ps !! k = Some q → all ps' !! k = Some q)
    ∧ (∀ fk0, fk_plain fk0 → fk_edge fk0 ps h → fk_edge fk0 ps' h').
Proof.
  intros Hwf (Hs & Ht & Hr). unfold importFKs_row.
  destruct (Get_plain ps _ _ h Hs Ht) as (p & ps1 & h1 & HG1). rewrite HG1, bind_Ok.
  destruct (Get_import_wf _ _ _ _ _ _ _ Hwf HG1) as (Hwf1 & Hk1 & Hsub1 & Hold1 & Hdeps1).
  destruct (Get_plain ps1 _ _ h1 Hs Hr) as (d & ps2 & h2 & HG2). rewrite HG2, bind_Ok.
  destruct (Get_import_wf _ _ _ _ _ _ _ Hwf1 HG2) as (Hwf2 & Hk2 & Hsub2 & Hold2 & Hdeps2).
  pose proof (Hsub2 _ _ Hk1) as Hk1'.
  destruct Hwf2 as (Hreg2 & Hheap2 & Hnamed2).
  destruct (lookup_lt_is_Some_2 (projs h2) p) as [P HP]; [by eapply (proj1 Hreg2)|].
  destruct (lookup_lt_is_Some_2 (projs h2) d) as [D HD]; [by eapply (proj1 Hreg2)|].
  destruct (named_fields _ _ _ _ _ _ Hnamed2 Hs Hr Hk2 HD) as [_ HnameD].
  pose proof (AddDependency_Ok _ _ _ _ _ HP HD) as HA. rewrite HA, bind_Ok.
  assert (Hwf3 : import_wf ps2
            {| projs := <[p := set_dependencies P
                                 (<[Name D := length (deps h2)]> (dependencies P))]>
                          (projs h2);
               deps := deps h2 ++ [ {| Source := p; Target := d; dconfig := ∅ |} ] |}).
  { by eapply AddDependency_import_wf. }
  eexists _, _. split; [done|]. split; [done|]. split; [|split; [by auto|]].
  - exists p, d, (set_dependencies P (<[Name D := length (deps h2)]> (dependencies P))),
      (length (deps h2)), {| Source := p; Target := d; dconfig := ∅ |}.
    split; [done|]. split; [done|]. simpl. split.
    { apply list_lookup_insert_eq. by eapply lookup_lt_Some. }
    split; [by rewrite HnameD, lookup_insert_eq|].
    split; [by rewrite lookup_app_r, Nat.sub_diag by lia|done].
  - intros fk0 (Hs0 & Ht0 & Hr0) (p0 & d0 & P0 & e0 & D0 & Hkp & Hkd & HP0 & He0 & HD0 & HS0 & HT0).
    pose proof (Hsub2 _ _ (Hsub1 _ _ Hkp)) as Hkp'.
    pose proof (Hsub2 _ _ (Hsub1 _ _ Hkd)) as Hkd'.
    pose proof (Hold2 _ _ (Hold1 _ _ HP0)) as HP0'.
    assert (HD0' : deps h2 !! e0 = Some D0) by (by rewrite Hdeps2, Hdeps1).
    destruct (decide (p0 = p)) as [->|Hne].
    + assert (P0 = P) as -> by congruence.
      assert (fk_schemaName fk0 = fk_schemaName fk ∧ fk_tableName fk0 = fk_tableName fk)
        as [Hseq Hteq].
      { apply key_inj_roots; [apply Hs0|apply Hs|]. by apply (proj2 Hreg2 _ _ p). }
      destruct (decide (referencedTableName fk0 = referencedTableName fk)) as [Hreq|Hrne].
      * exists p, d, (set_dependencies P (<[Name D := length (deps h2)]> (dependencies P))),
          (length (deps h2)), {| Source := p; Target := d; dconfig := ∅ |}.
        split; [done|]. split; [by rewrite Hseq, Hreq|]. simpl. split.
        { apply list_lookup_insert_eq. by eapply lookup_lt_Some. }
        split; [by rewrite Hreq, HnameD, lookup_insert_eq|].
        split; [by rewrite lookup_app_r, Nat.sub_diag by lia|done].
      * exists p, d0, (set_dependencies P (<[Name D := length (deps h2)]> (dependencies P))),
          e0, D0.
        split; [done|]. split; [done|]. simpl. split.
        { apply list_lookup_insert_eq. by eapply lookup_lt_Some. }
        split; [by rewrite HnameD, lookup_insert_ne|].
        split; [|done]. by rewrite lookup_app_l by (by eapply lookup_lt_Some).
    + exists p0, d0, P0, e0, D0.
      split; [done|]. split; [done|]. simpl.
      split; [by rewrite list_lookup_insert_ne|]. split; [done|].
      split; [|done]. by rewrite lookup_app_l by (by eapply lookup_lt_Some).
Qed.


(** The first loop of [importFKs] on rows that all scan. *)
Lemma importFKs_rows_spec fks ps h toSave :
  import_wf ps h → Forall fk_plain fks →
  ∃ ps' h',
    importFKs_rows (Row <$> fks) (ps, h, toSave)
    = Ok (None, (ps', h',
                 list_to_set ((λ fk, (fk_schemaName fk, fk_tableName fk)) <$> fks)
                 ∪ toSave))
    ∧ import_wf ps' h'
    ∧ (∀ fk, fk ∈ fks → fk_edge fk ps' h')
    ∧ (∀ k q, all ps !! k = Some q → all ps' !! k = Some q)
    ∧ (∀ fk0, fk_plain fk0 → fk_edge fk0 ps h → fk_edge fk0 ps' h').
Proof.
  intros Hwf Hplain. revert ps h toSave Hwf.
  induction Hplain as [|fk fks Hfk _ IH]; intros ps h toSave Hwf.
  - exists ps, h. split.
    { rewrite !fmap_nil, list_to_set_nil, (left_id_L ∅ (∪)). done. }
    split; [done|]. split; [|done]. intros fk Hin. by apply elem_of_nil in Hin.
  - destruct (importFKs_row_spec fk ps h toSave Hwf Hfk)
      as (ps1 & h1 & Hrow & Hwf1 & Hedge & Hsub1 & Hkeep1).
    destruct (IH ps1 h1 ({[ (fk_schemaName fk, fk_tableName fk) ]} ∪ toSave) Hwf1)
      as (ps2 & h2 & Hrows & Hwf2 & Hedges & Hsub2 & Hkeep2).
    exists ps2, h2. split.
    { rewrite fmap_cons. cbn [importFKs_rows]. rewrite Hrow, bind_Ok, Hrows.
      do 3 f_equal. rewrite fmap_cons, list_to_set_cons.
      rewrite (assoc_L (∪)). f_equal. apply (comm_L (∪)). }
    split; [done|]. split; [|split; [by auto|by auto]].
    intros fk0 [->|Hin]%elem_of_cons; [by apply Hkeep2|by apply Hedges].
Qed.

Lemma NoDup_omap {A B} (f : A → option B) (l : list A) :
  NoDup l →
  (∀ x y b, x ∈ l → y ∈ l → f x = Some b → f y = Some b → x = y) →
  NoDup (omap f l).
Proof.
  induction 1 as [|x l Hx Hl IH]; intros Hinj; simpl; [constructor|].
  assert (NoDup (omap f l)) as Hnd.
  { apply IH. intros y z b Hy Hz. apply Hinj; by right. }
  destruct (f x) as [b|] eqn:Hfx; [|done].
  constructor; [|done]. intros (y & Hy & Hfy)%list_elem_of_omap.
  apply Hx. rewrite (Hinj x y b); [done|left|by right|done|done].
Qed.

(** The second loop of [importFKs] on keys the registry holds: it
    changes nothing and hands the nodes of the keys to the storage in
    turn, up to the first write that fails. *)
Lemma importFKs_save_spec W order ps h written :
  (∀ k, k ∈ order → k.1 ≠ "" ∧ k.2 ≠ "" ∧ is_Some (all ps !! key k.1 k.2)) →
  ∃ err handed,
    importFKs_save W order ps h written = Ok (err, ps, h, written ++ handed)
    ∧ handed `prefix_of` omap (λ k, all ps !! key k.1 k.2) order
    ∧ (err = None → handed = omap (λ k, all ps !! key k.1 k.2) order)
    ∧ (∀ e, err = Some e → ∃ q, last handed = Some q ∧ W q h = Some e).
Proof.
  revert written. induction order as [|k order IH]; intros written Hkeys.
  - exists None, []. simpl. rewrite app_nil_r. by repeat split.
  - destruct (Hkeys k) as (Hr & Hn & [q Hq]); [left|].
    assert (omap (λ k : string * string, all ps !! key k.1 k.2) (k :: order)
            = q :: omap (λ k : string * string, all ps !! key k.1 k.2) order) as ->.
    { simpl. by rewrite Hq. }
    cbn [importFKs_save]. rewrite (Get_found _ _ _ _ q), bind_Ok by done.
    destruct (W q h) as [e|] eqn:HW.
    + exists (Some e), [q]. split; [done|]. split; [by apply prefix_cons, prefix_nil|].
      split; [done|]. intros e' [= <-]. by exists q.
    + destruct (IH (written ++ [q])) as (err & handed & Hsave & Hpre & Hall & Herr).
      { intros k' Hk'. apply Hkeys. by right. }
      exists err, (q :: handed). rewrite Hsave, <- app_assoc. split; [done|].
      split; [by apply prefix_cons|]. split; [by intros ->%Hall|].
      intros e He. destruct (Herr e He) as (q' & Hlast & HW').
      exists q'. split; [|done]. rewrite last_cons. by rewrite Hlast.
Qed.

(** [importFKs] on rows that all scan, whatever the storage answers. *)
Lemma importFKs_in_spec W order fks ps h :
  import_wf ps h → (∀ s, order s ≡ₚ elements s) → Forall fk_plain fks →
  ∃ err ps' h' written,
    importFKs_in W order (Rows (Row <$> fks)) ps h = Ok (err, ps', h', written)
    ∧ importFKs_rows (Row <$> fks) (ps, h, ∅)
      = Ok (None, (ps', h',
                   list_to_set ((λ fk, (fk_schemaName fk, fk_tableName fk)) <$> fks)))
    ∧ import_wf ps' h'
    ∧ (∀ k q, all ps !! k = Some q → all ps' !! k = Some q)
    ∧ (∀ fk, fk ∈ fks → fk_edge fk ps' h')
    ∧ NoDup written
    ∧ (∀ q, q ∈ written →
         ∃ fk, fk ∈ fks
               ∧ all ps' !! key (fk_schemaName fk) (fk_tableName fk) = Some q)
    ∧ (err = None →
         ∀ fk q, fk ∈ fks →
           all ps' !! key (fk_schemaName fk) (fk_tableName fk) = Some q → q ∈ written)
    ∧ (∀ e, err = Some e → ∃ q, last written = Some q ∧ W q h' = Some e).
Proof.
  intros Hwf Horder Hplain.
  destruct (importFKs_rows_spec fks ps h ∅ Hwf Hplain)
    as (ps' & h' & Hrows & Hwf' & Hedges & Hsub & _).
  rewrite (right_id_L ∅ (∪)) in Hrows.
  set (toSave := list_to_set ((λ fk, (fk_schemaName fk, fk_tableName fk)) <$> fks)
         : gset (string * string)) in *.
  assert (Hin : ∀ k, k ∈ order toSave
                     ↔ ∃ fk, fk ∈ fks ∧ k = (fk_schemaName fk, fk_tableName fk)).
  { intros k. rewrite Horder, elem_of_elements. subst toSave.
    rewrite elem_of_list_to_set, list_elem_of_fmap.
    split; intros (fk & ? & ?); by exists fk. }
  assert (Hkeys : ∀ k, k ∈ order toSave →
                       k.1 ≠ "" ∧ k.2 ≠ "" ∧ is_Some (all ps' !! key k.1 k.2)).
  { intros k (fk & Hfk & ->)%Hin. simpl.
    rewrite Forall_forall in Hplain. destruct (Hplain fk Hfk) as ([? _] & [? _] & _).
    split; [done|]. split; [done|].
    destruct (Hedges fk Hfk) as (p & _ & _ & _ & _ & Hp & _). by exists p. }
  destruct (importFKs_save_spec W (order toSave) ps' h' [] Hkeys)
    as (err & handed & Hsave & Hpre & Hall & Herr).
  exists err, ps', h', handed. split.
  { unfold importFKs_in. rewrite Hrows, bind_Ok. exact Hsave. }
  split; [done|]. split; [done|]. split; [done|]. split; [done|].
  assert (Hnd : NoDup (omap (λ k : string * string, all ps' !! key k.1 k.2)
                         (order toSave))).
  { apply NoDup_omap.
    - rewrite Horder. apply NoDup_elements.
    - intros [s1 t1] [s2 t2] q (fk1 & Hfk1 & Heq1)%Hin (fk2 & Hfk2 & Heq2)%Hin H1 H2.
      simpl in *. rewrite Forall_forall in Hplain.
      destruct (Hplain fk1 Hfk1) as ([_ Hn1] & _). destruct (Hplain fk2 Hfk2) as ([_ Hn2] & _).
      simplify_eq. 
      destruct (key_inj_roots _ _ _ _ Hn1 Hn2 (proj2 (proj1 Hwf') _ _ _ H1 H2)) as [-> ->].
      done. }
  destruct Hpre as [later Hlater]. split; [|split; [|split; [|done]]].
  - rewrite Hlater in Hnd. by apply NoDup_app in Hnd as [? _].
  - intros q Hq.
    assert (q ∈ omap (λ k : string * string, all ps' !! key k.1 k.2) (order toSave))
      as Hq' by (rewrite Hlater; apply elem_of_app; by left).
    apply list_elem_of_omap in Hq' as (k & (fk & Hfk & ->)%Hin & Hk). by exists fk.
  - intros Hnone fk q Hfk Hq. rewrite (Hall Hnone). apply list_elem_of_omap.
    exists (fk_schemaName fk, fk_tableName fk). split; [|done]. apply Hin. by exists fk.
Qed.


(** X20. [importFKs] on foreign key rows whose names are not empty and
    have no newline, read into a well-formed registry: the call returns
    and leaves the registry well-formed, with every key it had; every
    row is then in the graph, as an edge from the node of the table to
    the node of the referenced table of the same schema, held under the
    name of the referenced table; this is so whether or not the storage
    fails afterwards. *)
Theorem importFKs_edges W order fks ps h :
  import_wf ps h → (∀ s, order s ≡ₚ elements s) → Forall fk_plain fks →
  ∃ err ps' h' written,
    importFKs_in W order (Rows (Row <$> fks)) ps h = Ok (err, ps', h', written)
    ∧ import_wf ps' h'
    ∧ (∀ k q, all ps !! k = Some q → all ps' !! k = Some q)
    ∧ ∀ fk, fk ∈ fks →
        ∃ p d P e D,
          all ps' !! (fk_schemaName fk +:+ strings.nl +:+ fk_tableName fk) = Some p
          ∧ all ps' !! (fk_schemaName fk +:+ strings.nl +:+ referencedTableName fk)
            = Some d
          ∧ projs h' !! p = Some P
          ∧ dependencies P !! referencedTableName fk = Some e
          ∧ deps h' !! e = Some D ∧ Source D = p ∧ Target D = d.
Proof.
  intros Hwf Horder Hplain.
  destruct (importFKs_in_spec W order fks ps h Hwf Horder Hplain)
    as (err & ps' & h' & written & Hrun & _ & Hwf' & Hsub & Hedges & _).
  exists err, ps', h', written. split; [done|]. split; [done|]. split; [done|].
  intros fk Hfk. apply (Hedges fk Hfk).
Qed.

(** X21. The second loop of [importFKs] creates and changes nothing:
    the registry and the objects are as the loop over the rows left
    them. Whatever order the keys of [toSave] are visited in, no project
    is handed to the storage twice, and every project handed to it is
    the node of the table of some row; when no write fails every such
    node is handed to it, and when one fails its error is returned at
    once, that write being the last. *)
Theorem importFKs_writes W order fks ps h :
  import_wf ps h → (∀ s, order s ≡ₚ elements s) → Forall fk_plain fks →
  ∃ err ps' h' written toSave,
    importFKs_in W order (Rows (Row <$> fks)) ps h = Ok (err, ps', h', written)
    ∧ importFKs_rows (Row <$> fks) (ps, h, ∅) = Ok (None, (ps', h', toSave))
    ∧ (∀ s t, (s, t) ∈ toSave
              ↔ ∃ fk, fk ∈ fks ∧ s = fk_schemaName fk ∧ t = fk_tableName fk)
    ∧ NoDup written
    ∧ (∀ q, q ∈ written →
         ∃ fk, fk ∈ fks
               ∧ all ps' !! (fk_schemaName fk +:+ strings.nl +:+ fk_tableName fk)
                 = Some q)
    ∧ (err = None →
         ∀ fk q, fk ∈ fks →
           all ps' !! (fk_schemaName fk +:+ strings.nl +:+ fk_tableName fk) = Some q →
           q ∈ written)
    ∧ (∀ e, err = Some e → ∃ q, last written = Some q ∧ W q h' = Some e).
Proof.
  intros Hwf Horder Hplain.
  destruct (importFKs_in_spec W order fks ps h Hwf Horder Hplain)
    as (err & ps' & h' & written & Hrun & Hrows & _ & _ & _ & Hnd & Hfrom & Hall & Herr).
  exists err, ps', h', written,
    (list_to_set ((λ fk, (fk_schemaName fk, fk_tableName fk)) <$> fks)).
  split; [done|]. split; [done|]. split; [|done].
  intros s t. rewrite elem_of_list_to_set, list_elem_of_fmap. split.
  - intros (fk & [= -> ->] & Hfk). by exists fk.
  - intros (fk & Hfk & -> & ->). by exists fk.
Qed.

(** X22. When the query fails, [importFKs] returns its error wrapped
    and touches nothing. When the [Scan] of a row fails, it returns that
    error wrapped at once: the rows before it have been read into the
    registry, their edges are in the graph, but no project is handed to
    the storage. *)
Theorem importFKs_errors W order ps h :
  (∀ err, importFKs_in W order (QueryError err) ps h
          = Ok (Some ("error querying database FKs: " +:+ err), ps, h, []))
  ∧ (∀ fks err rest,
       import_wf ps h → Forall fk_plain fks →
       ∃ ps' h',
         importFKs_in W order (Rows ((Row <$> fks) ++ ScanError err :: rest)) ps h
         = Ok (Some ("error querying database FKs: " +:+ err), ps', h', [])
         ∧ import_wf ps' h'
         ∧ (∀ fk, fk ∈ fks → fk_edge fk ps' h')
         ∧ ∃ toSave, importFKs_rows (Row <$> fks) (ps, h, ∅)
                     = Ok (None, (ps', h', toSave))).
Proof.
  split; [done|]. intros fks err rest Hwf Hplain.
  assert (Hgen : ∀ ps h toSave, import_wf ps h →
            ∃ ps' h' toSave',
              importFKs_rows ((Row <$> fks) ++ ScanError err :: rest) (ps, h, toSave)
              = Ok (Some (errors_Wrap err "error querying database FKs"),
                    (ps', h', toSave'))
              ∧ importFKs_rows (Row <$> fks) (ps, h, toSave)
                = Ok (None, (ps', h', toSave'))).
  { clear ps h Hwf. induction Hplain as [|fk fks Hfk _ IH]; intros ps h toSave Hwf.
    - by exists ps, h, toSave.
    - destruct (importFKs_row_spec fk ps h toSave Hwf Hfk)
        as (ps1 & h1 & Hrow & Hwf1 & _).
      destruct (IH ps1 h1 ({[ (fk_schemaName fk, fk_tableName fk) ]} ∪ toSave) Hwf1)
        as (ps2 & h2 & ts2 & Herr & Hok).
      exists ps2, h2, ts2. rewrite fmap_cons. cbn [app importFKs_rows].
      by rewrite Hrow, !bind_Ok. }
  destruct (Hgen ps h ∅ Hwf) as (ps' & h' & ts & Herr & Hok).
  destruct (importFKs_rows_spec fks ps h ∅ Hwf Hplain)
    as (ps2 & h2 & Hrows & Hwf2 & Hedges & _).
  rewrite Hrows in Hok. injection Hok as <- <- <-.
  exists ps2, h2. split.
  { unfold importFKs_in. by rewrite Herr, bind_Ok. }
  split; [done|]. split; [done|]. by eexists.
Qed.

End importer.

Section importer_examples.
Import archer mysql spec.

Lemma import_wf_new : import_wf NewProjects empty_heap.
Proof.
  split; [apply registry_wf_new|]. split; [apply heap_wf_empty|apply registry_named_new].
Qed.

Lemma importFKs_edges_witness :
  let fks := [mkFkInfo "shop" "orders" "customers"; mkFkInfo "shop" "orders" "items"] in
  ∃ err ps' h' written,
    importFKs (λ _ _, None) (Rows (Row <$> fks)) NewProjects empty_heap
    = Ok (err, ps', h', written)
    ∧ is_Some (all ps' !! ("shop" +:+ strings.nl +:+ "customers")).
Proof.
  intros fks.
  destruct (importFKs_edges (λ _ _, None) elements fks NewProjects empty_heap)
    as (err & ps' & h' & written & Hrun & _ & _ & Hedges).
  - apply import_wf_new.
  - reflexivity.
  - repeat constructor; done.
  - exists err, ps', h', written. split; [exact Hrun|].
    destruct (Hedges (mkFkInfo "shop" "orders" "customers")) as (p & d & _ & _ & _ & _ & Hd & _).
    { left. }
    by exists d.
Defined.

Lemma importFKs_writes_witness :
  let fks := [mkFkInfo "shop" "orders" "customers"; mkFkInfo "shop" "orders" "items"] in
  ∃ err ps' h' written,
    importFKs (λ _ _, None) (Rows (Row <$> fks)) NewProjects empty_heap
    = Ok (err, ps', h', written)
    ∧ NoDup written.
Proof.
  intros fks.
  destruct (importFKs_writes (λ _ _, None) elements fks NewProjects empty_heap)
    as (err & ps' & h' & written & toSave & Hrun & _ & _ & Hnd & _).
  - apply import_wf_new.
  - reflexivity.
  - repeat constructor; done.
  - exists err, ps', h', written. split; [exact Hrun|exact Hnd].
Defined.

End importer_examples.

Section table_import.
Import archer mysql spec.
Local Open Scope Z_scope.

(** Replacing a project by one with the same [Root], [Name] and
    dependency map keeps the registry and the objects well-formed. *)
Lemma update_import_wf ps h p P P' :
  import_wf ps h → projs h !! p = Some P →
  Root P' = Root P → Name P' = Name P → dependencies P' = dependencies P →
  import_wf ps {| projs := <[p := P']> (projs h); deps := deps h |}.
Proof.
  intros (Hreg & Hheap & Hnamed) HP HR HN HD. split; [|split].
  - eapply registry_wf_length; [done|]. simpl. by rewrite length_insert.
  - intros q Q k e HQ Hk. simpl in *.
    assert (∃ Q0, projs h !! q = Some Q0 ∧ dependencies Q0 !! k = Some e)
      as (Q0 & HQ0 & Hk0).
    { destruct (decide (p = q)) as [->|Hne].
      - rewrite list_lookup_insert_eq in HQ by (by eapply lookup_lt_Some).
        injection HQ as <-. exists P. by rewrite <- HD.
      - rewrite list_lookup_insert_ne in HQ by done. by exists Q. }
    destruct (Hheap _ _ _ _ HQ0 Hk0) as (D & T & HDe & HS & HT & HNT).
    destruct (decide (p = Target D)) as [Heq|Hne].
    + exists D, P'. split; [done|]. split; [done|]. split.
      * rewrite <- Heq. apply list_lookup_insert_eq. by eapply lookup_lt_Some.
      * rewrite HN. rewrite <- Heq in HT. congruence.
    + exists D, T. by rewrite list_lookup_insert_ne.
  - intros k q Hq. destruct (Hnamed _ _ Hq) as (Q & HQ & Hkey). simpl.
    destruct (decide (p = q)) as [->|Hne].
    + exists P'. split; [apply list_lookup_insert_eq; by eapply lookup_lt_Some|].
      rewrite HR, HN. congruence.
    + exists Q. by rewrite list_lookup_insert_ne.
Qed.

(** One table row: the call returns, the node is as the row describes
    it, and the nodes of other tables are as they were. *)
Lemma importTables_row_spec t ps h changed :
  import_wf ps h → table_plain t →
  ∃ p ps' h',
    importTables_row t (ps, h, changed) = Ok (ps', h', changed ++ [p])
    ∧ import_wf ps' h'
    ∧ table_node t ps' h'
    ∧ all ps' !! key (schemaName t) (tableName t) = Some p
    ∧ (∀ k q, all ps !! k = Some q → all ps' !! k = Some q)
    ∧ deps h' = deps h
    ∧ (∀ q Q, projs h !! q = Some Q →
         ∃ Q', projs h' !! q = Some Q'
               ∧ dependencies Q' = dependencies Q ∧ config Q' = config Q
               ∧ (q ≠ p → Q' = Q))
    ∧ (∀ t0, table_plain t0 →
         (schemaName t0, tableName t0) ≠ (schemaName t, tableName t) →
         table_node t0 ps h → table_node t0 ps' h').
Proof.
  intros Hwf [Hs Ht]. unfold importTables_row.
  destruct (Get_plain ps _ _ h Hs Ht) as (p & ps1 & h1 & HG). rewrite HG, bind_Ok.
  destruct (Get_import_wf _ _ _ _ _ _ _ Hwf HG) as (Hwf1 & Hk & Hsub & Hold & Hdeps).
  destruct (lookup_lt_is_Some_2 (projs h1) p) as [P HP];
    [by eapply (proj1 (proj1 Hwf1))|].
  destruct (named_fields _ _ _ _ _ _ (proj2 (proj2 Hwf1)) Hs Ht Hk HP) as [HR HN].
  unfold set_Type, AddSize_at. rewrite HP. simpl.
  rewrite list_lookup_insert_eq by (by eapply lookup_lt_Some).
  rewrite bind_Ok, list_insert_insert_eq.
  set (P' := AddSize (mkProject (Root P) (Name P) (NameParts P) DatabaseType (RootDir P)
                        (Dir P) (ProjectFile P) (dependencies P) (size P) (config P)
                        (dataDir P)) "table" (table_size t)).
  assert (Hwf2 : import_wf ps1 {| projs := <[p := P']> (projs h1); deps := deps h1 |}).
  { by eapply update_import_wf. }
  exists p, ps1, {| projs := <[p := P']> (projs h1); deps := deps h1 |}.
  split; [done|]. split; [done|]. split; [|split; [done|split; [done|split; [done|split]]]].
  - exists p, P'. split; [done|]. simpl.
    split; [apply list_lookup_insert_eq; by eapply lookup_lt_Some|].
    split; [done|]. split; [done|]. split; [done|].
    unfold GetSizeOf, P', AddSize. simpl. by rewrite lookup_insert_eq.
  - intros q Q HQ. simpl. destruct (decide (p = q)) as [<-|Hne].
    + exists P'. split; [apply list_lookup_insert_eq; by eapply lookup_lt_Some|].
      rewrite (Hold _ _ HQ) in HP. injection HP as <-. done.
    + exists Q. rewrite list_lookup_insert_ne by done. split; [by apply Hold|done].
  - intros t0 [Hs0 Ht0] Hne (p0 & P0 & Hk0 & HP0 & Hfields).
    exists p0, P0. split; [by apply Hsub|]. split; [|done]. simpl.
    rewrite list_lookup_insert_ne; [by apply Hold|].
    intros <-. apply Hne. apply Hsub in Hk0.
    destruct (key_inj_roots _ _ _ _ (proj2 Hs0) (proj2 Hs)
                (proj2 (proj1 Hwf1) _ _ _ Hk0 Hk)) as [-> ->].
    done.
Qed.


(** The loop of [importTables] on rows that all scan. *)
Lemma importTables_rows_spec ts ps h changed :
  import_wf ps h → Forall table_plain ts →
  ∃ ps' h' new,
    importTables_rows (Row <$> ts) (ps, h, changed) = Ok (None, (ps', h', changed ++ new))
    ∧ import_wf ps' h'
    ∧ (∀ k q, all ps !! k = Some q → all ps' !! k = Some q)
    ∧ deps h' = deps h
    ∧ Forall2 (λ t q, all ps' !! key (schemaName t) (tableName t) = Some q) ts new
    ∧ (∀ q Q, projs h !! q = Some Q →
         ∃ Q', projs h' !! q = Some Q'
               ∧ dependencies Q' = dependencies Q ∧ config Q' = config Q
               ∧ (q ∉ new → Q' = Q))
    ∧ (∀ t0, table_plain t0 →
         (∀ t, t ∈ ts → (schemaName t0, tableName t0) ≠ (schemaName t, tableName t)) →
         table_node t0 ps h → table_node t0 ps' h')
    ∧ (∀ pre t post, ts = pre ++ t :: post →
         (∀ t', t' ∈ post → (schemaName t', tableName t') ≠ (schemaName t, tableName t)) →
         table_node t ps' h').
Proof.
  intros Hwf Hplain. revert ps h changed Hwf.
  induction Hplain as [|t1 ts Ht1 Hplain IH]; intros ps h changed Hwf.
  - exists ps, h, []. simpl. rewrite app_nil_r.
    split; [done|]. split; [done|]. split; [done|]. split; [done|].
    split; [constructor|]. split; [|split; [done|]].
    + intros q Q HQ. by exists Q.
    + intros pre t post Heq. by destruct pre.
  - destruct (importTables_row_spec t1 ps h changed Hwf Ht1)
      as (p1 & ps1 & h1 & Hrow & Hwf1 & Hnode1 & Hk1 & Hsub1 & Hdeps1 & Hframe1 & Hkeep1).
    destruct (IH ps1 h1 (changed ++ [p1]) Hwf1)
      as (ps2 & h2 & new & Hrows & Hwf2 & Hsub2 & Hdeps2 & Hnew & Hframe2 & Hkeep2 & Hlast2).
    exists ps2, h2, (p1 :: new). split.
    { rewrite fmap_cons. cbn [importTables_rows]. rewrite Hrow, bind_Ok, Hrows.
      by rewrite <- app_assoc. }
    split; [done|]. split; [by auto|]. split; [congruence|].
    split; [constructor; [by apply Hsub2|done]|]. split; [|split].
    + intros q Q HQ. destruct (Hframe1 _ _ HQ) as (Q1 & HQ1 & Hd1 & Hc1 & Hsame1).
      destruct (Hframe2 _ _ HQ1) as (Q2 & HQ2 & Hd2 & Hc2 & Hsame2).
      exists Q2. split; [done|]. split; [congruence|]. split; [congruence|].
      intros Hnot. rewrite Hsame2, Hsame1; [done| |].
      * intros ->. apply Hnot. left.
      * intros Hin. apply Hnot. by right.
    + intros t0 Ht0 Hdiff Hnode. apply Hkeep2; [done| |].
      * intros t Hin. apply Hdiff. by right.
      * apply Hkeep1; [done| |done]. apply Hdiff. left.
    + intros pre t post Heq Hdiff. destruct pre as [|t' pre]; simpl in Heq.
      * injection Heq as <- <-. apply Hkeep2; [done| |done].
        intros t' Hin Hpair. by apply (Hdiff t' Hin).
      * injection Heq as <- ->. by apply (Hlast2 pre t post).
Qed.

(** X23. The loop of [importTables] on table rows whose names are not
    empty and have no newline, read into a well-formed registry, runs
    to its end and leaves the registry well-formed, with every key it
    had. [changedProjs] holds the node of each row, in the order of the
    rows. A table that no later row names again has a node of type
    Database, with the schema as [Root] and the table as [Name], whose
    ["table"] size is that of the row, whatever it held before: [Lines]
    is the row count, [Bytes] the data size plus the index size and
    [Other] the two sizes. No edge is changed, every project keeps its
    dependencies and its configuration, and the projects not in
    [changedProjs] are unchanged. *)
Theorem importTables_rows_nodes ts ps h :
  import_wf ps h → Forall table_plain ts →
  ∃ ps' h' changedProjs,
    importTables_rows (Row <$> ts) (ps, h, []) = Ok (None, (ps', h', changedProjs))
    ∧ import_wf ps' h'
    ∧ (∀ k q, all ps !! k = Some q → all ps' !! k = Some q)
    ∧ deps h' = deps h
    ∧ Forall2 (λ t q, all ps' !! (schemaName t +:+ strings.nl +:+ tableName t) = Some q)
        ts changedProjs
    ∧ (∀ q Q, projs h !! q = Some Q →
         ∃ Q', projs h' !! q = Some Q'
               ∧ dependencies Q' = dependencies Q ∧ config Q' = config Q
               ∧ (q ∉ changedProjs → Q' = Q))
    ∧ (∀ pre t post, ts = pre ++ t :: post →
         (∀ t', t' ∈ post → (schemaName t', tableName t') ≠ (schemaName t, tableName t)) →
         ∃ p P,
           all ps' !! (schemaName t +:+ strings.nl +:+ tableName t) = Some p
           ∧ projs h' !! p = Some P
           ∧ Root P = schemaName t ∧ Name P = tableName t
           ∧ Type_ P = DatabaseType
           ∧ GetSizeOf P "table"
             = {| Lines := rows t; Files := 0;
                  Bytes := wrap (dataSize t + indexSize t);
                  Other := Some {[ "data" := dataSize t; "indexes" := indexSize t ]} |}).
Proof.
  intros Hwf Hplain.
  destruct (importTables_rows_spec ts ps h [] Hwf Hplain)
    as (ps' & h' & new & Hrows & Hwf' & Hsub & Hdeps & Hnew & Hframe & _ & Hlast).
  exists ps', h', new. split; [done|]. split; [done|]. split; [done|].
  split; [done|]. split; [done|]. split; [done|].
  intros pre t post Heq Hdiff. apply (Hlast pre t post Heq Hdiff).
Qed.

End table_import.

Section table_import_examples.
Import archer mysql spec.
Local Open Scope Z_scope.

Lemma importTables_rows_nodes_witness :
  let ts := [mkTableInfo "shop" "orders" 10 4096 1024;
             mkTableInfo "shop" "orders" 12 8192 1024] in
  ∃ ps' h' changedProjs p P,
    importTables_rows (Row <$> ts) (NewProjects, empty_heap, [])
    = Ok (None, (ps', h', changedProjs))
    ∧ all ps' !! ("shop" +:+ strings.nl +:+ "orders") = Some p
    ∧ projs h' !! p = Some P
    ∧ Bytes (GetSizeOf P "table") = 9216.
Proof.
  intros ts.
  destruct (importTables_rows_nodes ts NewProjects empty_heap)
    as (ps' & h' & changed & Hrun & _ & _ & _ & _ & _ & Hlast).
  - apply import_wf_new.
  - repeat constructor; done.
  - destruct (Hlast [mkTableInfo "shop" "orders" 10 4096 1024]
                (mkTableInfo "shop" "orders" 12 8192 1024) [])
      as (p & P & Hp & HP & _ & _ & _ & Hsize).
    + reflexivity.
    + intros t' Hin. by apply elem_of_nil in Hin.
    + exists ps', h', changed, p, P. split; [exact Hrun|]. split; [exact Hp|].
      split; [exact HP|]. rewrite Hsize. reflexivity.
Defined.

End table_import_examples.
